(** * murjs: virtual DOM differ, DOM patcher property writes, reactive store

    Shallow embedding of
    - [src/src/vdom.js] lines 1-131 (h, diff, diffProps, diffChildren:
      the keyed version of the differ),
    - [src/src/render.js] (createElement, setProps, setProp,
      patchKeyedChildren, removeProp, patch) over a model of the DOM tree,
    - [src/unnamed/part_003] (createReactive, track, trigger, effect, cleanup),
    - [src/unnamed/part_004] (mount),
    - [src/unnamed/part_005] (the namespace-aware getNamespace,
      getChildNamespace, createElement, setProp, patchKeyedChildren, patch).

    JavaScript values are modelled by [jsval]; numbers are restricted to
    integers plus [JNaN]; objects ([JRef]) and functions ([JFun]) are
    references compared by identity, [JBuiltin] names a built-in object or
    function ([Object.prototype] and its methods). Plain objects used as maps
    (props, the reactive target) are own-property maps in iteration order;
    props are plain objects, which inherit from [Object.prototype]. *)

From Stdlib Require Import List String Bool Arith ZArith Lia.
Import ListNotations.
Open Scope string_scope.
Open Scope list_scope.
Set Warnings "-register-all".

(** ** JavaScript values *)

Inductive jsval : Type :=
| JUndef
| JNull
| JBool (b : bool)
| JNum (z : Z)
| JNaN
| JStr (s : string)
| JRef (r : nat)
| JFun (r : nat)
| JBuiltin (name : string).

(** [a === b] *)
Definition strict_eq (a b : jsval) : bool :=
  match a, b with
  | JUndef, JUndef => true
  | JNull, JNull => true
  | JBool x, JBool y => Bool.eqb x y
  | JNum x, JNum y => Z.eqb x y
  | JNaN, JNaN => false
  | JStr x, JStr y => String.eqb x y
  | JRef x, JRef y => Nat.eqb x y
  | JFun x, JFun y => Nat.eqb x y
  | JBuiltin x, JBuiltin y => String.eqb x y
  | _, _ => false
  end.

(** SameValueZero, the key equality of [Map]. *)
Definition same_value_zero (a b : jsval) : bool :=
  match a, b with
  | JNaN, JNaN => true
  | _, _ => strict_eq a b
  end.

(** [v != null] *)
Definition not_nullish (v : jsval) : bool :=
  match v with
  | JUndef | JNull => false
  | _ => true
  end.

(** ** Plain objects used as maps: own properties in iteration order *)

Definition obj := list (string * jsval).

(** [o[k]], [undefined] when absent. *)
Fixpoint obj_get (o : obj) (k : string) : jsval :=
  match o with
  | [] => JUndef
  | (k', v) :: o' => if String.eqb k k' then v else obj_get o' k
  end.

(** [o.hasOwnProperty(k)] *)
Definition obj_has (o : obj) (k : string) : bool :=
  existsb (fun kv => String.eqb k (fst kv)) o.

(** The properties of [Object.prototype], which every plain object inherits
    (none of them is enumerable, so [for ... in] sees the own properties
    only); [__proto__] is the accessor returning the object's prototype. *)
Definition object_prototype : obj :=
  [("constructor", JBuiltin "Object");
   ("__defineGetter__", JBuiltin "Object.prototype.__defineGetter__");
   ("__defineSetter__", JBuiltin "Object.prototype.__defineSetter__");
   ("hasOwnProperty", JBuiltin "Object.prototype.hasOwnProperty");
   ("__lookupGetter__", JBuiltin "Object.prototype.__lookupGetter__");
   ("__lookupSetter__", JBuiltin "Object.prototype.__lookupSetter__");
   ("isPrototypeOf", JBuiltin "Object.prototype.isPrototypeOf");
   ("propertyIsEnumerable", JBuiltin "Object.prototype.propertyIsEnumerable");
   ("toString", JBuiltin "Object.prototype.toString");
   ("valueOf", JBuiltin "Object.prototype.valueOf");
   ("__proto__", JBuiltin "Object.prototype");
   ("toLocaleString", JBuiltin "Object.prototype.toLocaleString")].

(** [o[k]] on a plain object: an own property, else an inherited one, else
    [undefined]. *)
Definition js_get (o : obj) (k : string) : jsval :=
  if obj_has o k then obj_get o k else obj_get object_prototype k.

(** [k in o] on a plain object: own or inherited. *)
Definition js_in (o : obj) (k : string) : bool :=
  obj_has o k || obj_has object_prototype k.

(** ** Virtual nodes *)

Inductive vnode : Type :=
  VNode { vtype : string; props : obj; children : list vnode;
          text : option string }.

Definition createTextVNode (s : string) : vnode :=
  VNode "TEXT" [] [] (Some s).

(** [child?.props?.key] *)
Definition vkey (c : vnode) : jsval := obj_get (props c) "key".

(** ** Patches *)

Inductive propPatch : Type :=
| SET_PROP (key : string) (value : jsval)
| REMOVE_PROP (key : string).

(** [CREATE] carries [newVNode], which is [undefined] when [diff] is called
    with two absent nodes; [TEXT] carries [newVNode.text]. *)
Inductive patch : Type :=
| CREATE (v : option vnode)
| REMOVE
| REPLACE (v : vnode)
| TEXT (t : option string)
| UPDATE (pp : list propPatch) (cp : childPatches)
with childPatches : Type :=
| Positional (ps : list (option patch))
| Keyed (es : list keyedPatch)
with keyedPatch : Type :=
| KP (oldIndex : option nat) (newIndex : option nat) (key : jsval)
     (p : option patch).

Definition cp_patches_length (cp : childPatches) : nat :=
  match cp with
  | Positional ps => List.length ps
  | Keyed es => List.length es
  end.

(** ** diffProps *)

Definition diffProps (oldProps newProps : obj) : list propPatch :=
  let sets :=
    flat_map (fun kv =>
      let '(key, v) := kv in
      if negb (strict_eq (js_get oldProps key) v) then [SET_PROP key v] else [])
      newProps in
  let removes :=
    flat_map (fun kv =>
      let '(key, _) := kv in
      if negb (js_in newProps key) then [REMOVE_PROP key] else [])
      oldProps in
  sets ++ removes.

(** ** diffChildren: the key map and the used-index set *)

(** A [Map] from keys to [{child, index}], in insertion order;
    [set] on a present key replaces its entry. *)
Definition keyMap := list (jsval * (vnode * nat)).

Fixpoint map_set (m : keyMap) (k : jsval) (e : vnode * nat) : keyMap :=
  match m with
  | [] => [(k, e)]
  | (k', e') :: m' =>
      if same_value_zero k k' then (k', e) :: m' else (k', e') :: map_set m' k e
  end.

Fixpoint map_get (m : keyMap) (k : jsval) : option (vnode * nat) :=
  match m with
  | [] => None
  | (k', e) :: m' => if same_value_zero k k' then Some e else map_get m' k
  end.

(** [oldChildren.forEach((child, i) => { if (key != null) oldKeyMap.set(...) })] *)
Fixpoint build_keymap (m : keyMap) (i : nat) (olds : list vnode) : keyMap :=
  match olds with
  | [] => m
  | c :: olds' =>
      let m' := if not_nullish (vkey c) then map_set m (vkey c) (c, i) else m in
      build_keymap m' (S i) olds'
  end.

(** The final [oldChildren.forEach]: one [REMOVE] per unused old index. *)
Fixpoint removals (used : list nat) (i : nat) (olds : list vnode)
  : list keyedPatch :=
  match olds with
  | [] => []
  | c :: olds' =>
      let rest := removals used (S i) olds' in
      if existsb (Nat.eqb i) used then rest
      else KP (Some i) None (vkey c) (Some REMOVE) :: rest
  end.

Definition keyedCount (news : list vnode) : nat :=
  List.length (filter (fun c => not_nullish (vkey c)) news).

(** ** diff

    [diff_node] is [diff] on two present nodes, structural on the new node;
    the warnings printed by [diffChildren] do not affect its result and are
    left out. *)
Fixpoint diff_node (o n : vnode) {struct n} : option patch :=
  if negb (String.eqb (vtype o) (vtype n)) then Some (REPLACE n)
  else if String.eqb (vtype o) "TEXT" then
    (if match text o, text n with
        | Some a, Some b => negb (String.eqb a b)
        | None, None => false
        | _, _ => true
        end
     then Some (TEXT (text n)) else None)
  else
    let propPatches := diffProps (props o) (props n) in
    let news := children n in
    let olds := children o in
    (* positional: [for (i = 0; i < max; i++) diff(old[i], new[i])] *)
    let fix positional (os : list vnode) (ns : list vnode) {struct ns}
        : list (option patch) :=
      match ns with
      | [] => map (fun _ => Some REMOVE) os
      | c :: ns' =>
          match os with
          | [] => Some (CREATE (Some c)) :: positional [] ns'
          | oc :: os' => diff_node oc c :: positional os' ns'
          end
      end in
    (* keyed: [newChildren.forEach((newChild, newIndex) => ...)],
       threading [patches] and [usedOldIndices] *)
    let fix keyedLoop (oldKeyMap : keyMap) (used : list nat) (j : nat)
        (ns : list vnode) {struct ns} : list keyedPatch * list nat :=
      match ns with
      | [] => ([], used)
      | c :: ns' =>
          let key := vkey c in
          let oldEntry := if not_nullish key then map_get oldKeyMap key else None in
          match oldEntry with
          | Some (oc, i) =>
              let '(rest, u) := keyedLoop oldKeyMap (used ++ [i]) (S j) ns' in
              (KP (Some i) (Some j) key (diff_node oc c) :: rest, u)
          | None =>
              let '(rest, u) := keyedLoop oldKeyMap used (S j) ns' in
              (KP None (Some j) key (Some (CREATE (Some c))) :: rest, u)
          end
      end in
    let childPatches :=
      if negb (Nat.eqb (keyedCount news) (List.length news)) then
        Positional (positional olds news)
      else
        let '(ps, used) := keyedLoop (build_keymap [] 0 olds) [] 0 news in
        Keyed (ps ++ removals used 0 olds) in
    if orb (Nat.ltb 0 (List.length propPatches)) (Nat.ltb 0 (cp_patches_length childPatches))
    then Some (UPDATE propPatches childPatches)
    else None.

(** [typeof] is ["object"] for both present nodes, so only [type] is compared. *)
Definition diff (o n : option vnode) : option patch :=
  match o, n with
  | None, _ => Some (CREATE n)
  | Some _, None => Some REMOVE
  | Some o, Some n => diff_node o n
  end.

(** ** diffChildren as a function of its own

    The same loops as inside [diff_node], with the recursive call going to
    [diff_node]; [diff_node_unfold] below shows that [diff_node] computes its
    child patches with them. *)

Fixpoint positional (os ns : list vnode) : list (option patch) :=
  match ns with
  | [] => map (fun _ => Some REMOVE) os
  | c :: ns' =>
      match os with
      | [] => Some (CREATE (Some c)) :: positional [] ns'
      | oc :: os' => diff_node oc c :: positional os' ns'
      end
  end.

Fixpoint keyedLoop (oldKeyMap : keyMap) (used : list nat) (j : nat)
  (ns : list vnode) : list keyedPatch * list nat :=
  match ns with
  | [] => ([], used)
  | c :: ns' =>
      let key := vkey c in
      let oldEntry := if not_nullish key then map_get oldKeyMap key else None in
      match oldEntry with
      | Some (oc, i) =>
          let '(rest, u) := keyedLoop oldKeyMap (used ++ [i]) (S j) ns' in
          (KP (Some i) (Some j) key (diff_node oc c) :: rest, u)
      | None =>
          let '(rest, u) := keyedLoop oldKeyMap used (S j) ns' in
          (KP None (Some j) key (Some (CREATE (Some c))) :: rest, u)
      end
  end.

Definition diffChildren (olds news : list vnode) : childPatches :=
  if negb (Nat.eqb (keyedCount news) (List.length news)) then
    Positional (positional olds news)
  else
    let '(ps, used) := keyedLoop (build_keymap [] 0 olds) [] 0 news in
    Keyed (ps ++ removals used 0 olds).

(** ** The builder [h] *)

Inductive hchild : Type :=
| HNode (v : vnode)
| HText (s : string).

Definition h (ty : string) (ps : obj) (cs : list hchild) : vnode :=
  VNode ty ps
    (map (fun c => match c with HNode v => v | HText s => createTextVNode s end) cs)
    None.

(** ** Descriptions used by the claims on the differ *)

(** The patches [patch] recomputes in its positional child loop
    [childPatches.patches.forEach((_, i) =>
       patch(el, childNodes[i], oldVNode.children[i], newVNode.children[i]))],
    whose first step is [diff(oldVNode.children[i], newVNode.children[i])]. *)
Definition rediffed_child_patches (o n : vnode) (ps : list (option patch))
  : list (option patch) :=
  map (fun i => diff (nth_error (children o) i) (nth_error (children n) i))
      (seq 0 (List.length ps)).

(** Description: the last old child whose key is the same as [k]
    (SameValueZero), with its index. *)
Fixpoint last_with_key (i : nat) (olds : list vnode) (k : jsval)
  : option (vnode * nat) :=
  match olds with
  | [] => None
  | c :: olds' =>
      match last_with_key (S i) olds' k with
      | Some e => Some e
      | None => if same_value_zero (vkey c) k then Some (c, i) else None
      end
  end.

(** Description: the record of the new child [c] at [newIndex = j]. *)
Definition keyed_spec_entry (olds : list vnode) (j : nat) (c : vnode) : keyedPatch :=
  match last_with_key 0 olds (vkey c) with
  | Some (oc, i) => KP (Some i) (Some j) (vkey c) (diff (Some oc) (Some c))
  | None => KP None (Some j) (vkey c) (Some (CREATE (Some c)))
  end.

Fixpoint keyed_spec_entries (olds : list vnode) (j : nat) (news : list vnode)
  : list keyedPatch :=
  match news with
  | [] => []
  | c :: news' => keyed_spec_entry olds j c :: keyed_spec_entries olds (S j) news'
  end.

(** Description: the old indices matched by some new child, in new order. *)
Definition matched_indices (olds news : list vnode) : list nat :=
  flat_map (fun c => match last_with_key 0 olds (vkey c) with
                     | Some (_, i) => [i]
                     | None => []
                     end) news.

(** Description: one [REMOVE] per old index not in [consumed], in index order. *)
Definition unconsumed_removals (consumed : list nat) (olds : list vnode)
  : list keyedPatch :=
  map (fun ic => KP (Some (fst ic)) None (vkey (snd ic)) (Some REMOVE))
      (filter (fun ic => negb (existsb (Nat.eqb (fst ic)) consumed))
              (combine (seq 0 (List.length olds)) olds)).

Fixpoint keys_distinct (news : list vnode) : bool :=
  match news with
  | [] => true
  | c :: news' =>
      forallb (fun c' => negb (same_value_zero (vkey c) (vkey c'))) news'
      && keys_distinct news'
  end.

Definition li_key (k : string) : vnode := h "li" [("key", JStr k)] [].

(** ** Live DOM element, as far as [setProp] and [removeProp] touch it

    [el_attrs]: attributes set by [setAttribute]/[setAttributeNS] (by
    qualified name); [el_className], [el_value]: the [className] and [value]
    properties; [el_style]: the objects merged by [Object.assign(el.style, _)],
    in order; [el_listeners]: the registered [(eventName, handler)] pairs;
    [el_handlers]: this element's entry of the [eventHandlers] WeakMap. *)
Record elem : Type := Elem {
  el_attrs : obj;
  el_className : jsval;
  el_value : jsval;
  el_style : list jsval;
  el_listeners : list (string * jsval);
  el_handlers : obj
}.

Fixpoint obj_set (o : obj) (k : string) (v : jsval) : obj :=
  match o with
  | [] => [(k, v)]
  | (k', v') :: o' => if String.eqb k k' then (k', v) :: o' else (k', v') :: obj_set o' k v
  end.

Fixpoint obj_delete (o : obj) (k : string) : obj :=
  match o with
  | [] => []
  | (k', v') :: o' => if String.eqb k k' then o' else (k', v') :: obj_delete o' k
  end.

Definition setAttribute (el : elem) (k : string) (v : jsval) : elem :=
  Elem (obj_set (el_attrs el) k v) (el_className el) (el_value el)
       (el_style el) (el_listeners el) (el_handlers el).

Definition removeAttribute (el : elem) (k : string) : elem :=
  Elem (obj_delete (el_attrs el) k) (el_className el) (el_value el)
       (el_style el) (el_listeners el) (el_handlers el).

Definition set_className (el : elem) (v : jsval) : elem :=
  Elem (el_attrs el) v (el_value el) (el_style el) (el_listeners el) (el_handlers el).

Definition set_value (el : elem) (v : jsval) : elem :=
  Elem (el_attrs el) (el_className el) v (el_style el) (el_listeners el) (el_handlers el).

Definition assign_style (el : elem) (v : jsval) : elem :=
  Elem (el_attrs el) (el_className el) (el_value el) (el_style el ++ [v])
       (el_listeners el) (el_handlers el).

Definition jsval_eqb (a b : jsval) : bool :=
  match a, b with
  | JNaN, JNaN => true
  | _, _ => strict_eq a b
  end.

(** [removeEventListener] drops the first matching registration. *)
Fixpoint remove_listener (ls : list (string * jsval)) (ev : string) (f : jsval)
  : list (string * jsval) :=
  match ls with
  | [] => []
  | (ev', f') :: ls' =>
      if String.eqb ev ev' && jsval_eqb f f' then ls'
      else (ev', f') :: remove_listener ls' ev f
  end.

Definition truthy (v : jsval) : bool :=
  match v with
  | JUndef | JNull | JNaN => false
  | JBool b => b
  | JNum z => negb (Z.eqb z 0)
  | JStr s => negb (String.eqb s "")
  | JRef _ | JFun _ | JBuiltin _ => true
  end.

(** [typeof value === 'object'] *)
Definition is_object (v : jsval) : bool :=
  match v with
  | JNull | JRef _ => true
  | JBuiltin n => String.eqb n "Object.prototype"
  | _ => false
  end.

Definition ascii_lower (c : Ascii.ascii) : Ascii.ascii :=
  let n := Ascii.nat_of_ascii c in
  if Nat.leb 65 n && Nat.leb n 90 then Ascii.ascii_of_nat (n + 32) else c.

Fixpoint to_lower (s : string) : string :=
  match s with
  | EmptyString => EmptyString
  | String c s' => String (ascii_lower c) (to_lower s')
  end.

(** [key.slice(2).toLowerCase()] *)
Definition eventName (key : string) : string :=
  to_lower (substring 2 (String.length key - 2) key).

(** The event-handler branch shared by both renderers. *)
Definition set_handler (el : elem) (key : string) (value : jsval) : elem :=
  let ev := eventName key in
  let old := obj_get (el_handlers el) key in
  let ls := if truthy old then remove_listener (el_listeners el) ev old
            else el_listeners el in
  Elem (el_attrs el) (el_className el) (el_value el) (el_style el)
       (ls ++ [(ev, value)]) (obj_set (el_handlers el) key value).

(** [setProp] of [src/src/render.js]. *)
Definition setProp (el : elem) (key : string) (value : jsval) : elem :=
  if String.eqb key "key" then el
  else if String.prefix "on" key then set_handler el key value
  else if String.eqb key "className" then set_className el value
  else if String.eqb key "style" && is_object value then assign_style el value
  else if String.eqb key "value" then set_value el value
  else setAttribute el key value.

Definition SVG_NS : string := "http://www.w3.org/2000/svg".

(** [setProp(el, key, value, ns)] of the namespace-aware renderer
    [src/unnamed/part_005]; [ns = None] is [null]. The element state keeps
    attributes by qualified name only, so the [setAttributeNS] of the xlink
    branch is recorded under ["xlink:href"] like a plain attribute; the
    host check [setProp_ns_ok] tells the two calls apart. *)
Definition setProp_ns (el : elem) (key : string) (value : jsval)
  (ns : option string) : elem :=
  if String.eqb key "key" then el
  else if String.prefix "on" key then set_handler el key value
  else if String.eqb key "className" then
    (if match ns with Some s => String.eqb s SVG_NS | None => false end
     then setAttribute el "class" value
     else set_className el value)
  else if String.eqb key "style" && is_object value then assign_style el value
  else if String.eqb key "value" && match ns with None => true | Some _ => false end
  then set_value el value
  else if String.eqb key "xlinkHref" || String.eqb key "xlink:href" then
    setAttribute el "xlink:href" value
  else setAttribute el key value.



Definition removeProp (el : elem) (key : string) : elem :=
  if String.prefix "on" key then
    let old := obj_get (el_handlers el) key in
    if truthy old then
      Elem (el_attrs el) (el_className el) (el_value el) (el_style el)
           (remove_listener (el_listeners el) (eventName key) old)
           (obj_delete (el_handlers el) key)
    else el
  else if String.eqb key "className" then set_className el (JStr "")
  else removeAttribute el key.





(** [m >>= f] on [option]. *)
Definition obind {A B : Type} (m : option A) (f : A -> option B) : option B :=
  match m with Some a => f a | None => None end.

(** ** What the host DOM may refuse

    The calls [setProp] and [removeProp] make can throw in a browser:
    [setAttribute] with a name that is not a valid attribute name
    ([InvalidCharacterError]); [addEventListener] and [removeEventListener]
    with a handler that is neither an object nor [null]/[undefined]
    ([TypeError], the WebIDL conversion to [EventListener?]); and the writes
    that convert the value to a string or copy its properties ([String()] of
    an object whose [toString] throws, [Object.assign] into [el.style], the
    [value] setter of a file input, the read-only [className] of an SVG
    element in module code). [document.createElement] and
    [document.createElementNS] throw on names that are not valid element
    names. The name rules of the DOM standard have changed over time and the
    behaviour of objects is opaque to the model, so the host's decisions are
    parameters: [element_name_ok None n] is the check of
    [document.createElement(n)], [element_name_ok (Some ns) n] that of
    [document.createElementNS(ns, n)]; [attribute_name_ok] is the name check
    of [setAttribute]; [write_ok ns tag e w] says whether the write [w] on an
    element of namespace [ns], qualified name [tag] and state [e] returns. *)
Inductive host_write : Type :=
| WAttr (name : string) (value : jsval)               (* [el.setAttribute(name, value)] *)
| WAttrNS (ns name : string) (value : jsval)          (* [el.setAttributeNS(ns, name, value)] *)
| WClassName (value : jsval)                          (* [el.className = value] *)
| WStyle (value : jsval)                              (* [Object.assign(el.style, value)] *)
| WValue (value : jsval).                             (* [el.value = value] *)

Class dom_host : Type := {
  element_name_ok : option string -> string -> bool;
  attribute_name_ok : string -> bool;
  write_ok : string -> string -> elem -> host_write -> bool
}.

(** The conversion of a handler to [EventListener?]: objects and functions
    pass, [null] and [undefined] become [null]; other values throw. *)
Definition listener_ok (v : jsval) : bool :=
  match v with
  | JUndef | JNull | JRef _ | JFun _ | JBuiltin _ => true
  | JBool _ | JNum _ | JNaN | JStr _ => false
  end.

(** A stored handler [h] for which
    [if (h) el.removeEventListener(eventName, h)] does not throw. *)
Definition handler_ok (v : jsval) : bool := negb (truthy v) || listener_ok v.

(** The registered handlers of an element are all such handlers. *)
Definition elem_ok (e : elem) : bool :=
  forallb (fun kv => handler_ok (snd kv)) (el_handlers e).

Definition XLINK_NS : string := "http://www.w3.org/1999/xlink".

Section Host.
Context `{dom_host}.

(** Whether [setProp(el, key, value)] of [render.js] returns, on an element
    of namespace [ns] and qualified name [tg]. *)
Definition setProp_ok (ns tg : string) (el : elem) (key : string) (value : jsval) : bool :=
  if String.eqb key "key" then true
  else if String.prefix "on" key then
    handler_ok (obj_get (el_handlers el) key) && listener_ok value
  else if String.eqb key "className" then write_ok ns tg el (WClassName value)
  else if String.eqb key "style" && is_object value then write_ok ns tg el (WStyle value)
  else if String.eqb key "value" then write_ok ns tg el (WValue value)
  else attribute_name_ok key && write_ok ns tg el (WAttr key value).

(** The same for [setProp(el, key, value, ns)] of [part_005]; [ens] is the
    element's own namespace, [ns] the argument. *)
Definition setProp_ns_ok (ens tg : string) (el : elem) (key : string) (value : jsval)
  (ns : option string) : bool :=
  if String.eqb key "key" then true
  else if String.prefix "on" key then
    handler_ok (obj_get (el_handlers el) key) && listener_ok value
  else if String.eqb key "className" then
    (if match ns with Some s => String.eqb s SVG_NS | None => false end
     then write_ok ens tg el (WAttr "class" value)
     else write_ok ens tg el (WClassName value))
  else if String.eqb key "style" && is_object value then write_ok ens tg el (WStyle value)
  else if String.eqb key "value" && match ns with None => true | Some _ => false end
  then write_ok ens tg el (WValue value)
  else if String.eqb key "xlinkHref" || String.eqb key "xlink:href" then
    write_ok ens tg el (WAttrNS XLINK_NS "xlink:href" value)
  else attribute_name_ok key && write_ok ens tg el (WAttr key value).

(** Whether [removeProp(el, key)] returns ([removeAttribute] never throws). *)
Definition removeProp_ok (ns tg : string) (el : elem) (key : string) : bool :=
  if String.prefix "on" key then
    handler_ok (obj_get (el_handlers el) key)
  else if String.eqb key "className" then write_ok ns tg el (WClassName (JStr ""))
  else true.

(** [setProp] and [removeProp] on the host: [None] when the call throws. *)
Definition setProp_host (ns tg : string) (el : elem) (key : string) (value : jsval)
  : option elem :=
  if setProp_ok ns tg el key value then Some (setProp el key value) else None.

Definition setProp_ns_host (ens tg : string) (el : elem) (key : string) (value : jsval)
  (ns : option string) : option elem :=
  if setProp_ns_ok ens tg el key value ns then Some (setProp_ns el key value ns) else None.

Definition removeProp_host (ns tg : string) (el : elem) (key : string) : option elem :=
  if removeProp_ok ns tg el key then Some (removeProp el key) else None.

(** [setProps(el, props)]: the loop stops at the first call that throws. *)
Fixpoint setProps_host (ns tg : string) (el : elem) (ps : obj) : option elem :=
  match ps with
  | [] => Some el
  | (k, v) :: ps' => obind (setProp_host ns tg el k v) (fun el' => setProps_host ns tg el' ps')
  end.

Fixpoint setProps_ns_host (ens tg : string) (el : elem) (ps : obj) (ns : option string)
  : option elem :=
  match ps with
  | [] => Some el
  | (k, v) :: ps' =>
      obind (setProp_ns_host ens tg el k v ns) (fun el' => setProps_ns_host ens tg el' ps' ns)
  end.

(** The attribute step of [patch] on an [UPDATE]. *)
Fixpoint applyPropPatches_host (ns tg : string) (el : elem) (pps : list propPatch)
  : option elem :=
  match pps with
  | [] => Some el
  | pp :: pps' =>
      obind (match pp with
             | SET_PROP k v => setProp_host ns tg el k v
             | REMOVE_PROP k => removeProp_host ns tg el k
             end) (fun el' => applyPropPatches_host ns tg el' pps')
  end.

Fixpoint applyPropPatches_ns_host (ens tg : string) (el : elem) (pps : list propPatch)
  (ns : option string) : option elem :=
  match pps with
  | [] => Some el
  | pp :: pps' =>
      obind (match pp with
             | SET_PROP k v => setProp_ns_host ens tg el k v ns
             | REMOVE_PROP k => removeProp_host ens tg el k
             end) (fun el' => applyPropPatches_ns_host ens tg el' pps' ns)
  end.

End Host.

(** ** Reactive store and effects ([src/unnamed/part_003])

    One store made by [createReactive]: [target] is the wrapped object,
    [deps] its [Map] from keys to subscriber [Set]s (effects are numbered;
    a [Set] is a duplicate-free list in insertion order). Each key has one
    [Set] for the whole life of the store, so the [Set] references an effect
    pushes to [effect.deps] are recorded as the keys of those sets
    ([edeps]). [current] is the global [currentEffect]. The body of effect
    [e] is the program [fn_of e] of reads and writes on the store;
    [events] records each invocation of an effect and each tracked read. *)

Inductive cmd : Type :=
| Done
| Read (k : string) (next : jsval -> cmd)
| Write (k : string) (v : jsval) (next : cmd).

Inductive event : Type :=
| Ran (e : nat)
| Tracked (e : nat) (k : string).

Record rstate : Type := RState {
  target : string -> jsval;
  deps : string -> option (list nat);
  edeps : nat -> list string;
  current : option nat;
  events : list event
}.

Definition upd_s {A : Type} (f : string -> A) (k : string) (v : A) : string -> A :=
  fun k' => if String.eqb k' k then v else f k'.

Definition upd_n {A : Type} (f : nat -> A) (e : nat) (v : A) : nat -> A :=
  fun e' => if Nat.eqb e' e then v else f e'.

Definition set_add (e : nat) (s : list nat) : list nat :=
  if existsb (Nat.eqb e) s then s else s ++ [e].

Definition set_delete (e : nat) (s : list nat) : list nat :=
  filter (fun x => negb (Nat.eqb x e)) s.

(** The subscribers of [k]: [deps.get(k)], an absent set read as empty. *)
Definition subs (st : rstate) (k : string) : list nat :=
  match deps st k with Some l => l | None => [] end.

(** [track(key)] *)
Definition track (k : string) (st : rstate) : rstate :=
  match current st with
  | None => st
  | Some e =>
      RState (target st) (upd_s (deps st) k (Some (set_add e (subs st k))))
             (upd_n (edeps st) e (edeps st e ++ [k])) (current st)
             (events st ++ [Tracked e k])
  end.

(** [target[key] = value] *)
Definition put (k : string) (v : jsval) (st : rstate) : rstate :=
  RState (upd_s (target st) k v) (deps st) (edeps st) (current st) (events st).

(** [cleanup(effect)]: [dep.delete(effect)] for each recorded set, then
    [effect.deps.length = 0]. *)
Definition delete_from (e : nat) (st : rstate) (k : string) : rstate :=
  RState (target st) (upd_s (deps st) k (option_map (set_delete e) (deps st k)))
         (edeps st) (current st) (events st).

Definition cleanup (e : nat) (st : rstate) : rstate :=
  let st1 := fold_left (delete_from e) (edeps st e) st in
  RState (target st1) (deps st1) (upd_n (edeps st1) e []) (current st1) (events st1).

Definition set_current (c : option nat) (st : rstate) : rstate :=
  RState (target st) (deps st) (edeps st) c (events st).

Definition log (ev : event) (st : rstate) : rstate :=
  RState (target st) (deps st) (edeps st) (current st) (events st ++ [ev]).

(** [effect !== currentEffect] fails *)
Definition is_current (c : option nat) (e : nat) : bool :=
  match c with Some e' => Nat.eqb e' e | None => false end.

Section Runner.
(** [runner e st]: invoking the wrapped effect [e]. *)
Variable runner : nat -> rstate -> option rstate.

(** [effectsToRun.forEach(effect => { if (effect !== currentEffect) effect(); })] *)
Fixpoint run_each (es : list nat) (st : rstate) : option rstate :=
  match es with
  | [] => Some st
  | e :: es' =>
      if is_current (current st) e then run_each es' st
      else obind (runner e st) (run_each es')
  end.

(** [trigger(key)]: [Array.from(effects)] is the snapshot [es]. *)
Definition trigger (k : string) (st : rstate) : option rstate :=
  match deps st k with
  | None => Some st
  | Some es => run_each es st
  end.

(** The [set] trap. *)
Definition set_with (k : string) (v : jsval) (st : rstate) : option rstate :=
  let oldValue := target st k in
  let st1 := put k v st in
  if negb (strict_eq oldValue v) then trigger k st1 else Some st1.

(** An effect body: the [get] trap tracks, then returns [target[key]]. *)
Fixpoint exec_with (c : cmd) (st : rstate) : option rstate :=
  match c with
  | Done => Some st
  | Read k next => let st1 := track k st in exec_with (next (target st k)) st1
  | Write k v next => obind (set_with k v st) (exec_with next)
  end.

(** Invoking a fixed list of effects, each once, in order. *)
Fixpoint run_list (es : list nat) (st : rstate) : option rstate :=
  match es with
  | [] => Some st
  | e :: es' => obind (runner e st) (run_list es')
  end.
End Runner.

Section Effects.
Variable fn_of : nat -> cmd.

(** [wrappedEffect()]: cleanup, save [currentEffect], make [e] current,
    run its body, restore; [fuel] bounds the nesting of invocations
    ([None] when it runs out). *)
Fixpoint run (fuel : nat) (e : nat) (st : rstate) : option rstate :=
  match fuel with
  | 0 => None
  | S f =>
      let st1 := cleanup e (log (Ran e) st) in
      let prevEffect := current st1 in
      obind (exec_with (run f) (fn_of e) (set_current (Some e) st1))
            (fun st2 => Some (set_current prevEffect st2))
  end.

(** [effect(fn)]: [wrappedEffect.deps = []], then one run. *)
Definition effect (fuel : nat) (e : nat) (st : rstate) : option rstate :=
  run fuel e (RState (target st) (deps st) (upd_n (edeps st) e []) (current st)
                     (events st)).

(** A write [state[k] = v] made by application code. *)
Definition set_prop (fuel : nat) (k : string) (v : jsval) (st : rstate)
  : option rstate :=
  set_with (run fuel) k v st.
End Effects.

(** [createReactive(t)] with no effect running. *)
Definition init_state (t : obj) : rstate :=
  RState (fun k => obj_get t k) (fun _ => None) (fun _ => []) None [].

(** Every effect in a subscriber set has that set recorded in its [deps]. *)
Definition subs_inv (st : rstate) : Prop :=
  forall e k, In e (subs st k) -> In k (edeps st e).

Definition sets_nodup (st : rstate) : Prop :=
  forall k, NoDup (subs st k).

Definition runs_of (e : nat) (evs : list event) : nat :=
  List.length (filter (fun ev => match ev with Ran e' => Nat.eqb e e' | _ => false end) evs).

(** An effect reading [count]. *)
Definition count_fn (_ : nat) : cmd := Read "count" (fun _ => Done).

(** An effect reading [x] only when [flag] is truthy. *)
Definition cond_body : cmd :=
  Read "flag" (fun b => if truthy b then Read "x" (fun _ => Done) else Done).

Definition cond_fn (_ : nat) : cmd := cond_body.

(** [createReactive({flag: true, x: 0})]. *)
Definition cond_state0 : rstate := init_state [("flag", JBool true); ("x", JNum 0)].

(** The conditional effect registered, then [flag] stored falsy. *)
Definition cond_state1 : rstate :=
  match effect cond_fn 10 0 cond_state0 with Some s => s | None => cond_state0 end.

Definition cond_flag_off : rstate := put "flag" (JBool false) cond_state1.

(** The conditional effect re-run once with [flag] falsy. *)
Definition cond_rerun : rstate :=
  match run cond_fn 10 0 cond_flag_off with Some s => s | None => cond_flag_off end.

(** The state after one further write, when the write completes. *)
Definition after_write (fn_of : nat -> cmd) (k : string) (v : jsval) (st : rstate) : rstate :=
  match set_prop fn_of 10 k v st with Some s => s | None => st end.

(** [createReactive({count: 0})], then two effects reading [count]. *)
Definition count_state0 : rstate := init_state [("count", JNum 0)].

Definition count_state2 : rstate :=
  match obind (effect count_fn 10 0 count_state0) (effect count_fn 10 1) with
  | Some s => s
  | None => count_state0
  end.


(** ** The DOM tree the renderers build and patch

    Nodes live in a heap [nodes] indexed by node identity; [next] is the next
    fresh identity. A node is a [Text] node with its data or an [Element] with
    its [namespaceURI], its qualified name and its [elem] state; [d_parent] and
    [d_children] are [parentNode] and [childNodes]. The operations follow the
    DOM standard's insert and remove algorithms; its error cases return
    [None]. The hierarchy check that a node is not inserted into its own
    subtree is not modelled. *)

Definition XHTML_NS : string := "http://www.w3.org/1999/xhtml".

Inductive dkind : Type :=
| DText (data : string)
| DElement (ns : string) (tag : string) (e : elem).

Record dnode : Type := DNode {
  d_kind : dkind;
  d_parent : option nat;
  d_children : list nat
}.

Record dom : Type := Dom {
  nodes : nat -> option dnode;
  next : nat
}.

Definition set_node (d : dom) (i : nat) (n : dnode) : dom :=
  Dom (fun j => if Nat.eqb j i then Some n else nodes d j) (next d).

(** [document.createTextNode] / [document.createElement]: a fresh node. *)
Definition alloc (d : dom) (n : dnode) : dom * nat :=
  (Dom (fun j => if Nat.eqb j (next d) then Some n else nodes d j) (S (next d)),
   next d).

(** [node.childNodes]; only read on nodes that exist. *)
Definition childNodes (d : dom) (i : nat) : list nat :=
  match nodes d i with Some n => d_children n | None => [] end.

Definition remove_id (c : nat) (l : list nat) : list nat :=
  filter (fun x => negb (Nat.eqb x c)) l.

(** The DOM "remove" of [c] from its parent, when it has one. *)
Definition detach (d : dom) (c : nat) : dom :=
  match nodes d c with
  | Some nc =>
      match d_parent nc with
      | Some p =>
          let d1 := match nodes d p with
                    | Some np =>
                        set_node d p (DNode (d_kind np) (d_parent np)
                                            (remove_id c (d_children np)))
                    | None => d
                    end in
          set_node d1 c (DNode (d_kind nc) None (d_children nc))
      | None => d
      end
  | None => d
  end.

Fixpoint insert_before (c r : nat) (l : list nat) : list nat :=
  match l with
  | [] => []
  | x :: l' => if Nat.eqb x r then c :: x :: l' else x :: insert_before c r l'
  end.

Fixpoint next_sibling (l : list nat) (c : nat) : option nat :=
  match l with
  | [] => None
  | x :: l' => if Nat.eqb x c then hd_error l' else next_sibling l' c
  end.

Definition is_element (d : dom) (p : nat) : bool :=
  match nodes d p with
  | Some (DNode (DElement _ _ _) _ _) => true
  | _ => false
  end.

Definition node_exists (d : dom) (c : nat) : bool :=
  match nodes d c with Some _ => true | None => false end.

(** [c.parentNode === p] *)
Definition has_parent (d : dom) (c p : nat) : bool :=
  match nodes d c with
  | Some n => match d_parent n with Some q => Nat.eqb q p | None => false end
  | None => false
  end.

Definition opt_eqb (a b : option nat) : bool :=
  match a, b with
  | Some x, Some y => Nat.eqb x y
  | None, None => true
  | _, _ => false
  end.

(** The DOM "insert" of [c] into [p] before [ref] ([None]: at the end),
    after removing [c] from its old parent. *)
Definition insert_node (d : dom) (p c : nat) (ref : option nat) : dom :=
  let d1 := detach d c in
  match nodes d1 p, nodes d1 c with
  | Some np, Some nc =>
      let cs := match ref with
                | None => d_children np ++ [c]
                | Some r => insert_before c r (d_children np)
                end in
      set_node (set_node d1 p (DNode (d_kind np) (d_parent np) cs)) c
               (DNode (d_kind nc) (Some p) (d_children nc))
  | _, _ => d1
  end.

(** [p.insertBefore(c, ref)]: [p] must be an element and [ref] a child of
    [p]; a [ref] equal to [c] is replaced by [c]'s next sibling. *)
Definition insertBefore (d : dom) (p c : nat) (ref : option nat) : option dom :=
  if is_element d p && node_exists d c &&
     match ref with None => true | Some r => has_parent d r p end
  then
    let ref' := if opt_eqb ref (Some c) then next_sibling (childNodes d p) c
                else ref in
    Some (insert_node d p c ref')
  else None.

(** [p.appendChild(c)] *)
Definition appendChild (d : dom) (p c : nat) : option dom :=
  insertBefore d p c None.

(** [p.removeChild(c)] *)
Definition removeChild (d : dom) (p c : nat) : option dom :=
  if has_parent d c p then Some (detach d c) else None.

(** [p.replaceChild(nw, old)]: the reference child is [old]'s next sibling
    (or [nw]'s when that is [nw]); [nw] is removed from its parent, then
    [old], then [nw] is inserted. *)
Definition replaceChild (d : dom) (p nw old : nat) : option dom :=
  if is_element d p && node_exists d nw && has_parent d old p then
    let ref := next_sibling (childNodes d p) old in
    let ref' := if opt_eqb ref (Some nw) then next_sibling (childNodes d p) nw
                else ref in
    Some (insert_node (detach (detach d nw) old) p nw ref')
  else None.

(** [String(text)] for [createTextNode]. *)
Definition js_String (t : option string) : string :=
  match t with Some s => s | None => "undefined" end.

(** [node.textContent = t]: [undefined] and [null] are the empty string; on
    an element all children are removed and a text node is added when the
    string is not empty. *)
Definition set_textContent (d : dom) (i : nat) (t : option string) : option dom :=
  let s := match t with Some s => s | None => "" end in
  match nodes d i with
  | Some (DNode (DText _) p cs) => Some (set_node d i (DNode (DText s) p cs))
  | Some (DNode (DElement _ _ _) _ cs) =>
      let d1 := fold_left detach cs d in
      if String.eqb s "" then Some d1
      else let '(d2, tn) := alloc d1 (DNode (DText s) None []) in
           appendChild d2 i tn
  | None => None
  end.

(** The property writes of [setProp]/[removeProp] on an element, given its
    namespace and qualified name; they fail when a write throws, and on any
    other node. *)
Definition update_elem (d : dom) (i : nat) (f : string -> string -> elem -> option elem)
  : option dom :=
  match nodes d i with
  | Some (DNode (DElement ns tg e) p cs) =>
      obind (f ns tg e) (fun e' => Some (set_node d i (DNode (DElement ns tg e') p cs)))
  | _ => None
  end.

(** A freshly created element: no attributes, empty [className], no
    listeners and no [eventHandlers] entry. *)
Definition new_elem : elem := Elem [] (JStr "") JUndef [] [] [].

(** [arr[j] = x] on a JavaScript array with holes ([None]). *)
Fixpoint list_set {A : Type} (l : list A) (j : nat) (x : A) : list A :=
  match l, j with
  | [], _ => []
  | _ :: l', 0 => x :: l'
  | y :: l', S j' => y :: list_set l' j' x
  end.

Definition array_set {A : Type} (l : list (option A)) (j : nat) (x : A)
  : list (option A) :=
  if Nat.ltb j (List.length l) then list_set l j (Some x)
  else l ++ repeat None (j - List.length l) ++ [Some x].

(** The result of [patch]: the new DOM and the returned node ([None] for
    [null]/[undefined]). *)
Definition presult := option (dom * option nat).

(** ** [src/src/render.js] *)
Module Render.
Section Host.
Context `{dom_host}.

(** [createElement(vnode)]: [document.createElement(type)] checks the name,
    then makes an HTML element whose local name is [type] in ASCII lower
    case (the document is an HTML document). *)
Fixpoint createElement (v : vnode) (d : dom) {struct v} : option (dom * nat) :=
  if String.eqb (vtype v) "TEXT" then
    Some (alloc d (DNode (DText (js_String (text v))) None []))
  else if negb (element_name_ok None (vtype v)) then None
  else
    let '(d1, el) := alloc d (DNode (DElement XHTML_NS (to_lower (vtype v)) new_elem) None []) in
    (* [vnode.children.forEach(child => el.appendChild(createElement(child)))] *)
    let fix appendAll (el : nat) (cs : list vnode) (d : dom) {struct cs} : option dom :=
      match cs with
      | [] => Some d
      | c :: cs' =>
          obind (createElement c d) (fun '(d2, ce) =>
          obind (appendChild d2 el ce) (appendAll el cs'))
      end in
    obind (update_elem d1 el (fun ns tg e => setProps_host ns tg e (props v))) (fun d2 =>
    obind (appendAll el (children v) d2) (fun d3 => Some (d3, el))).

(** The child loop of [createElement] as a function of its own. *)
Fixpoint appendAll (el : nat) (cs : list vnode) (d : dom) : option dom :=
  match cs with
  | [] => Some d
  | c :: cs' =>
      obind (createElement c d) (fun '(d2, ce) =>
      obind (appendChild d2 el ce) (appendAll el cs'))
  end.

Section WithPatch.
(** The recursive call [patch(parent, el, oldVNode, newVNode)]. *)
Variable patch_rec : nat -> option nat -> option vnode -> option vnode -> dom -> presult.

(** [childPatches.patches.forEach((_, i) => patch(el, childNodes[i],
    oldVNode.children[i], newVNode.children[i]))] *)
Fixpoint positional_patch (el : nat) (cns : list nat) (o n : vnode) (i : nat)
  (ps : list (option patch)) (d : dom) : option dom :=
  match ps with
  | [] => Some d
  | _ :: ps' =>
      obind (patch_rec el (nth_error cns i) (nth_error (children o) i)
                       (nth_error (children n) i) d) (fun '(d1, _) =>
      positional_patch el cns o n (S i) ps' d1)
  end.

(** The first [childPatches.patches.forEach] of [patchKeyedChildren]. *)
Fixpoint keyed_collect (parent : nat) (oldDom : list nat) (o n : vnode)
  (es : list keyedPatch) (d : dom) (ne : list (option (option nat)))
  : option (dom * list (option (option nat))) :=
  match es with
  | [] => Some (d, ne)
  | KP oi ni _ p :: es' =>
      match ni with
      | None => keyed_collect parent oldDom o n es' d ne
      | Some j =>
          match oi with
          | Some i =>
              obind (patch_rec parent (nth_error oldDom i) (nth_error (children o) i)
                               (nth_error (children n) j) d) (fun '(d1, r) =>
              keyed_collect parent oldDom o n es' d1 (array_set ne j r))
          | None =>
              match p with
              | Some (CREATE (Some v)) | Some (REPLACE v) =>
                  obind (createElement v d) (fun '(d1, c) =>
                  keyed_collect parent oldDom o n es' d1 (array_set ne j (Some c)))
              | _ => None
              end
          end
      end
  end.
End WithPatch.

(** [newElements.forEach((el, i) => { if (parent.childNodes[i] !== el)
    parent.insertBefore(el, parent.childNodes[i] || null); })]; holes are
    skipped, a [null] entry makes [insertBefore] throw. *)
Fixpoint keyed_place (parent : nat) (i : nat) (ne : list (option (option nat)))
  (d : dom) : option dom :=
  match ne with
  | [] => Some d
  | None :: ne' => keyed_place parent (S i) ne' d
  | Some None :: _ => None
  | Some (Some x) :: ne' =>
      let cur := nth_error (childNodes d parent) i in
      if opt_eqb cur (Some x) then keyed_place parent (S i) ne' d
      else obind (insertBefore d parent x cur) (keyed_place parent (S i) ne')
  end.

(** [while (parent.childNodes.length > len) parent.removeChild(parent.lastChild)],
    run with at most [fuel] iterations. *)
Fixpoint keyed_trim (fuel : nat) (parent : nat) (len : nat) (d : dom) : option dom :=
  if Nat.ltb len (List.length (childNodes d parent)) then
    match fuel with
    | 0 => None
    | S f =>
        match last (map Some (childNodes d parent)) None with
        | Some c => obind (removeChild d parent c) (keyed_trim f parent len)
        | None => None
        end
    end
  else Some d.

(** [patchKeyedChildren(parent, childPatches, oldVNode, newVNode)] *)
Definition patchKeyedChildren (patch_rec : nat -> option nat -> option vnode ->
                                           option vnode -> dom -> presult)
  (parent : nat) (es : list keyedPatch) (o n : vnode) (d : dom) : option dom :=
  let oldDomChildren := childNodes d parent in
  obind (keyed_collect patch_rec parent oldDomChildren o n es d []) (fun '(d1, ne) =>
  obind (keyed_place parent 0 ne d1) (fun d2 =>
  keyed_trim (List.length (childNodes d2 parent)) parent (List.length ne) d2)).

(** [patch(parent, el, oldVNode, newVNode)]; [fuel] bounds the nesting of
    the recursive calls. *)
Fixpoint patch (fuel : nat) (parent : nat) (el : option nat) (oldV newV : option vnode)
  (d : dom) {struct fuel} : presult :=
  match fuel with
  | 0 => None
  | S f =>
      match diff oldV newV with
      | None => Some (d, el)
      | Some (CREATE v) =>
          match v with
          | Some v =>
              obind (createElement v d) (fun '(d1, ne) =>
              obind (appendChild d1 parent ne) (fun d2 => Some (d2, Some ne)))
          | None => None
          end
      | Some REMOVE =>
          match el with
          | Some e => obind (removeChild d parent e) (fun d1 => Some (d1, None))
          | None => None
          end
      | Some (REPLACE v) =>
          obind (createElement v d) (fun '(d1, ne) =>
          match el with
          | Some e => obind (replaceChild d1 parent ne e) (fun d2 => Some (d2, Some ne))
          | None => None
          end)
      | Some (TEXT t) =>
          match el with
          | Some e => obind (set_textContent d e t) (fun d1 => Some (d1, el))
          | None => None
          end
      | Some (UPDATE pps cp) =>
          match el, oldV, newV with
          | Some e, Some o, Some n =>
              obind (update_elem d e (fun ns tg x => applyPropPatches_host ns tg x pps)) (fun d1 =>
              match cp with
              | Keyed es =>
                  obind (patchKeyedChildren (patch f) e es o n d1)
                        (fun d2 => Some (d2, el))
              | Positional ps =>
                  obind (positional_patch (patch f) e (childNodes d1 e) o n 0 ps d1)
                        (fun d2 => Some (d2, el))
              end)
          | _, _, _ => None
          end
      end
  end.

End Host.
End Render.

(** ** [src/unnamed/part_005]: the namespace-aware renderer *)

Definition MATHML_NS : string := "http://www.w3.org/1998/Math/MathML".

Definition ascii_upper (c : Ascii.ascii) : Ascii.ascii :=
  let n := Ascii.nat_of_ascii c in
  if Nat.leb 97 n && Nat.leb n 122 then Ascii.ascii_of_nat (n - 32) else c.

Fixpoint to_upper (s : string) : string :=
  match s with
  | EmptyString => EmptyString
  | String c s' => String (ascii_upper c) (to_upper s')
  end.

(** [el.namespaceURI] of an element; [None] for other nodes. *)
Definition namespaceURI (d : dom) (i : nat) : option string :=
  match nodes d i with
  | Some (DNode (DElement ns _ _) _ _) => Some ns
  | _ => None
  end.

(** [el.tagName]: the qualified name, upper-cased for HTML elements of an
    HTML document. *)
Definition tagName (d : dom) (i : nat) : string :=
  match nodes d i with
  | Some (DNode (DElement ns tg _) _ _) => if String.eqb ns XHTML_NS then to_upper tg else tg
  | _ => ""
  end.

Definition ns_eqb (a : option string) (s : string) : bool :=
  match a with Some x => String.eqb x s | None => false end.

Module RenderNS.
Section Host.
Context `{dom_host}.

Definition getNamespace (type : string) (parentNs : option string) : option string :=
  if String.eqb type "svg" then Some SVG_NS
  else if String.eqb type "math" then Some MATHML_NS
  else parentNs.

Definition getChildNamespace (type : string) (elementNs : option string) : option string :=
  if String.eqb type "foreignObject" then None else elementNs.

(** [createElement(vnode, ns)]: [document.createElementNS(elementNs, type)]
    when [elementNs] is set (an element of that namespace whose qualified
    name is [type]), [document.createElement(type)] otherwise (an HTML
    element, its name in ASCII lower case); both check the name first. *)
Definition create_node (type : string) (elementNs : option string) : option dkind :=
  match elementNs with
  | Some s => if element_name_ok (Some s) type then Some (DElement s type new_elem) else None
  | None => if element_name_ok None type then Some (DElement XHTML_NS (to_lower type) new_elem)
            else None
  end.

Fixpoint createElement (v : vnode) (ns : option string) (d : dom) {struct v}
  : option (dom * nat) :=
  if String.eqb (vtype v) "TEXT" then
    Some (alloc d (DNode (DText (js_String (text v))) None []))
  else
    let elementNs := getNamespace (vtype v) ns in
    obind (create_node (vtype v) elementNs) (fun k =>
    let '(d1, el) := alloc d (DNode k None []) in
    let childNs := getChildNamespace (vtype v) elementNs in
    let fix appendAll (el : nat) (cs : list vnode) (d : dom) {struct cs} : option dom :=
      match cs with
      | [] => Some d
      | c :: cs' =>
          obind (createElement c childNs d) (fun '(d2, ce) =>
          obind (appendChild d2 el ce) (appendAll el cs'))
      end in
    obind (update_elem d1 el (fun ens tg e => setProps_ns_host ens tg e (props v) elementNs)) (fun d2 =>
    obind (appendAll el (children v) d2) (fun d3 => Some (d3, el)))).

(** The child loop of [createElement] as a function of its own. *)
Definition appendAll (childNs : option string) : nat -> list vnode -> dom -> option dom :=
  fix appendAll (el : nat) (cs : list vnode) (d : dom) {struct cs} : option dom :=
    match cs with
    | [] => Some d
    | c :: cs' =>
        obind (createElement c childNs d) (fun '(d2, ce) =>
        obind (appendChild d2 el ce) (appendAll el cs'))
    end.

(** [childNs] of [patch] and [patchKeyedChildren], read off [parent]. *)
Definition parentChildNs (d : dom) (parent : nat) : option string :=
  let parentNs := namespaceURI d parent in
  if ns_eqb parentNs SVG_NS || ns_eqb parentNs MATHML_NS
  then getChildNamespace (to_lower (tagName d parent)) parentNs
  else None.

Section WithPatch.
Variable patch_rec : nat -> option nat -> option vnode -> option vnode -> dom -> presult.

(** The first [childPatches.patches.forEach] of [patchKeyedChildren]. *)
Fixpoint keyed_collect (childNs : option string) (parent : nat) (oldDom : list nat)
  (o n : vnode) (es : list keyedPatch) (d : dom) (ne : list (option (option nat)))
  : option (dom * list (option (option nat))) :=
  match es with
  | [] => Some (d, ne)
  | KP oi ni _ p :: es' =>
      match ni with
      | None => keyed_collect childNs parent oldDom o n es' d ne
      | Some j =>
          match oi with
          | Some i =>
              obind (patch_rec parent (nth_error oldDom i) (nth_error (children o) i)
                               (nth_error (children n) j) d) (fun '(d1, r) =>
              keyed_collect childNs parent oldDom o n es' d1 (array_set ne j r))
          | None =>
              match p with
              | Some (CREATE (Some v)) | Some (REPLACE v) =>
                  obind (createElement v childNs d) (fun '(d1, c) =>
                  keyed_collect childNs parent oldDom o n es' d1 (array_set ne j (Some c)))
              | _ => None
              end
          end
      end
  end.
End WithPatch.

Definition patchKeyedChildren (patch_rec : nat -> option nat -> option vnode ->
                                           option vnode -> dom -> presult)
  (parent : nat) (es : list keyedPatch) (o n : vnode) (d : dom) : option dom :=
  let oldDomChildren := childNodes d parent in
  let childNs := parentChildNs d parent in
  obind (keyed_collect patch_rec childNs parent oldDomChildren o n es d []) (fun '(d1, ne) =>
  obind (Render.keyed_place parent 0 ne d1) (fun d2 =>
  Render.keyed_trim (List.length (childNodes d2 parent)) parent (List.length ne) d2)).

(** [patch(parent, el, oldVNode, newVNode)]; [fuel] bounds the nesting of
    the recursive calls. *)
Fixpoint patch (fuel : nat) (parent : nat) (el : option nat) (oldV newV : option vnode)
  (d : dom) {struct fuel} : presult :=
  match fuel with
  | 0 => None
  | S f =>
      match diff oldV newV with
      | None => Some (d, el)
      | Some pt =>
          let childNs := parentChildNs d parent in
          match pt with
          | CREATE v =>
              match v with
              | Some v =>
                  obind (createElement v childNs d) (fun '(d1, ne) =>
                  obind (appendChild d1 parent ne) (fun d2 => Some (d2, Some ne)))
              | None => None
              end
          | REMOVE =>
              match el with
              | Some e => obind (removeChild d parent e) (fun d1 => Some (d1, None))
              | None => None
              end
          | REPLACE v =>
              obind (createElement v childNs d) (fun '(d1, ne) =>
              match el with
              | Some e => obind (replaceChild d1 parent ne e) (fun d2 => Some (d2, Some ne))
              | None => None
              end)
          | TEXT t =>
              match el with
              | Some e => obind (set_textContent d e t) (fun d1 => Some (d1, el))
              | None => None
              end
          | UPDATE pps cp =>
              match el, oldV, newV with
              | Some e, Some o, Some n =>
                  let elNs := if ns_eqb (namespaceURI d e) SVG_NS || ns_eqb (namespaceURI d e) MATHML_NS
                              then namespaceURI d e else None in
                  obind (update_elem d e (fun ens tg x => applyPropPatches_ns_host ens tg x pps elNs)) (fun d1 =>
                  match cp with
                  | Keyed es =>
                      obind (patchKeyedChildren (patch f) e es o n d1)
                            (fun d2 => Some (d2, el))
                  | Positional ps =>
                      obind (Render.positional_patch (patch f) e (childNodes d1 e) o n 0 ps d1)
                            (fun d2 => Some (d2, el))
                  end)
              | _, _, _ => None
              end
          end
      end
  end.

End Host.
End RenderNS.


(** Reading a DOM subtree back as a tree of tags and texts. *)
Inductive dtree : Type :=
| TText (s : string)
| TElem (tag : string) (cs : list dtree).

Fixpoint read_list (r : nat -> option dtree) (l : list nat) : option (list dtree) :=
  match l with
  | [] => Some []
  | c :: l' => obind (r c) (fun t => obind (read_list r l') (fun ts => Some (t :: ts)))
  end.

Fixpoint read_dom (fuel : nat) (d : dom) (i : nat) : option dtree :=
  match fuel with
  | 0 => None
  | S f =>
      match nodes d i with
      | Some (DNode (DText s) _ _) => Some (TText s)
      | Some (DNode (DElement _ tg _) _ cs) =>
          obind (read_list (read_dom f d) cs) (fun ts => Some (TElem tg ts))
      | None => None
      end
  end.

(** The tree [render.js] renders a vnode to: texts as [String(text)],
    elements by their type in ASCII lower case. *)
Fixpoint vshape (v : vnode) : dtree :=
  if String.eqb (vtype v) "TEXT" then TText (js_String (text v))
  else TElem (to_lower (vtype v)) (map vshape (children v)).

(** [mount(rootComponent, container)] of [src/unnamed/part_004]: the state of
    the [update] closure ([vnode], [domNode]) and one run of [update] with
    [newVNode = rootComponent()]. *)
Section Mount.
Context `{dom_host}.


End Mount.

Definition host_dom : dom :=
  Dom (fun j => if Nat.eqb j 0 then Some (DNode (DElement XHTML_NS "div" new_elem) None []) else None) 1.

Definition list_view (ks : list string) : vnode :=
  h "ul" [] (map (fun k => HNode (h "li" [("key", JStr k)] [HText k])) ks).

Definition para_dom : dom :=
  Dom (fun j => match j with
                | 0 => Some (DNode (DElement XHTML_NS "div" new_elem) None [1])
                | 1 => Some (DNode (DElement XHTML_NS "p" new_elem) (Some 0) [2])
                | 2 => Some (DNode (DText "a") (Some 1) [])
                | _ => None
                end) 3.



(** A vnode tree with no [svg] or [math] element and no [xlinkHref] or
    [xlink:href] prop. *)
Fixpoint html_only (v : vnode) : bool :=
  negb (String.eqb (vtype v) "svg") && negb (String.eqb (vtype v) "math") &&
  forallb (fun kv => negb (String.eqb (fst kv) "xlinkHref" || String.eqb (fst kv) "xlink:href"))
    (props v) &&
  (fix all (l : list vnode) : bool :=
     match l with [] => true | c :: l' => html_only c && all l' end) (children v).

Section Renders.
Context `{dom_host}.

(** [createElement(v)] of [render.js] returns: every element's type passes
    the name check of [document.createElement], and its props can be set on
    the fresh element. *)
Fixpoint creatable (v : vnode) : bool :=
  String.eqb (vtype v) "TEXT" ||
  (element_name_ok None (vtype v) &&
   match setProps_host XHTML_NS (to_lower (vtype v)) new_elem (props v) with
   | Some _ => true
   | None => false
   end &&
   (fix all (l : list vnode) : bool :=
      match l with [] => true | c :: l' => creatable c && all l' end) (children v)).

(** What [patch(parent, el, o, v)] needs of the host, whatever element of
    the same type it updates: every element's type passes the name check of
    [document.createElement]; on any element of that type, of any namespace,
    whose registered handlers are convertible, every prop of [v] can be set
    and [className] can be cleared. *)
Fixpoint renderable (v : vnode) : Prop :=
  if String.eqb (vtype v) "TEXT" then True
  else element_name_ok None (vtype v) = true /\
       (forall ns e, elem_ok e = true ->
          forallb (fun kv => setProp_ok ns (to_lower (vtype v)) e (fst kv) (snd kv)) (props v) = true /\
          write_ok ns (to_lower (vtype v)) e (WClassName (JStr "")) = true) /\
       (fix all (l : list vnode) : Prop :=
          match l with [] => True | c :: l' => renderable c /\ all l' end) (children v).

End Renders.

(** A host on which element and attribute names are the non-empty words of
    ASCII letters, digits and [-], and every write returns. *)
Definition name_char (c : Ascii.ascii) : bool :=
  let n := Ascii.nat_of_ascii c in
  (Nat.leb 48 n && Nat.leb n 57) || (Nat.leb 65 n && Nat.leb n 90) ||
  (Nat.leb 97 n && Nat.leb n 122) || Nat.eqb n 45.

Definition valid_name (s : string) : bool :=
  negb (String.eqb s "") && forallb name_char (String.list_ascii_of_string s).

Definition example_host : dom_host := {|
  element_name_ok := fun _ n => valid_name n;
  attribute_name_ok := valid_name;
  write_ok := fun _ _ _ _ => true
|}.

(** ** Lemmas about the differ *)

Lemma diff_node_unfold (o n : vnode) :
  diff_node o n =
  if negb (String.eqb (vtype o) (vtype n)) then Some (REPLACE n)
  else if String.eqb (vtype o) "TEXT" then
    (if match text o, text n with
        | Some a, Some b => negb (String.eqb a b)
        | None, None => false
        | _, _ => true
        end
     then Some (TEXT (text n)) else None)
  else
    let propPatches := diffProps (props o) (props n) in
    let childPatches := diffChildren (children o) (children n) in
    if orb (Nat.ltb 0 (List.length propPatches))
           (Nat.ltb 0 (cp_patches_length childPatches))
    then Some (UPDATE propPatches childPatches)
    else None.
Proof. destruct n; reflexivity. Qed.

Lemma seq_S_map {B : Type} (f : nat -> B) (s len : nat) :
  map f (seq (S s) len) = map (fun i => f (S i)) (seq s len).
Proof. rewrite <- seq_shift, map_map. reflexivity. Qed.

(** The structural [positional] is the JavaScript index loop
    [for (i = 0; i < max(old.length, new.length); i++) diff(old[i], new[i])]. *)
Lemma positional_index (ns os : list vnode) :
  positional os ns =
  map (fun i => diff (nth_error os i) (nth_error ns i))
      (seq 0 (Nat.max (List.length os) (List.length ns))).
Proof.
  revert os; induction ns as [|c ns IH]; intros os.
  - simpl. rewrite Nat.max_0_r.
    induction os as [|oc os IHo]; [reflexivity|].
    simpl. f_equal. rewrite seq_S_map, IHo.
    apply map_ext; intros [|i]; reflexivity.
  - destruct os as [|oc os]; simpl; f_equal; rewrite seq_S_map, IH;
      simpl; apply map_ext; intros [|i]; reflexivity.
Qed.

Lemma filter_length_le {A : Type} (p : A -> bool) (l : list A) :
  List.length (filter p l) <= List.length l.
Proof.
  induction l as [|x l IH]; simpl; [lia|]. destruct (p x); simpl; lia.
Qed.

Lemma keyedCount_not_all (news : list vnode) :
  existsb (fun c => negb (not_nullish (vkey c))) news = true ->
  keyedCount news <> List.length news.
Proof.
  unfold keyedCount. induction news as [|c news IH]; simpl; [discriminate|].
  pose proof (filter_length_le (fun c => not_nullish (vkey c)) news) as Hle.
  destruct (not_nullish (vkey c)); simpl.
  - intros H Heq. apply IH; [exact H | lia].
  - intros _ Heq. lia.
Qed.

Lemma in_diffProps (o n : obj) (pt : propPatch) :
  In pt (diffProps o n) <->
  (exists k v, pt = SET_PROP k v /\ In (k, v) n /\ strict_eq (js_get o k) v = false)
  \/ (exists k v, pt = REMOVE_PROP k /\ In (k, v) o /\ js_in n k = false).
Proof.
  unfold diffProps. rewrite in_app_iff, !in_flat_map. split.
  - intros [[[k v] [Hin Hp]] | [[k v] [Hin Hp]]].
    + left. exists k, v.
      destruct (strict_eq (js_get o k) v) eqn:E; simpl in Hp; [contradiction|].
      destruct Hp as [Hp|[]]. auto.
    + right. exists k, v.
      destruct (js_in n k) eqn:E; simpl in Hp; [contradiction|].
      destruct Hp as [Hp|[]]. auto.
  - intros [[k [v [-> [Hin E]]]] | [k [v [-> [Hin E]]]]].
    + left. exists (k, v). split; [exact Hin|]. rewrite E. simpl. auto.
    + right. exists (k, v). split; [exact Hin|]. rewrite E. simpl. auto.
Qed.

(** ** Claims about the differ *)

(** C1 (code_bug evidence): an element with one unchanged text child diffed
    against itself does not yield the no-op patch [null]: the positional child
    list [[null]] has length 1, so [diff] returns [UPDATE([], [null])]. *)
Theorem diff_self_not_noop :
  let n := h "li" [] [HText "x"] in
  diff (Some n) (Some n) = Some (UPDATE [] (Positional [None])).
Proof. reflexivity. Qed.

(** C5: when some new child has no [key] (zero or partial keys),
    [diffChildren] is the positional comparison
    [[diff(old[i], new[i]) for i < max(|old|, |new|)]]; on the text lists
    ['B','C','D'] -> ['A','B','C','D'] it reports four patches:
    three text updates and one creation of 'D'. *)
Theorem diffChildren_positional (olds news : list vnode) :
  existsb (fun c => negb (not_nullish (vkey c))) news = true ->
  diffChildren olds news =
  Positional (map (fun i => diff (nth_error olds i) (nth_error news i))
                  (seq 0 (Nat.max (List.length olds) (List.length news))))
  /\ diffChildren (map createTextVNode ["B"; "C"; "D"])
                  (map createTextVNode ["A"; "B"; "C"; "D"])
     = Positional [Some (TEXT (Some "A")); Some (TEXT (Some "B"));
                   Some (TEXT (Some "C"));
                   Some (CREATE (Some (createTextVNode "D")))].
Proof.
  intros H. split; [|reflexivity].
  unfold diffChildren.
  apply keyedCount_not_all, Nat.eqb_neq in H. rewrite H. simpl.
  f_equal. apply positional_index.
Qed.

Lemma diffChildren_positional_witness :
  existsb (fun c => negb (not_nullish (vkey c))) [createTextVNode "A"] = true
  /\ diffChildren [] [createTextVNode "A"] =
     Positional (map (fun i => diff (nth_error [] i) (nth_error [createTextVNode "A"] i))
                     (seq 0 (Nat.max 0 1)))
  /\ diffChildren (map createTextVNode ["B"; "C"; "D"])
                  (map createTextVNode ["A"; "B"; "C"; "D"])
     = Positional [Some (TEXT (Some "A")); Some (TEXT (Some "B"));
                   Some (TEXT (Some "C"));
                   Some (CREATE (Some (createTextVNode "D")))].
Proof.
  split; [reflexivity|].
  apply (diffChildren_positional [] [createTextVNode "A"]). reflexivity.
Defined.



(** C7: for two present nodes of different kinds (TEXT against an element
    included), [diff] is [REPLACE] of the new node. *)
Theorem diff_kind_mismatch_replace (n1 n2 : vnode) :
  vtype n1 <> vtype n2 -> diff (Some n1) (Some n2) = Some (REPLACE n2).
Proof.
  intros H. simpl. rewrite diff_node_unfold.
  apply String.eqb_neq in H. rewrite H. reflexivity.
Qed.

Lemma diff_kind_mismatch_replace_witness :
  vtype (createTextVNode "a") <> vtype (h "div" [] [])
  /\ diff (Some (createTextVNode "a")) (Some (h "div" [] []))
     = Some (REPLACE (h "div" [] [])).
Proof.
  split; [discriminate|].
  apply diff_kind_mismatch_replace. discriminate.
Defined.

(** C9: [diff] is a function of its two arguments, so re-diffing at apply
    time gives back the stored patch: when [diff(o, n)] is an [UPDATE] with a
    positional child list, the patches recomputed for each child index are
    exactly the entries of that list. *)
Theorem diff_positional_rediff (o n : vnode) pp ps :
  diff (Some o) (Some n) = Some (UPDATE pp (Positional ps)) ->
  rediffed_child_patches o n ps = ps.
Proof.
  simpl. rewrite diff_node_unfold.
  destruct (negb (String.eqb (vtype o) (vtype n))); [discriminate|].
  destruct (String.eqb (vtype o) "TEXT").
  { destruct (match text o, text n with
              | Some a, Some b => negb (String.eqb a b)
              | None, None => false | _, _ => true end); discriminate. }
  cbv zeta.
  destruct (orb _ _); [|discriminate].
  intros Heq. injection Heq as _ Hcp.
  unfold diffChildren in Hcp.
  destruct (negb (Nat.eqb (keyedCount (children n)) (List.length (children n)))).
  2:{ destruct (keyedLoop _ _ _ _); discriminate. }
  injection Hcp as <-. unfold rediffed_child_patches.
  rewrite positional_index, length_map, length_seq. reflexivity.
Qed.

Lemma diff_positional_rediff_witness :
  let o := h "ul" [] [HText "a"; HText "b"] in
  let n := h "ul" [] [HText "a"; HText "c"; HText "d"] in
  diff (Some o) (Some n)
  = Some (UPDATE [] (Positional [None; Some (TEXT (Some "c"));
                                 Some (CREATE (Some (createTextVNode "d")))]))
  /\ rediffed_child_patches o n
       [None; Some (TEXT (Some "c")); Some (CREATE (Some (createTextVNode "d")))]
     = [None; Some (TEXT (Some "c")); Some (CREATE (Some (createTextVNode "d")))].
Proof.
  cbv zeta. split; [reflexivity|].
  apply diff_positional_rediff with (pp := []). reflexivity.
Defined.

(** ** The keyed reconciler against its description *)

Lemma strict_eq_refl_sym (a b : jsval) : strict_eq a b = strict_eq b a.
Proof.
  destruct a, b; simpl; try reflexivity.
  - destruct b, b0; reflexivity.
  - apply Z.eqb_sym.
  - apply String.eqb_sym.
  - apply Nat.eqb_sym.
  - apply Nat.eqb_sym.
  - apply String.eqb_sym.
Qed.

Lemma svz_refl (a : jsval) : same_value_zero a a = true.
Proof.
  destruct a; simpl; try reflexivity.
  - destruct b; reflexivity.
  - apply Z.eqb_refl.
  - apply String.eqb_refl.
  - apply Nat.eqb_refl.
  - apply Nat.eqb_refl.
  - apply String.eqb_refl.
Qed.

Lemma svz_sym (a b : jsval) : same_value_zero a b = same_value_zero b a.
Proof. destruct a, b; try reflexivity; apply strict_eq_refl_sym. Qed.

Lemma svz_eq (a b : jsval) : same_value_zero a b = true -> a = b.
Proof.
  destruct a, b; simpl; try discriminate; try reflexivity; intros H.
  - apply Bool.eqb_prop in H. now subst.
  - apply Z.eqb_eq in H. now subst.
  - apply String.eqb_eq in H. now subst.
  - apply Nat.eqb_eq in H. now subst.
  - apply Nat.eqb_eq in H. now subst.
  - apply String.eqb_eq in H. now subst.
Qed.

Lemma svz_trans (a b c : jsval) :
  same_value_zero a b = true -> same_value_zero a c = same_value_zero b c.
Proof. intros H. apply svz_eq in H. now subst. Qed.

Lemma map_get_set (m : keyMap) (k k' : jsval) (e : vnode * nat) :
  map_get (map_set m k' e) k =
  if same_value_zero k k' then Some e else map_get m k.
Proof.
  induction m as [|[k'' e''] m IH]; simpl.
  - destruct (same_value_zero k k'); reflexivity.
  - destruct (same_value_zero k' k'') eqn:E1; simpl.
    + rewrite svz_sym in E1.
      destruct (same_value_zero k k') eqn:E2.
      * rewrite (svz_trans k k' k'') by exact E2. rewrite svz_sym, E1. reflexivity.
      * destruct (same_value_zero k k'') eqn:E3; [|reflexivity].
        rewrite (svz_trans k k'' k') in E2 by exact E3.
        rewrite E1 in E2. discriminate.
    + rewrite IH. destruct (same_value_zero k k') eqn:E2.
      * rewrite (svz_trans k k' k'') by exact E2. rewrite E1. reflexivity.
      * reflexivity.
Qed.

Lemma map_get_build (olds : list vnode) (m : keyMap) (i : nat) (k : jsval) :
  not_nullish k = true ->
  map_get (build_keymap m i olds) k =
  match last_with_key i olds k with
  | Some e => Some e
  | None => map_get m k
  end.
Proof.
  intros Hk. revert m i; induction olds as [|c olds IH]; intros m i; simpl;
    [reflexivity|].
  rewrite IH. destruct (last_with_key (S i) olds k) as [e|]; [reflexivity|].
  destruct (not_nullish (vkey c)) eqn:Hc.
  - rewrite map_get_set, svz_sym. destruct (same_value_zero (vkey c) k); reflexivity.
  - assert (same_value_zero (vkey c) k = false) as ->; [|reflexivity].
    destruct (vkey c), k; simpl in *; congruence.
Qed.

Lemma keyedLoop_spec (olds news : list vnode) (used : list nat) (j : nat) :
  forallb (fun c => not_nullish (vkey c)) news = true ->
  keyedLoop (build_keymap [] 0 olds) used j news =
  (keyed_spec_entries olds j news, used ++ matched_indices olds news).
Proof.
  revert used j; induction news as [|c news IH]; intros used j Hall; simpl.
  { rewrite app_nil_r. reflexivity. }
  apply andb_prop in Hall. destruct Hall as [Hc Hall].
  rewrite Hc, map_get_build by exact Hc. simpl.
  unfold keyed_spec_entry.
  destruct (last_with_key 0 olds (vkey c)) as [[oc i]|].
  - rewrite IH by exact Hall. rewrite <- app_assoc. reflexivity.
  - rewrite IH by exact Hall. reflexivity.
Qed.

Lemma removals_spec (used : list nat) (olds : list vnode) (s : nat) :
  removals used s olds =
  map (fun ic => KP (Some (fst ic)) None (vkey (snd ic)) (Some REMOVE))
      (filter (fun ic => negb (existsb (Nat.eqb (fst ic)) used))
              (combine (seq s (List.length olds)) olds)).
Proof.
  revert s; induction olds as [|c olds IH]; intros s; simpl; [reflexivity|].
  rewrite IH. destruct (existsb (Nat.eqb s) used); reflexivity.
Qed.

Lemma keyedCount_all (news : list vnode) :
  forallb (fun c => not_nullish (vkey c)) news = true ->
  keyedCount news = List.length news.
Proof.
  unfold keyedCount. intros H. f_equal. apply forallb_filter_id. exact H.
Qed.

Lemma last_with_key_some (olds : list vnode) (i : nat) (k : jsval) oc j :
  last_with_key i olds k = Some (oc, j) ->
  i <= j /\ nth_error olds (j - i) = Some oc /\ same_value_zero (vkey oc) k = true
  /\ (forall j' oc', j < j' -> nth_error olds (j' - i) = Some oc' ->
                     same_value_zero (vkey oc') k = false).
Proof.
  revert i; induction olds as [|c olds IH]; intros i; simpl; [discriminate|].
  destruct (last_with_key (S i) olds k) as [[oc1 j1]|] eqn:Hl.
  - intros Heq. injection Heq as -> ->.
    destruct (IH (S i) Hl) as [Hle [Hn [Hk Hlast]]].
    split; [lia|]. split.
    { replace (j - i) with (S (j - S i)) by lia. exact Hn. }
    split; [exact Hk|].
    intros j' oc' Hlt Hn'. apply (Hlast j' oc' Hlt).
    replace (j' - i) with (S (j' - S i)) in Hn' by lia. exact Hn'.
  - destruct (same_value_zero (vkey c) k) eqn:Hc; [|discriminate].
    intros Heq. injection Heq as -> ->.
    split; [lia|]. rewrite Nat.sub_diag. split; [reflexivity|]. split; [exact Hc|].
    intros j' oc' Hlt Hn'.
    replace (j' - j) with (S (j' - S j)) in Hn' by lia. simpl in Hn'.
    assert (forall s l, last_with_key s l k = None -> forall n x,
              nth_error l n = Some x -> same_value_zero (vkey x) k = false) as Hnone.
    { clear. intros s l; revert s; induction l as [|y l IHl]; intros s Hs n x Hx.
      - destruct n; discriminate.
      - simpl in Hs. destruct (last_with_key (S s) l k) eqn:E; [discriminate|].
        destruct n as [|n].
        + injection Hx as <-. destruct (same_value_zero (vkey y) k); congruence.
        + exact (IHl (S s) E n x Hx). }
    exact (Hnone _ _ Hl _ _ Hn').
Qed.

Lemma last_with_key_none (olds : list vnode) (i : nat) (k : jsval) :
  last_with_key i olds k = None ->
  forall oc, In oc olds -> same_value_zero (vkey oc) k = false.
Proof.
  revert i; induction olds as [|c olds IH]; intros i; simpl; [contradiction|].
  destruct (last_with_key (S i) olds k) eqn:E; [discriminate|].
  intros Hc oc [->|Hin].
  - destruct (same_value_zero (vkey oc) k); congruence.
  - exact (IH (S i) E oc Hin).
Qed.

Lemma matched_indices_NoDup (olds news : list vnode) :
  keys_distinct news = true -> NoDup (matched_indices olds news).
Proof.
  induction news as [|c news IH]; simpl; intros Hd; [constructor|].
  apply andb_prop in Hd. destruct Hd as [Hfa Hd].
  destruct (last_with_key 0 olds (vkey c)) as [[oc i]|] eqn:Hl; simpl;
    [|exact (IH Hd)].
  constructor; [|exact (IH Hd)].
  intros Hin. unfold matched_indices in Hin. apply in_flat_map in Hin.
  destruct Hin as [c' [Hc' Hi]].
  destruct (last_with_key 0 olds (vkey c')) as [[oc' i']|] eqn:Hl';
    simpl in Hi; [|contradiction].
  destruct Hi as [<-|[]].
  apply last_with_key_some in Hl. apply last_with_key_some in Hl'.
  destruct Hl as [_ [Hn [Hk _]]]. destruct Hl' as [_ [Hn' [Hk' _]]].
  rewrite Hn in Hn'. injection Hn' as <-.
  rewrite svz_sym in Hk. rewrite <- (svz_trans _ _ _ Hk) in Hk'.
  rewrite forallb_forall in Hfa. specialize (Hfa c' Hc').
  rewrite Hk' in Hfa. discriminate.
Qed.

(** C2 (counterexample): with two new children carrying the same key, both
    match the same old child, so old index 0 is consumed by two records. *)
Lemma diffChildren_duplicate_key_reuses_index :
  diffChildren [li_key "a"] [li_key "a"; li_key "a"] =
  Keyed [KP (Some 0) (Some 0) (JStr "a") None;
         KP (Some 0) (Some 1) (JStr "a") None].
Proof. reflexivity. Qed.

(** C2 (amended): when every new child has a non-null key, [diffChildren]
    gives, for each new child at [newIndex], the record
    [{oldIndex, newIndex, key, diff(oldChild, newChild)}] for the last old
    child with the same key, or [{null, newIndex, key, CREATE(newChild)}]
    when there is none, followed by one [REMOVE] record per old index
    matched by no new child, in index order; the matched old indices are
    pairwise distinct when the new keys are; on
    [a, b, c] -> [z, a, b, c] there is one [CREATE] (for 'z'), the records
    of 'a', 'b', 'c' carry the no-op patch and there is no [REMOVE]. *)
Theorem diffChildren_keyed (olds news : list vnode) :
  forallb (fun c => not_nullish (vkey c)) news = true ->
  diffChildren olds news =
  Keyed (keyed_spec_entries olds 0 news
         ++ unconsumed_removals (matched_indices olds news) olds)
  /\ (keys_distinct news = true -> NoDup (matched_indices olds news))
  /\ diffChildren [li_key "a"; li_key "b"; li_key "c"]
                  [li_key "z"; li_key "a"; li_key "b"; li_key "c"]
     = Keyed [KP None (Some 0) (JStr "z") (Some (CREATE (Some (li_key "z"))));
              KP (Some 0) (Some 1) (JStr "a") None;
              KP (Some 1) (Some 2) (JStr "b") None;
              KP (Some 2) (Some 3) (JStr "c") None].
Proof.
  intros Hall. split; [|split; [apply matched_indices_NoDup | reflexivity]].
  unfold diffChildren. rewrite keyedCount_all, Nat.eqb_refl by exact Hall.
  simpl negb. cbv iota.
  rewrite keyedLoop_spec by exact Hall. simpl app.
  unfold unconsumed_removals. rewrite removals_spec. reflexivity.
Qed.

Lemma diffChildren_keyed_witness :
  forallb (fun c => not_nullish (vkey c)) [li_key "z"; li_key "a"] = true
  /\ diffChildren [li_key "a"; li_key "b"] [li_key "z"; li_key "a"] =
     Keyed (keyed_spec_entries [li_key "a"; li_key "b"] 0 [li_key "z"; li_key "a"]
            ++ unconsumed_removals
                 (matched_indices [li_key "a"; li_key "b"] [li_key "z"; li_key "a"])
                 [li_key "a"; li_key "b"]).
Proof.
  split; [reflexivity|].
  apply (diffChildren_keyed [li_key "a"; li_key "b"] [li_key "z"; li_key "a"]).
  reflexivity.
Defined.

(** ** The reserved [key] attribute *)










(** ** Reactive store: basic facts *)

Lemma set_delete_In (e x : nat) (l : list nat) : In x (set_delete e l) <-> In x l /\ x <> e.
Proof.
  unfold set_delete. rewrite filter_In, negb_true_iff, Nat.eqb_neq. tauto.
Qed.

Lemma set_delete_idem (e : nat) (l : list nat) : set_delete e (set_delete e l) = set_delete e l.
Proof.
  unfold set_delete. induction l as [|x l IH]; simpl; [reflexivity|].
  destruct (Nat.eqb x e) eqn:E; simpl; [exact IH|]. rewrite E. simpl. f_equal. exact IH.
Qed.

Lemma set_delete_NoDup (e : nat) (l : list nat) : NoDup l -> NoDup (set_delete e l).
Proof. unfold set_delete. apply NoDup_filter. Qed.

Lemma set_add_In (e x : nat) (l : list nat) : In x (set_add e l) <-> In x l \/ x = e.
Proof.
  unfold set_add. destruct (existsb (Nat.eqb e) l) eqn:E.
  - apply existsb_exists in E. destruct E as [y [Hy Hey]]. apply Nat.eqb_eq in Hey. subst y.
    split; [tauto|]. intros [H| ->]; auto.
  - rewrite in_app_iff. simpl. intuition.
Qed.

Lemma set_add_NoDup (e : nat) (l : list nat) : NoDup l -> NoDup (set_add e l).
Proof.
  unfold set_add. destruct (existsb (Nat.eqb e) l) eqn:E; intros H; [exact H|].
  apply NoDup_app; [exact H | constructor; [intros []|constructor] |].
  intros x Hx [Hex|[]]. subst x. assert (existsb (Nat.eqb e) l = true) as E'.
  { apply existsb_exists. exists e. split; [exact Hx | apply Nat.eqb_refl]. }
  congruence.
Qed.

Lemma subs_delete_from (e : nat) (st : rstate) (k0 k : string) :
  subs (delete_from e st k0) k =
  if String.eqb k k0 then set_delete e (subs st k) else subs st k.
Proof.
  unfold delete_from, subs, upd_s. simpl.
  destruct (String.eqb k k0) eqn:E; [|reflexivity].
  apply String.eqb_eq in E. subst. destruct (deps st k0); reflexivity.
Qed.

Lemma fold_delete_fields (e : nat) (L : list string) (st : rstate) :
  let st' := fold_left (delete_from e) L st in
  target st' = target st /\ edeps st' = edeps st /\ current st' = current st
  /\ events st' = events st.
Proof.
  revert st; induction L as [|k L IH]; intros st; simpl; [auto|].
  destruct (IH (delete_from e st k)) as [H1 [H2 [H3 H4]]].
  rewrite H1, H2, H3, H4. simpl. auto.
Qed.

Lemma fold_delete_subs (e : nat) (L : list string) (st : rstate) (k : string) :
  subs (fold_left (delete_from e) L st) k =
  if existsb (String.eqb k) L then set_delete e (subs st k) else subs st k.
Proof.
  revert st; induction L as [|k0 L IH]; intros st; simpl; [reflexivity|].
  rewrite IH, subs_delete_from.
  destruct (String.eqb k k0); simpl; [|reflexivity].
  destruct (existsb (String.eqb k) L); [apply set_delete_idem | reflexivity].
Qed.

Lemma cleanup_fields (e : nat) (st : rstate) :
  target (cleanup e st) = target st /\ current (cleanup e st) = current st
  /\ events (cleanup e st) = events st
  /\ (forall e', edeps (cleanup e st) e' = if Nat.eqb e' e then [] else edeps st e').
Proof.
  unfold cleanup. destruct (fold_delete_fields e (edeps st e) st) as [H1 [H2 [H3 H4]]].
  simpl. rewrite H1, H3, H4. split; [reflexivity|]. split; [reflexivity|].
  split; [reflexivity|]. intros e'. unfold upd_n. rewrite H2. reflexivity.
Qed.

Lemma cleanup_subs (e : nat) (st : rstate) (k : string) :
  subs (cleanup e st) k =
  if existsb (String.eqb k) (edeps st e) then set_delete e (subs st k) else subs st k.
Proof.
  unfold cleanup. rewrite <- fold_delete_subs. reflexivity.
Qed.

Lemma existsb_string_In (k : string) (L : list string) :
  existsb (String.eqb k) L = true <-> In k L.
Proof.
  rewrite existsb_exists. split.
  - intros [y [Hy E]]. apply String.eqb_eq in E. subst. exact Hy.
  - intros H. exists k. split; [exact H | apply String.eqb_refl].
Qed.

(** The first step of a run: after [cleanup e], [e] is in no subscriber set. *)
Lemma cleanup_removes (e : nat) (st : rstate) (k : string) :
  subs_inv st -> ~ In e (subs (cleanup e st) k).
Proof.
  intros Hinv Hin. rewrite cleanup_subs in Hin.
  destruct (existsb (String.eqb k) (edeps st e)) eqn:E.
  - apply set_delete_In in Hin. tauto.
  - apply Hinv in Hin. apply existsb_string_In in Hin. congruence.
Qed.

Lemma cleanup_inv (e : nat) (st : rstate) : subs_inv st -> subs_inv (cleanup e st).
Proof.
  intros Hinv x k Hin.
  destruct (Nat.eqb x e) eqn:E.
  - apply Nat.eqb_eq in E. subst. exfalso. exact (cleanup_removes e st k Hinv Hin).
  - destruct (cleanup_fields e st) as [_ [_ [_ Hd]]]. rewrite Hd, E.
    apply Hinv. rewrite cleanup_subs in Hin.
    destruct (existsb _ _); [apply set_delete_In in Hin; tauto | exact Hin].
Qed.

Lemma cleanup_nodup (e : nat) (st : rstate) : sets_nodup st -> sets_nodup (cleanup e st).
Proof.
  intros H k. rewrite cleanup_subs. destruct (existsb _ _); [apply set_delete_NoDup|]; apply H.
Qed.

Lemma subs_track (k k' : string) (st : rstate) :
  subs (track k st) k' =
  match current st with
  | Some e => if String.eqb k' k then set_add e (subs st k) else subs st k'
  | None => subs st k'
  end.
Proof.
  unfold track. destruct (current st) as [e|]; [|reflexivity].
  unfold subs at 1. simpl. unfold upd_s. destruct (String.eqb k' k); reflexivity.
Qed.

Lemma track_fields (k : string) (st : rstate) :
  target (track k st) = target st /\ current (track k st) = current st.
Proof. unfold track. destruct (current st) eqn:E; simpl; auto. Qed.

Lemma subs_put (k k' : string) v (st : rstate) : subs (put k v st) k' = subs st k'.
Proof. reflexivity. Qed.

(** ** Properties kept by every step of the reactive store

    A preorder [R] on states that holds across [track] and [put] and across
    every invocation of [runner] holds across notification passes, writes
    and effect bodies. *)
Section Preserve.
Variable R : rstate -> rstate -> Prop.
Hypothesis R_refl : forall s, R s s.
Hypothesis R_trans : forall s1 s2 s3, R s1 s2 -> R s2 s3 -> R s1 s3.
Hypothesis R_track : forall k s, R s (track k s).
Hypothesis R_put : forall k v s, R s (put k v s).
Variable runner : nat -> rstate -> option rstate.
Hypothesis R_runner : forall e s s', runner e s = Some s' -> R s s'.

Lemma run_each_R (es : list nat) (s s' : rstate) :
  run_each runner es s = Some s' -> R s s'.
Proof.
  revert s; induction es as [|e es IH]; intros s; simpl.
  - intros H. injection H as <-. apply R_refl.
  - destruct (is_current (current s) e); [apply IH|].
    destruct (runner e s) as [s1|] eqn:E; simpl; [|discriminate].
    intros H. apply R_trans with s1; [exact (R_runner e s s1 E) | exact (IH s1 H)].
Qed.

Lemma trigger_R (k : string) (s s' : rstate) : trigger runner k s = Some s' -> R s s'.
Proof.
  unfold trigger. destruct (deps s k); [apply run_each_R|].
  intros H. injection H as <-. apply R_refl.
Qed.

Lemma set_with_R (k : string) v (s s' : rstate) : set_with runner k v s = Some s' -> R s s'.
Proof.
  unfold set_with. destruct (negb _).
  - intros H. apply R_trans with (put k v s); [apply R_put | exact (trigger_R k _ _ H)].
  - intros H. injection H as <-. apply R_put.
Qed.

Lemma exec_with_R (c : cmd) (s s' : rstate) : exec_with runner c s = Some s' -> R s s'.
Proof.
  revert s; induction c as [|k next IH|k v next IH]; intros s; simpl.
  - intros H. injection H as <-. apply R_refl.
  - intros H. apply R_trans with (track k s); [apply R_track | exact (IH _ _ H)].
  - destruct (set_with runner k v s) as [s1|] eqn:E; simpl; [|discriminate].
    intros H. apply R_trans with s1; [exact (set_with_R k v s s1 E) | exact (IH s1 H)].
Qed.
End Preserve.

Section PreserveRun.
Variable fn_of : nat -> cmd.
Variable R : rstate -> rstate -> Prop.
Hypothesis R_refl : forall s, R s s.
Hypothesis R_trans : forall s1 s2 s3, R s1 s2 -> R s2 s3 -> R s1 s3.
Hypothesis R_track : forall k s, R s (track k s).
Hypothesis R_put : forall k v s, R s (put k v s).
Hypothesis R_enter : forall e s, R s (set_current (Some e) (cleanup e (log (Ran e) s))).
Hypothesis R_leave : forall c s, R s (set_current c s).

Lemma run_R (fuel e : nat) (s s' : rstate) : run fn_of fuel e s = Some s' -> R s s'.
Proof.
  revert e s s'; induction fuel as [|f IH]; intros e s s'; simpl; [discriminate|].
  destruct (exec_with (run fn_of f) (fn_of e) _) as [s2|] eqn:E; simpl; [|discriminate].
  intros H. injection H as <-.
  apply R_trans with (set_current (Some e) (cleanup e (log (Ran e) s))); [apply R_enter|].
  apply R_trans with s2; [|apply R_leave].
  exact (exec_with_R R R_refl R_trans R_track R_put (run fn_of f) IH _ _ _ E).
Qed.

Lemma set_prop_R (fuel : nat) k v (s s' : rstate) :
  set_prop fn_of fuel k v s = Some s' -> R s s'.
Proof.
  apply set_with_R; auto. intros e. apply run_R.
Qed.
End PreserveRun.

(** The relation used for the events and the subscriptions: the events only
    grow, and an effect joins a subscriber set only through a tracked read. *)
Definition grows (s s' : rstate) : Prop :=
  exists d, events s' = events s ++ d
            /\ forall e k, In e (subs s' k) -> In e (subs s k) \/ In (Tracked e k) d.

Lemma grows_refl (s : rstate) : grows s s.
Proof. exists []. rewrite app_nil_r. split; auto. Qed.

Lemma grows_trans (s1 s2 s3 : rstate) : grows s1 s2 -> grows s2 s3 -> grows s1 s3.
Proof.
  intros [d1 [E1 H1]] [d2 [E2 H2]]. exists (d1 ++ d2).
  split; [rewrite E2, E1, app_assoc; reflexivity|].
  intros e k Hin. destruct (H2 e k Hin) as [H|H].
  - destruct (H1 e k H) as [H'|H']; [auto | right; apply in_app_iff; auto].
  - right. apply in_app_iff. auto.
Qed.

Lemma grows_track (k : string) (s : rstate) : grows s (track k s).
Proof.
  destruct (current s) as [e|] eqn:Ec.
  - exists [Tracked e k]. split; [unfold track; rewrite Ec; reflexivity|].
    intros x k' Hin. rewrite subs_track, Ec in Hin.
    destruct (String.eqb k' k) eqn:Ek; [|auto].
    apply String.eqb_eq in Ek. subst k'.
    apply set_add_In in Hin. destruct Hin as [H| ->]; [auto | right; left; reflexivity].
  - unfold track. rewrite Ec. apply grows_refl.
Qed.

Lemma grows_put (k : string) v (s : rstate) : grows s (put k v s).
Proof. exists []. rewrite app_nil_r. split; [reflexivity|]. auto. Qed.

Lemma grows_enter (e : nat) (s : rstate) :
  grows s (set_current (Some e) (cleanup e (log (Ran e) s))).
Proof.
  exists [Ran e]. destruct (cleanup_fields e (log (Ran e) s)) as [_ [_ [Hev _]]].
  split; [cbn [events set_current]; rewrite Hev; reflexivity|].
  intros x k Hin. left.
  change (In x (subs (cleanup e (log (Ran e) s)) k)) in Hin.
  rewrite cleanup_subs in Hin.
  destruct (existsb _ _); [apply set_delete_In in Hin; tauto | exact Hin].
Qed.

Lemma grows_leave (c : option nat) (s : rstate) : grows s (set_current c s).
Proof. exists []. rewrite app_nil_r. split; [reflexivity|]. auto. Qed.

Definition inv_kept (s s' : rstate) : Prop := subs_inv s -> subs_inv s'.

Lemma inv_track (k : string) (s : rstate) : inv_kept s (track k s).
Proof.
  intros Hinv x k' Hin. rewrite subs_track in Hin. unfold track in *.
  destruct (current s) as [e|] eqn:Ec; [|exact (Hinv x k' Hin)].
  simpl. unfold upd_n.
  destruct (String.eqb k' k) eqn:Ek.
  - apply String.eqb_eq in Ek. subst k'.
    apply set_add_In in Hin. destruct (Nat.eqb x e) eqn:Ex.
    + apply in_app_iff. right. left. reflexivity.
    + destruct Hin as [Hin| ->]; [exact (Hinv x k Hin) | rewrite Nat.eqb_refl in Ex; discriminate].
  - destruct (Nat.eqb x e) eqn:Ex; [|exact (Hinv x k' Hin)].
    apply Nat.eqb_eq in Ex. subst x. apply in_app_iff. left. exact (Hinv e k' Hin).
Qed.

Lemma inv_enter (e : nat) (s : rstate) :
  inv_kept s (set_current (Some e) (cleanup e (log (Ran e) s))).
Proof.
  intros Hinv. apply (cleanup_inv e (log (Ran e) s)). exact Hinv.
Qed.

Definition nodup_kept (s s' : rstate) : Prop := sets_nodup s -> sets_nodup s'.

Lemma nodup_track (k : string) (s : rstate) : nodup_kept s (track k s).
Proof.
  intros H k'. rewrite subs_track. destruct (current s); [|apply H].
  destruct (String.eqb k' k); [apply set_add_NoDup|]; apply H.
Qed.

Definition cur_kept (s s' : rstate) : Prop := current s' = current s.

Lemma run_current (fn_of : nat -> cmd) (fuel e : nat) (s s' : rstate) :
  run fn_of fuel e s = Some s' -> current s' = current s.
Proof.
  destruct fuel as [|f]; simpl; [discriminate|].
  destruct (exec_with _ _ _); simpl; [|discriminate].
  intros H. injection H as <-. simpl.
  destruct (cleanup_fields e (log (Ran e) s)) as [_ [Hc _]]. exact Hc.
Qed.

Lemma run_grows (fn_of : nat -> cmd) (fuel e : nat) (s s' : rstate) :
  run fn_of fuel e s = Some s' -> grows s s'.
Proof.
  apply run_R; [exact grows_refl | exact grows_trans | exact grows_track
               | exact grows_put | exact grows_enter | exact grows_leave].
Qed.

Lemma run_inv (fn_of : nat -> cmd) (fuel e : nat) (s s' : rstate) :
  run fn_of fuel e s = Some s' -> inv_kept s s'.
Proof.
  apply run_R; unfold inv_kept; auto.
  - exact inv_track.
  - exact inv_enter.
Qed.

Lemma run_nodup (fn_of : nat -> cmd) (fuel e : nat) (s s' : rstate) :
  run fn_of fuel e s = Some s' -> nodup_kept s s'.
Proof.
  apply run_R; unfold nodup_kept; auto.
  - exact nodup_track.
  - intros e' s0 H. apply (cleanup_nodup e' (log (Ran e') s0)). exact H.
Qed.

(** ** Notification passes *)

(** A notification pass runs a list fixed before it starts: since every
    invocation restores [currentEffect], [run_each] over the snapshot is the
    plain sequence of the snapshot's effects other than the current one. *)
Lemma run_each_fixed (runner : nat -> rstate -> option rstate) :
  (forall e s s', runner e s = Some s' -> current s' = current s) ->
  forall es s,
  run_each runner es s =
  run_list runner (filter (fun e => negb (is_current (current s) e)) es) s.
Proof.
  intros Hcur es. induction es as [|e es IH]; intros s; simpl; [reflexivity|].
  destruct (is_current (current s) e) eqn:E; simpl; [apply IH|].
  destruct (runner e s) as [s1|] eqn:R; simpl; [|reflexivity].
  rewrite IH, (Hcur _ _ _ R). reflexivity.
Qed.

Lemma run_events (fn_of : nat -> cmd) (fuel e : nat) (s s' : rstate) :
  run fn_of fuel e s = Some s' -> exists d, events s' = events s ++ Ran e :: d.
Proof.
  destruct fuel as [|f]; [discriminate|]. cbn [run].
  destruct (exec_with (run fn_of f) (fn_of e) _) as [s2|] eqn:E; cbn [obind]; [|discriminate].
  intros H. injection H as <-.
  destruct (exec_with_R grows grows_refl grows_trans grows_track grows_put
              (run fn_of f) (run_grows fn_of f) _ _ _ E) as [d [Hd _]].
  exists d. cbn [events set_current]. rewrite Hd. cbn [events set_current].
  destruct (cleanup_fields e (log (Ran e) s)) as [_ [_ [Hev _]]]. rewrite Hev.
  simpl. rewrite <- app_assoc. reflexivity.
Qed.

Lemma run_list_grows (fn_of : nat -> cmd) (fuel : nat) (es : list nat) (s s' : rstate) :
  run_list (run fn_of fuel) es s = Some s' -> grows s s'.
Proof.
  revert s; induction es as [|e es IH]; intros s; simpl.
  - intros H. injection H as <-. apply grows_refl.
  - destruct (run fn_of fuel e s) as [s1|] eqn:E; simpl; [|discriminate].
    intros H. exact (grows_trans _ _ _ (run_grows fn_of fuel e s s1 E) (IH s1 H)).
Qed.

Lemma run_list_invokes (fn_of : nat -> cmd) (fuel : nat) (es : list nat) (s s' : rstate) :
  run_list (run fn_of fuel) es s = Some s' ->
  forall e, In e es -> exists d1 d2, events s' = events s ++ d1 ++ Ran e :: d2.
Proof.
  revert s; induction es as [|e0 es IH]; intros s; simpl; [intros _ e []|].
  destruct (run fn_of fuel e0 s) as [s1|] eqn:E; simpl; [|discriminate].
  intros H e Hin.
  destruct (run_events fn_of fuel e0 s s1 E) as [d Hd].
  destruct Hin as [<-|Hin].
  - destruct (run_list_grows fn_of fuel es s1 s' H) as [d' [Hd' _]].
    exists [], (d ++ d'). rewrite Hd', Hd. simpl. rewrite <- app_assoc. reflexivity.
  - destruct (IH s1 H e Hin) as [d1 [d2 H12]].
    exists (Ran e0 :: d ++ d1), d2. rewrite H12, Hd. simpl.
    rewrite <- !app_assoc. reflexivity.
Qed.

Lemma exec_cond (runner : nat -> rstate -> option rstate) (s : rstate) :
  exec_with runner cond_body s =
  Some (if truthy (target s "flag") then track "x" (track "flag" s) else track "flag" s).
Proof.
  unfold cond_body. cbn [exec_with]. destruct (truthy (target s "flag")); reflexivity.
Qed.

Lemma set_prop_pass (fn_of : nat -> cmd) (fuel : nat) (k : string) v (st : rstate) :
  strict_eq (target st k) v = false ->
  set_prop fn_of fuel k v st =
  run_list (run fn_of fuel)
           (filter (fun e => negb (is_current (current st) e)) (subs st k))
           (put k v st).
Proof.
  intros Hne. unfold set_prop, set_with. rewrite Hne. cbn [negb]. unfold trigger.
  change (deps (put k v st) k) with (deps st k).
  unfold subs. destruct (deps st k) as [es|]; [|reflexivity].
  rewrite (run_each_fixed (run fn_of fuel) (run_current fn_of fuel)). reflexivity.
Qed.

(** ** Claims about the reactive store *)

(** C10: a write of a new value notifies the snapshot [Array.from(effects)]
    taken when the pass starts: the pass is exactly the sequence of the
    subscribers of [key] at that moment, minus the current effect, each
    invoked once (the subscriber set has no duplicates), whatever the
    invocations do to the subscriber sets. *)
Theorem write_notifies_snapshot (fn_of : nat -> cmd) (fuel : nat) (k : string) v
  (st : rstate) :
  strict_eq (target st k) v = false ->
  set_prop fn_of fuel k v st =
  run_list (run fn_of fuel)
           (filter (fun e => negb (is_current (current st) e)) (subs st k))
           (put k v st)
  /\ (sets_nodup st ->
      NoDup (filter (fun e => negb (is_current (current st) e)) (subs st k))).
Proof.
  intros Hne. split.
  - exact (set_prop_pass fn_of fuel k v st Hne).
  - intros Hnd. apply NoDup_filter. apply Hnd.
Qed.

Lemma write_notifies_snapshot_witness :
  strict_eq (target count_state2 "count") (JNum 1) = false
  /\ set_prop count_fn 10 "count" (JNum 1) count_state2 =
     run_list (run count_fn 10)
       (filter (fun e => negb (is_current (current count_state2) e))
               (subs count_state2 "count"))
       (put "count" (JNum 1) count_state2)
  /\ (sets_nodup count_state2 ->
      NoDup (filter (fun e => negb (is_current (current count_state2) e))
                    (subs count_state2 "count"))).
Proof.
  split; [vm_compute; reflexivity|].
  apply (write_notifies_snapshot count_fn 10 "count" (JNum 1) count_state2).
  vm_compute. reflexivity.
Defined.

(** C3: a write of the stored value ([===]) stores it and invokes nothing
    (the event log is unchanged); a write of a new value invokes, before it
    returns, every effect subscribed to [key] except the current one. With
    [{count: 0}] and one effect reading [count], writing [count = 1] re-runs
    it once, and writing [count = 1] again re-runs it zero times. *)
Theorem write_reruns_subscribers (fn_of : nat -> cmd) (fuel : nat) (k : string) v
  (st st' : rstate) :
  set_prop fn_of fuel k v st = Some st' ->
  ((strict_eq (target st k) v = true -> events st' = events st /\ target st' k = v)
   /\ (strict_eq (target st k) v = false ->
       forall e, In e (subs st k) -> is_current (current st) e = false ->
       exists d1 d2, events st' = events st ++ d1 ++ Ran e :: d2))
  /\ obind (effect count_fn 10 0 count_state0) (fun s1 =>
     obind (set_prop count_fn 10 "count" (JNum 1) s1) (fun s2 =>
     obind (set_prop count_fn 10 "count" (JNum 1) s2) (fun s3 =>
     Some (runs_of 0 (events s2) - runs_of 0 (events s1),
           runs_of 0 (events s3) - runs_of 0 (events s2)))))
     = Some (1, 0).
Proof.
  intros H. split; [split|vm_compute; reflexivity].
  - intros Heq. unfold set_prop, set_with in H. rewrite Heq in H. cbn [negb] in H.
    injection H as <-. split; [reflexivity|].
    cbn [put target]. unfold upd_s. rewrite String.eqb_refl. reflexivity.
  - intros Hne e Hin Hcur.
    rewrite (set_prop_pass fn_of fuel k v st Hne) in H.
    apply (run_list_invokes fn_of fuel _ _ _ H e).
    apply filter_In. rewrite Hcur. split; [exact Hin|reflexivity].
Qed.

Lemma write_reruns_subscribers_witness :
  set_prop count_fn 10 "count" (JNum 1) count_state2 =
    Some (after_write count_fn "count" (JNum 1) count_state2)
  /\ ((strict_eq (target count_state2 "count") (JNum 1) = true ->
       events (after_write count_fn "count" (JNum 1) count_state2) = events count_state2
       /\ target (after_write count_fn "count" (JNum 1) count_state2) "count" = JNum 1)
      /\ (strict_eq (target count_state2 "count") (JNum 1) = false ->
          forall e, In e (subs count_state2 "count") ->
          is_current (current count_state2) e = false ->
          exists d1 d2, events (after_write count_fn "count" (JNum 1) count_state2)
                        = events count_state2 ++ d1 ++ Ran e :: d2))
     /\ obind (effect count_fn 10 0 count_state0) (fun s1 =>
        obind (set_prop count_fn 10 "count" (JNum 1) s1) (fun s2 =>
        obind (set_prop count_fn 10 "count" (JNum 1) s2) (fun s3 =>
        Some (runs_of 0 (events s2) - runs_of 0 (events s1),
              runs_of 0 (events s3) - runs_of 0 (events s2)))))
        = Some (1, 0).
Proof.
  assert (H : set_prop count_fn 10 "count" (JNum 1) count_state2 =
              Some (after_write count_fn "count" (JNum 1) count_state2))
    by (vm_compute; reflexivity).
  split; [exact H|].
  exact (write_reruns_subscribers count_fn 10 "count" (JNum 1) count_state2 _ H).
Defined.

(** C4: a run of effect [e] first leaves [e] in no subscriber set; after the
    run [e] is subscribed to [k] only if the run itself read [k] (a
    [Tracked e k] event logged after its own [Ran e]). So the effect that
    reads [x] only when [flag] is truthy is not subscribed to [x] after a run
    that saw [flag] falsy: with [{flag: true, x: 0}], a write to [x] re-runs
    it once, writing [flag = false] re-runs it once, and a later write to [x]
    re-runs it zero times. *)
Theorem run_cleans_then_resubscribes (fn_of : nat -> cmd) (fuel e : nat)
  (st st' : rstate) :
  subs_inv st ->
  (forall k, ~ In e (subs (cleanup e st) k))
  /\ (run fn_of fuel e st = Some st' ->
      subs_inv st'
      /\ exists d, events st' = events st ++ Ran e :: d
                   /\ forall k, In e (subs st' k) -> In (Tracked e k) d)
  /\ (fn_of e = cond_body -> truthy (target st "flag") = false ->
      run fn_of fuel e st = Some st' -> ~ In e (subs st' "x"))
  /\ obind (effect cond_fn 10 0 cond_state0) (fun s1 =>
     obind (set_prop cond_fn 10 "x" (JNum 1) s1) (fun s2 =>
     obind (set_prop cond_fn 10 "flag" (JBool false) s2) (fun s3 =>
     obind (set_prop cond_fn 10 "x" (JNum 2) s3) (fun s4 =>
     Some (runs_of 0 (events s2) - runs_of 0 (events s1),
           runs_of 0 (events s3) - runs_of 0 (events s2),
           runs_of 0 (events s4) - runs_of 0 (events s3))))))
     = Some (1, 1, 0).
Proof.
  intros Hinv. split; [|split; [|split]].
  - intros k. apply cleanup_removes. exact Hinv.
  - intros Hrun. split; [exact (run_inv fn_of fuel e st st' Hrun Hinv)|].
    destruct fuel as [|f]; [discriminate|]. cbn [run] in Hrun.
    destruct (exec_with (run fn_of f) (fn_of e) _) as [s2|] eqn:E;
      cbn [obind] in Hrun; [|discriminate].
    injection Hrun as <-.
    destruct (exec_with_R grows grows_refl grows_trans grows_track grows_put
                (run fn_of f) (run_grows fn_of f) _ _ _ E) as [d [Hd Hsub]].
    exists d. split.
    + cbn [events set_current]. rewrite Hd. cbn [events set_current].
      destruct (cleanup_fields e (log (Ran e) st)) as [_ [_ [Hev _]]]. rewrite Hev.
      simpl. rewrite <- app_assoc. reflexivity.
    + intros k Hk. change (subs (set_current _ s2) k) with (subs s2 k) in Hk.
      destruct (Hsub e k Hk) as [Hin|Hin]; [|exact Hin].
      exfalso. change (subs (set_current _ _) k) with (subs (cleanup e (log (Ran e) st)) k) in Hin.
      exact (cleanup_removes e (log (Ran e) st) k Hinv Hin).
  - intros Hfn Hflag Hrun.
    destruct fuel as [|f]; [discriminate|]. cbn [run] in Hrun.
    rewrite Hfn, exec_cond in Hrun.
    assert (Ht : target (set_current (Some e) (cleanup e (log (Ran e) st))) = target st).
    { cbn [target set_current].
      destruct (cleanup_fields e (log (Ran e) st)) as [Htg _]. rewrite Htg. reflexivity. }
    rewrite Ht, Hflag in Hrun. cbn [obind] in Hrun. injection Hrun as <-.
    change (subs (set_current _ ?s) "x") with (subs s "x").
    rewrite subs_track. cbn [current set_current].
    change (subs (set_current (Some e) (cleanup e (log (Ran e) st))) "x")
      with (subs (cleanup e (log (Ran e) st)) "x").
    apply (cleanup_removes e (log (Ran e) st) "x" Hinv).
  - vm_compute. reflexivity.
Qed.

Lemma run_cleans_then_resubscribes_witness :
  subs_inv cond_flag_off
  /\ (forall k, ~ In 0 (subs (cleanup 0 cond_flag_off) k))
  /\ (run cond_fn 10 0 cond_flag_off = Some (cond_rerun) ->
      subs_inv (cond_rerun)
      /\ exists d, events (cond_rerun)
                   = events cond_flag_off ++ Ran 0 :: d
                   /\ forall k, In 0 (subs (cond_rerun) k) ->
                      In (Tracked 0 k) d)
  /\ (cond_fn 0 = cond_body -> truthy (target cond_flag_off "flag") = false ->
      run cond_fn 10 0 cond_flag_off = Some (cond_rerun) ->
      ~ In 0 (subs (cond_rerun) "x"))
  /\ obind (effect cond_fn 10 0 cond_state0) (fun s1 =>
     obind (set_prop cond_fn 10 "x" (JNum 1) s1) (fun s2 =>
     obind (set_prop cond_fn 10 "flag" (JBool false) s2) (fun s3 =>
     obind (set_prop cond_fn 10 "x" (JNum 2) s3) (fun s4 =>
     Some (runs_of 0 (events s2) - runs_of 0 (events s1),
           runs_of 0 (events s3) - runs_of 0 (events s2),
           runs_of 0 (events s4) - runs_of 0 (events s3))))))
     = Some (1, 1, 0).
Proof.
  assert (Hinv : subs_inv cond_flag_off).
  { unfold cond_flag_off, cond_state1.
    destruct (effect cond_fn 10 0 cond_state0) as [s|] eqn:E.
    - change (subs_inv s). unfold effect in E.
      apply (run_inv cond_fn 10 0 _ s E). intros e k Hin. destruct Hin.
    - intros e k Hin. destruct Hin. }
  split; [exact Hinv|].
  exact (run_cleans_then_resubscribes cond_fn 10 0 cond_flag_off
           (cond_rerun) Hinv).
Defined.

(** ** The DOM renderers: lemmas and properties *)

Lemma vnode_ind' (P : vnode -> Prop) :
  (forall t ps cs tx, Forall P cs -> P (VNode t ps cs tx)) -> forall v, P v.
Proof.
  intros H. fix IH 1. intros [t ps cs tx]. apply H.
  induction cs as [|c cs IHcs]; constructor; [apply IH|exact IHcs].
Qed.

Section DomHost.
Context `{Hdom : dom_host}.

Lemma createElement_unfold (v : vnode) (d : dom) :
  Render.createElement v d =
  if String.eqb (vtype v) "TEXT" then
    Some (alloc d (DNode (DText (js_String (text v))) None []))
  else if negb (element_name_ok None (vtype v)) then None
  else
    let '(d1, el) := alloc d (DNode (DElement XHTML_NS (to_lower (vtype v)) new_elem) None []) in
    obind (update_elem d1 el (fun ns tg e => setProps_host ns tg e (props v))) (fun d2 =>
    obind (Render.appendAll el (children v) d2) (fun d3 => Some (d3, el))).
Proof. destruct v; reflexivity. Qed.

(** *** Host checks *)

Lemma forallb_obj_set (P : jsval -> bool) (o : obj) (k : string) (x : jsval) :
  forallb (fun kv => P (snd kv)) o = true -> P x = true ->
  forallb (fun kv => P (snd kv)) (obj_set o k x) = true.
Proof.
  intros Ho Hx. induction o as [|[k' v'] o IH]; simpl in *; [rewrite Hx; reflexivity|].
  apply andb_prop in Ho as [Hv Ho]. destruct (String.eqb k k'); simpl; rewrite ?Hx, ?Hv, ?Ho; [reflexivity|].
  rewrite IH by exact Ho. reflexivity.
Qed.

Lemma forallb_obj_delete (P : jsval -> bool) (o : obj) (k : string) :
  forallb (fun kv => P (snd kv)) o = true -> forallb (fun kv => P (snd kv)) (obj_delete o k) = true.
Proof.
  intros Ho. induction o as [|[k' v'] o IH]; simpl in *; [reflexivity|].
  apply andb_prop in Ho as [Hv Ho]. destruct (String.eqb k k'); simpl; [exact Ho|].
  rewrite Hv, IH by exact Ho. reflexivity.
Qed.

Lemma forallb_obj_get (P : jsval -> bool) (o : obj) (k : string) :
  forallb (fun kv => P (snd kv)) o = true -> P JUndef = true -> P (obj_get o k) = true.
Proof.
  intros Ho Hu. induction o as [|[k' v'] o IH]; simpl in *; [exact Hu|].
  apply andb_prop in Ho as [Hv Ho]. destruct (String.eqb k k'); [exact Hv|exact (IH Ho)].
Qed.

Lemma elem_ok_handler (e : elem) (k : string) :
  elem_ok e = true -> handler_ok (obj_get (el_handlers e) k) = true.
Proof. intros H. apply forallb_obj_get; [exact H|reflexivity]. Qed.

Lemma setProp_elem_ok (ns tg : string) (e e' : elem) (k : string) (x : jsval) :
  setProp_host ns tg e k x = Some e' -> elem_ok e = true -> elem_ok e' = true.
Proof.
  unfold setProp_host. destruct (setProp_ok ns tg e k x) eqn:Hok; [|discriminate].
  intros Hs He. injection Hs as <-. unfold setProp_ok in Hok. unfold setProp.
  destruct (String.eqb k "key"); [exact He|].
  destruct (String.prefix "on" k).
  - apply andb_prop in Hok as [_ Hx]. unfold set_handler, elem_ok. simpl.
    apply forallb_obj_set; [exact He|]. unfold handler_ok. rewrite Hx. apply orb_true_r.
  - destruct (String.eqb k "className"); [exact He|].
    destruct (String.eqb k "style" && is_object x); [exact He|].
    destruct (String.eqb k "value"); exact He.
Qed.

Lemma removeProp_elem_ok (e : elem) (k : string) :
  elem_ok e = true -> elem_ok (removeProp e k) = true.
Proof.
  intros He. unfold removeProp.
  destruct (String.prefix "on" k); [destruct (truthy _); [|exact He]|].
  - unfold elem_ok. simpl. apply forallb_obj_delete. exact He.
  - destruct (String.eqb k "className"); exact He.
Qed.

Lemma setProps_host_ok (ns tg : string) (ps : obj) : forall e,
  elem_ok e = true ->
  (forall e', elem_ok e' = true ->
     forallb (fun kv => setProp_ok ns tg e' (fst kv) (snd kv)) ps = true) ->
  exists e', setProps_host ns tg e ps = Some e' /\ elem_ok e' = true.
Proof.
  induction ps as [|[k x] ps IH]; intros e He Hall; [exists e; auto|].
  cbn [setProps_host]. pose proof (Hall e He) as H1. cbn [forallb fst snd] in H1.
  apply andb_prop in H1 as [H1 _]. unfold setProp_host at 1. rewrite H1. cbn [obind].
  assert (He1 : elem_ok (setProp e k x) = true)
    by (apply (setProp_elem_ok ns tg e _ k x); [unfold setProp_host; rewrite H1; reflexivity|exact He]).
  apply IH; [exact He1|]. intros e' He'. specialize (Hall e' He'). cbn [forallb] in Hall.
  apply andb_prop in Hall as [_ Hall]. exact Hall.
Qed.

Lemma setProps_host_elem_ok (ns tg : string) (ps : obj) : forall e e',
  setProps_host ns tg e ps = Some e' -> elem_ok e = true -> elem_ok e' = true.
Proof.
  induction ps as [|[k x] ps IH]; intros e e' Hs He; cbn [setProps_host] in Hs.
  - injection Hs as <-. exact He.
  - destruct (setProp_host ns tg e k x) as [e1|] eqn:H1; [|discriminate]. cbn [obind] in Hs.
    exact (IH e1 e' Hs (setProp_elem_ok ns tg e e1 k x H1 He)).
Qed.

Lemma applyPropPatches_host_ok (ns tg : string) (pps : list propPatch) : forall e,
  elem_ok e = true ->
  (forall e', elem_ok e' = true -> forall pp, In pp pps ->
     match pp with
     | SET_PROP k x => setProp_ok ns tg e' k x
     | REMOVE_PROP k => removeProp_ok ns tg e' k
     end = true) ->
  exists e', applyPropPatches_host ns tg e pps = Some e' /\ elem_ok e' = true.
Proof.
  induction pps as [|pp pps IH]; intros e He Hall; [exists e; auto|].
  cbn [applyPropPatches_host].
  assert (Hstep : exists e1, match pp with
                             | SET_PROP k v => setProp_host ns tg e k v
                             | REMOVE_PROP k => removeProp_host ns tg e k
                             end = Some e1 /\ elem_ok e1 = true).
  { pose proof (Hall e He pp (or_introl eq_refl)) as H1. destruct pp as [k x|k].
    - exists (setProp e k x). unfold setProp_host. rewrite H1. split; [reflexivity|].
      apply (setProp_elem_ok ns tg e _ k x); [unfold setProp_host; rewrite H1; reflexivity|exact He].
    - exists (removeProp e k). unfold removeProp_host. rewrite H1. split; [reflexivity|].
      apply removeProp_elem_ok. exact He. }
  destruct Hstep as [e1 [Hs He1]]. rewrite Hs. cbn [obind].
  apply IH; [exact He1|]. intros e' He' pp' Hpp'. apply (Hall e' He'). right. exact Hpp'.
Qed.

Lemma creatable_unfold (v : vnode) :
  creatable v =
  String.eqb (vtype v) "TEXT" ||
  (element_name_ok None (vtype v) &&
   match setProps_host XHTML_NS (to_lower (vtype v)) new_elem (props v) with
   | Some _ => true
   | None => false
   end && forallb creatable (children v)).
Proof.
  destruct v as [t ps cs tx]. reflexivity.
Qed.

Lemma renderable_child (v c : vnode) :
  String.eqb (vtype v) "TEXT" = false -> renderable v -> In c (children v) -> renderable c.
Proof.
  destruct v as [t ps cs tx]. cbn [renderable vtype children]. intros Ht. rewrite Ht.
  intros [_ [_ Hall]]. induction cs as [|c' cs IH]; [intros []|].
  destruct Hall as [Hc Hall]. intros [<-|Hin]; [exact Hc|exact (IH Hall Hin)].
Qed.

Lemma renderable_elem (v : vnode) :
  String.eqb (vtype v) "TEXT" = false -> renderable v ->
  element_name_ok None (vtype v) = true /\
  (forall ns e, elem_ok e = true ->
     forallb (fun kv => setProp_ok ns (to_lower (vtype v)) e (fst kv) (snd kv)) (props v) = true /\
     write_ok ns (to_lower (vtype v)) e (WClassName (JStr "")) = true).
Proof.
  destruct v as [t ps cs tx]. cbn [renderable vtype props]. intros Ht. rewrite Ht.
  intros [H1 [H2 _]]. exact (conj H1 H2).
Qed.

Lemma renderable_creatable (v : vnode) : renderable v -> creatable v = true.
Proof.
  induction v as [t ps cs tx IHcs] using vnode_ind'. intros Hr. rewrite creatable_unfold.
  cbn [vtype props children] in *. destruct (String.eqb t "TEXT") eqn:Ht; [reflexivity|].
  destruct (renderable_elem (VNode t ps cs tx) Ht Hr) as [Hn Hp]. cbn [vtype props] in Hn, Hp.
  rewrite Hn. cbn [orb andb].
  destruct (setProps_host_ok XHTML_NS (to_lower t) ps new_elem eq_refl
              (fun e' He' => proj1 (Hp XHTML_NS e' He'))) as [e' [Hs _]].
  rewrite Hs. cbn [andb]. apply forallb_forall. intros c Hc.
  rewrite Forall_forall in IHcs. apply IHcs; [exact Hc|].
  exact (renderable_child (VNode t ps cs tx) c Ht Hr Hc).
Qed.


Definition disj (l1 l2 : list nat) : Prop := forall x, In x l1 -> ~ In x l2.

(** [wf d]: identities from [next d] on are unused. *)
Definition wf (d : dom) : Prop := forall j, next d <= j -> nodes d j = None.

(** [real d p i v fp]: the DOM subtree at node [i], whose parent is [p],
    has the shape [render.js] gives [v] (element names in lower case) and
    its elements' registered handlers are convertible; [fp] lists the nodes
    of the subtree. *)
Inductive real (d : dom) : option nat -> nat -> vnode -> list nat -> Prop :=
| real_text : forall p i v,
    String.eqb (vtype v) "TEXT" = true ->
    nodes d i = Some (DNode (DText (js_String (text v))) p []) ->
    real d p i v [i]
| real_elem : forall p i v ns e cs fp,
    String.eqb (vtype v) "TEXT" = false ->
    nodes d i = Some (DNode (DElement ns (to_lower (vtype v)) e) p cs) ->
    elem_ok e = true ->
    reals d (Some i) cs (children v) fp ->
    ~ In i fp ->
    real d p i v (i :: fp)
with reals (d : dom) : option nat -> list nat -> list vnode -> list nat -> Prop :=
| reals_nil : forall p, reals d p [] [] []
| reals_cons : forall p c cs v vs fp1 fp2,
    real d p c v fp1 -> reals d p cs vs fp2 -> disj fp1 fp2 ->
    reals d p (c :: cs) (v :: vs) (fp1 ++ fp2).

Scheme real_ind2 := Induction for real Sort Prop
with reals_ind2 := Induction for reals Sort Prop.
Combined Scheme real_reals_ind from real_ind2, reals_ind2.

Lemma nodes_set (d : dom) i n j :
  nodes (set_node d i n) j = if Nat.eqb j i then Some n else nodes d j.
Proof. reflexivity. Qed.

Lemma real_frame_gen (d d' : dom) :
  (forall p i v fp, real d p i v fp ->
     (forall x, In x fp -> nodes d' x = nodes d x) -> real d' p i v fp) /\
  (forall p cs vs fp, reals d p cs vs fp ->
     (forall x, In x fp -> nodes d' x = nodes d x) -> reals d' p cs vs fp).
Proof.
  apply real_reals_ind.
  - intros p i v Ht Hn Hf. apply real_text; [exact Ht|]. rewrite Hf by (left; reflexivity). exact Hn.
  - intros p i v ns e cs fp Ht Hn He Hr IH Hni Hf. eapply real_elem; [exact Ht| |exact He|apply IH|exact Hni].
    + rewrite Hf by (left; reflexivity). exact Hn.
    + intros x Hx. apply Hf. right. exact Hx.
  - intros p Hf. constructor.
  - intros p c cs v vs fp1 fp2 H1 IH1 H2 IH2 Hd Hf. constructor; [apply IH1|apply IH2|exact Hd];
      intros x Hx; apply Hf; apply in_or_app; auto.
Qed.

Lemma real_frame (d d' : dom) p i v fp :
  real d p i v fp -> (forall x, In x fp -> nodes d' x = nodes d x) -> real d' p i v fp.
Proof. apply (proj1 (real_frame_gen d d')). Qed.

Lemma reals_frame (d d' : dom) p cs vs fp :
  reals d p cs vs fp -> (forall x, In x fp -> nodes d' x = nodes d x) -> reals d' p cs vs fp.
Proof. apply (proj2 (real_frame_gen d d')). Qed.

Lemma real_props_gen (d : dom) :
  (forall p i v fp, real d p i v fp ->
     In i fp /\ NoDup fp /\ (forall x, In x fp -> nodes d x <> None)) /\
  (forall p cs vs fp, reals d p cs vs fp ->
     NoDup fp /\ (forall x, In x fp -> nodes d x <> None) /\
     (forall c, In c cs -> In c fp) /\ NoDup cs /\ List.length cs = List.length vs).
Proof.
  apply real_reals_ind.
  - intros p i v Ht Hn. split; [left; reflexivity|]. split; [constructor; [intros []|constructor]|].
    intros x [<-|[]]. rewrite Hn. discriminate.
  - intros p i v ns e cs fp Ht Hn He Hr [Hnd [Hex _]] Hni.
    split; [left; reflexivity|]. split; [constructor; assumption|].
    intros x [<-|Hx]; [rewrite Hn; discriminate|apply Hex; exact Hx].
  - intros p. split; [constructor|]. split; [intros x []|]. split; [intros c []|].
    split; [constructor|reflexivity].
  - intros p c cs v vs fp1 fp2 H1 [Hi1 [Hnd1 Hex1]] H2 [Hnd2 [Hex2 [Hroots [Hndc Hlen]]]] Hd.
    split; [|split; [|split; [|split]]].
    + apply NoDup_app; auto.
    + intros x Hx. apply in_app_or in Hx. destruct Hx; auto.
    + intros c' [<-|Hc']; apply in_or_app; auto.
    + constructor; [|exact Hndc]. intros Hin. exact (Hd c Hi1 (Hroots c Hin)).
    + simpl. f_equal. exact Hlen.
Qed.

Lemma real_root (d : dom) p i v fp : real d p i v fp -> In i fp.
Proof. intros H. exact (proj1 (proj1 (real_props_gen d) p i v fp H)). Qed.

Lemma real_nodup (d : dom) p i v fp : real d p i v fp -> NoDup fp.
Proof. intros H. exact (proj1 (proj2 (proj1 (real_props_gen d) p i v fp H))). Qed.

Lemma real_exists (d : dom) p i v fp : real d p i v fp -> forall x, In x fp -> nodes d x <> None.
Proof. intros H. exact (proj2 (proj2 (proj1 (real_props_gen d) p i v fp H))). Qed.

Lemma reals_props (d : dom) p cs vs fp : reals d p cs vs fp ->
  NoDup fp /\ (forall x, In x fp -> nodes d x <> None) /\
  (forall c, In c cs -> In c fp) /\ NoDup cs /\ List.length cs = List.length vs.
Proof. intros H. exact (proj2 (real_props_gen d) p cs vs fp H). Qed.

Lemma in_wf (d : dom) x : wf d -> nodes d x <> None -> x < next d.
Proof. intros Hwf Hx. destruct (Nat.lt_ge_cases x (next d)) as [H|H]; [exact H|]. exfalso. exact (Hx (Hwf x H)). Qed.

Lemma real_node (d : dom) p i v fp : real d p i v fp ->
  exists k cs, nodes d i = Some (DNode k p cs) /\
  match k with
  | DText s => String.eqb (vtype v) "TEXT" = true /\ s = js_String (text v) /\ cs = []
  | DElement _ tg _ => String.eqb (vtype v) "TEXT" = false /\ tg = to_lower (vtype v)
  end.
Proof.
  intros H. inversion H; subst.
  - eexists _, _. split; [eassumption|]. simpl. auto.
  - eexists _, _. split; [eassumption|]. simpl. auto.
Qed.

Definition same_shape (k k' : dkind) : Prop :=
  match k, k' with
  | DText s, DText s' => s = s'
  | DElement _ t e, DElement _ t' e' => t = t' /\ (elem_ok e = true -> elem_ok e' = true)
  | _, _ => False
  end.

Lemma same_shape_refl (k : dkind) : same_shape k k.
Proof. destruct k; simpl; auto. Qed.

(** The root node may change its parent and its non-shape data. *)
Lemma real_root_change (d d' : dom) p p' i v fp k k' cs :
  real d p i v fp -> nodes d i = Some (DNode k p cs) ->
  nodes d' i = Some (DNode k' p' cs) -> same_shape k k' ->
  (forall x, In x fp -> x <> i -> nodes d' x = nodes d x) ->
  real d' p' i v fp.
Proof.
  intros H Hn Hn' Hs Hf. inversion H as [p0 i0 v0 Ht Hn0|p0 i0 v0 ns e cs0 fp0 Ht Hn0 He Hr Hni]; subst.
  - rewrite Hn in Hn0. injection Hn0 as Hk Hc. subst k cs. destruct k'; simpl in Hs; [|contradiction].
    subst. apply real_text; assumption.
  - rewrite Hn in Hn0. injection Hn0 as Hk Hc. subst k cs0. destruct k' as [|ns' tg' e']; simpl in Hs; [contradiction|].
    destruct Hs as [Hs He']. subst. eapply real_elem; [exact Ht|exact Hn'|exact (He' He)| |exact Hni].
    eapply reals_frame; [exact Hr|]. intros x Hx. apply Hf; [right; exact Hx|].
    intros ->. exact (Hni Hx).
Qed.

Lemma reals_app (d : dom) p cs1 vs1 fp1 cs2 vs2 fp2 :
  reals d p cs1 vs1 fp1 -> reals d p cs2 vs2 fp2 -> disj fp1 fp2 ->
  reals d p (cs1 ++ cs2) (vs1 ++ vs2) (fp1 ++ fp2).
Proof.
  intros H1. revert cs2 vs2 fp2. induction H1 as [p|p c cs v vs fa fb Ha Hb IH Hab];
    intros cs2 vs2 fp2 H2 Hd; simpl; [exact H2|].
  rewrite <- app_assoc. constructor; [exact Ha| |].
  - apply IH; [exact H2|]. intros x Hx. apply Hd. apply in_or_app. right. exact Hx.
  - intros x Hx Hin. apply in_app_or in Hin. destruct Hin as [Hin|Hin].
    + exact (Hab x Hx Hin).
    + exact (Hd x (in_or_app _ _ _ (or_introl Hx)) Hin).
Qed.

Lemma reals_one (d : dom) p c v fp :
  real d p c v fp -> reals d p [c] [v] fp.
Proof.
  intros H. rewrite <- (app_nil_r fp). constructor; [exact H|constructor|intros x _ []].
Qed.

Definition is_elem_kind (k : dkind) : bool :=
  match k with DElement _ _ _ => true | DText _ => false end.

Lemma appendChild_detached (d : dom) p c kp pp csp kc csc :
  nodes d p = Some (DNode kp pp csp) -> is_elem_kind kp = true ->
  nodes d c = Some (DNode kc None csc) -> c <> p ->
  appendChild d p c =
  Some (set_node (set_node d p (DNode kp pp (csp ++ [c]))) c (DNode kc (Some p) csc)).
Proof.
  intros Hp Hk Hc Hne. unfold appendChild, insertBefore, is_element, node_exists.
  rewrite Hp, Hc. destruct kp as [|ns tg e]; [discriminate|]. simpl.
  unfold insert_node, detach. rewrite Hc. simpl. rewrite Hp, Hc. reflexivity.
Qed.

Lemma wf_set (d : dom) i n : wf d -> i < next d -> wf (set_node d i n).
Proof.
  intros Hwf Hi j Hj. simpl in Hj. rewrite nodes_set.
  destruct (Nat.eqb_spec j i); [lia|]. apply Hwf. exact Hj.
Qed.

Lemma wf_alloc (d : dom) n : wf d -> wf (fst (alloc d n)).
Proof.
  intros Hwf j Hj. simpl in *. destruct (Nat.eqb_spec j (next d)); [lia|]. apply Hwf. lia.
Qed.

Section CreateOk.

Definition create_ok (v : vnode) : Prop :=
  creatable v = true -> forall d, wf d -> exists d' i fp,
    Render.createElement v d = Some (d', i) /\ real d' None i v fp /\ wf d' /\
    next d <= next d' /\ (forall x, x < next d -> nodes d' x = nodes d x) /\
    (forall x, In x fp -> next d <= x).

Lemma appendAll_ok (el : nat) (cs : list vnode) :
  Forall create_ok cs -> forallb creatable cs = true ->
  forall d k pp ids, wf d -> nodes d el = Some (DNode k pp ids) -> is_elem_kind k = true ->
  el < next d ->
  exists d' ids' fp', Render.appendAll el cs d = Some d' /\
    nodes d' el = Some (DNode k pp (ids ++ ids')) /\ reals d' (Some el) ids' cs fp' /\
    wf d' /\ next d <= next d' /\
    (forall x, x < next d -> x <> el -> nodes d' x = nodes d x) /\
    (forall x, In x fp' -> next d <= x).
Proof.
  induction 1 as [|c cs Hc Hcs IH]; intros Hcre d k pp ids Hwf Hel Hk Hlt;
    [|cbn [forallb] in Hcre; apply andb_prop in Hcre as [Hcre1 Hcre]].
  - exists d, [], []. rewrite app_nil_r. split; [reflexivity|]. split; [exact Hel|].
    split; [constructor|]. split; [exact Hwf|]. split; [lia|]. split; [auto|]. intros x [].
  - destruct (Hc Hcre1 d Hwf) as [d1 [ce [fpc [Hcr [Hreal [Hwf1 [Hle1 [Hfr1 Hfp1]]]]]]]].
    destruct (real_node _ _ _ _ _ Hreal) as [kc [csc [Hce _]]].
    assert (Hce_ge : next d <= ce) by (apply Hfp1; exact (real_root _ _ _ _ _ Hreal)).
    assert (Hel1 : nodes d1 el = Some (DNode k pp ids)) by (rewrite Hfr1 by exact Hlt; exact Hel).
    set (d2 := set_node (set_node d1 el (DNode k pp (ids ++ [ce]))) ce (DNode kc (Some el) csc)).
    assert (Happ : appendChild d1 el ce = Some d2)
      by (apply appendChild_detached with (kp := k) (kc := kc); [exact Hel1|exact Hk|exact Hce|lia]).
    assert (Hwf2 : wf d2).
    { apply wf_set; [apply wf_set; [exact Hwf1|lia]|].
      simpl. apply (in_wf d1); [exact Hwf1|]. rewrite Hce. discriminate. }
    assert (Hel2 : nodes d2 el = Some (DNode k pp (ids ++ [ce]))).
    { unfold d2. rewrite !nodes_set. destruct (Nat.eqb_spec el ce); [lia|].
      rewrite Nat.eqb_refl. reflexivity. }
    assert (Hreal2 : real d2 (Some el) ce c fpc).
    { apply (real_root_change d1 d2 None (Some el) ce c fpc kc kc csc); [exact Hreal|exact Hce| | |].
      - unfold d2. rewrite nodes_set, Nat.eqb_refl. reflexivity.
      - apply same_shape_refl.
      - intros x Hx Hne. unfold d2. rewrite !nodes_set.
        destruct (Nat.eqb_spec x ce); [contradiction|].
        destruct (Nat.eqb_spec x el); [|reflexivity]. subst x.
        specialize (Hfp1 el Hx). lia. }
    destruct (IH Hcre d2 k pp (ids ++ [ce]) Hwf2 Hel2 Hk) as [d3 [ids' [fp' [Hrun [Hel3 [Hr3 [Hwf3 [Hle3 [Hfr3 Hfp3]]]]]]]]].
    { simpl. lia. }
    exists d3, (ce :: ids'), (fpc ++ fp'). simpl. rewrite Hcr. simpl. rewrite Happ. simpl.
    assert (Hsmall : forall x, In x fpc -> x < next d2).
    { intros x Hx. apply (in_wf d2 x Hwf2). exact (real_exists _ _ _ _ _ Hreal2 x Hx). }
    split; [exact Hrun|]. split; [rewrite <- app_assoc in Hel3; exact Hel3|].
    split.
    { constructor.
      - apply (real_frame d2); [exact Hreal2|]. intros x Hx. apply Hfr3; [apply Hsmall; exact Hx|].
        intros ->. specialize (Hfp1 el Hx). lia.
      - exact Hr3.
      - intros x Hx Hx'. specialize (Hfp3 x Hx'). specialize (Hsmall x Hx). lia. }
    split; [exact Hwf3|]. split; [simpl in *; lia|]. split.
    + intros x Hx Hne. rewrite Hfr3 by (simpl; lia || exact Hne).
      unfold d2. rewrite !nodes_set. destruct (Nat.eqb_spec x ce); [lia|].
      destruct (Nat.eqb_spec x el); [contradiction|]. apply Hfr1. exact Hx.
    + intros x Hx. apply in_app_or in Hx. destruct Hx as [Hx|Hx]; [apply Hfp1; exact Hx|].
      specialize (Hfp3 x Hx). simpl in Hfp3. lia.
Qed.

Lemma createElement_ok (v : vnode) : create_ok v.
Proof.
  induction v as [t ps cs tx IHcs] using vnode_ind'. intros Hcre d Hwf.
  rewrite creatable_unfold in Hcre.
  rewrite createElement_unfold. simpl vtype. simpl children. simpl props. simpl text.
  simpl vtype in Hcre. simpl children in Hcre. simpl props in Hcre.
  destruct (String.eqb t "TEXT") eqn:Ht.
  - eexists _, (next d), [next d]. split; [reflexivity|]. split.
    { apply real_text; [exact Ht|]. simpl. rewrite Nat.eqb_refl. reflexivity. }
    split; [apply (wf_alloc d _ Hwf)|]. split; [simpl; lia|]. split.
    + intros x Hx. simpl. destruct (Nat.eqb_spec x (next d)); [lia|reflexivity].
    + intros x [<-|[]]. lia.
  - cbn [orb] in Hcre. apply andb_prop in Hcre as [Hcre Hcs]. apply andb_prop in Hcre as [Hnm Hps].
    destruct (setProps_host XHTML_NS (to_lower t) new_elem ps) as [e0|] eqn:Hs; [|discriminate].
    rewrite Hnm. cbn [negb].
    cbn [alloc fst snd]. unfold update_elem at 1. simpl nodes. rewrite Nat.eqb_refl.
    cbn [obind]. rewrite Hs. cbn [obind].
    set (d1 := Dom (fun j => if Nat.eqb j (next d)
                             then Some (DNode (DElement XHTML_NS (to_lower t) new_elem) None []) else nodes d j)
                   (S (next d))).
    set (d2 := set_node d1 (next d) (DNode (DElement XHTML_NS (to_lower t) e0) None [])).
    assert (Hwf2 : wf d2) by (apply wf_set; [apply (wf_alloc d _ Hwf)|simpl; lia]).
    assert (Hel2 : nodes d2 (next d) = Some (DNode (DElement XHTML_NS (to_lower t) e0) None []))
      by (unfold d2; rewrite nodes_set, Nat.eqb_refl; reflexivity).
    destruct (appendAll_ok (next d) cs IHcs Hcs d2 _ None [] Hwf2 Hel2 eq_refl) as
      [d3 [ids' [fp' [Hrun [Hel3 [Hr3 [Hwf3 [Hle3 [Hfr3 Hfp3]]]]]]]]].
    { simpl. lia. }
    exists d3, (next d), (next d :: fp'). rewrite Hrun. simpl obind. split; [reflexivity|]. split.
    { eapply real_elem; [exact Ht|exact Hel3|exact (setProps_host_elem_ok _ _ _ _ _ Hs eq_refl)|exact Hr3|].
      intros Hin. specialize (Hfp3 _ Hin). simpl in Hfp3. lia. }
    split; [exact Hwf3|]. split; [simpl in Hle3; lia|]. split.
    + intros x Hx. rewrite Hfr3 by (simpl; lia). unfold d2. rewrite nodes_set.
      destruct (Nat.eqb_spec x (next d)); [lia|]. simpl. destruct (Nat.eqb_spec x (next d)); [lia|reflexivity].
    + intros x [<-|Hx]; [lia|]. specialize (Hfp3 x Hx). simpl in Hfp3. lia.
Qed.

(** [createElement] returns only on creatable vnodes. *)
Lemma createElement_creatable (v : vnode) : forall d d' i,
  Render.createElement v d = Some (d', i) -> creatable v = true.
Proof.
  induction v as [t ps cs tx IHcs] using vnode_ind'. intros d d' i Hc.
  rewrite createElement_unfold in Hc. rewrite creatable_unfold. cbn [vtype props children text] in *.
  destruct (String.eqb t "TEXT"); [reflexivity|]. cbn [orb].
  destruct (element_name_ok None t); [|discriminate]. cbn [negb andb] in *.
  cbn [alloc fst snd] in Hc. unfold update_elem at 1 in Hc. simpl nodes in Hc. rewrite Nat.eqb_refl in Hc.
  cbn [obind] in Hc.
  destruct (setProps_host XHTML_NS (to_lower t) new_elem ps); [|discriminate]. cbn [obind andb] in *.
  set (d2 := set_node _ _ _) in Hc. clearbody d2.
  destruct (Render.appendAll (next d) cs d2) as [d3|] eqn:Ha; [|discriminate].
  clear Hc. revert d2 Ha. induction cs as [|c cs IH]; intros d2 Ha; [reflexivity|].
  inversion IHcs as [|? ? IHc IHr]; subst. cbn [Render.appendAll] in Ha.
  destruct (Render.createElement c d2) as [[d4 ce]|] eqn:Hce; [|discriminate].
  cbn [obind] in Ha. destruct (appendChild d4 (next d) ce) as [d5|]; [|discriminate]. cbn [obind] in Ha.
  cbn [forallb]. rewrite (IHc _ _ _ Hce). exact (IH IHr d5 Ha).
Qed.

End CreateOk.

(** ** List and DOM-operation lemmas *)

Definition replace_id (a b : nat) (l : list nat) : list nat :=
  map (fun x => if Nat.eqb x a then b else x) l.

Lemma remove_id_notin (c : nat) (l : list nat) : ~ In c l -> remove_id c l = l.
Proof.
  induction l as [|x l IH]; simpl; intros H; [reflexivity|].
  destruct (Nat.eqb_spec x c); [exfalso; apply H; left; congruence|].
  simpl. f_equal. apply IH. intros Hin. apply H. right. exact Hin.
Qed.

Lemma remove_id_app (c : nat) (l1 l2 : list nat) :
  remove_id c (l1 ++ l2) = remove_id c l1 ++ remove_id c l2.
Proof. unfold remove_id. apply filter_app. Qed.

Lemma remove_id_mid (c : nat) (l1 l2 : list nat) :
  ~ In c l1 -> ~ In c l2 -> remove_id c (l1 ++ c :: l2) = l1 ++ l2.
Proof.
  intros H1 H2. rewrite remove_id_app, (remove_id_notin c l1 H1). simpl.
  rewrite Nat.eqb_refl. simpl. rewrite (remove_id_notin c l2 H2). reflexivity.
Qed.

Lemma replace_id_notin (a b : nat) (l : list nat) : ~ In a l -> replace_id a b l = l.
Proof.
  induction l as [|x l IH]; simpl; intros H; [reflexivity|].
  destruct (Nat.eqb_spec x a); [exfalso; apply H; left; congruence|].
  f_equal. apply IH. intros Hin. apply H. right. exact Hin.
Qed.

Lemma replace_id_same (a : nat) (l : list nat) : replace_id a a l = l.
Proof.
  induction l as [|x l IH]; simpl; [reflexivity|].
  destruct (Nat.eqb_spec x a); subst; f_equal; exact IH.
Qed.

Lemma replace_id_mid (a b : nat) (l1 l2 : list nat) :
  ~ In a l1 -> ~ In a l2 -> replace_id a b (l1 ++ a :: l2) = l1 ++ b :: l2.
Proof.
  intros H1 H2. unfold replace_id. rewrite map_app. simpl. rewrite Nat.eqb_refl.
  fold (replace_id a b l1). fold (replace_id a b l2).
  rewrite (replace_id_notin a b l1 H1), (replace_id_notin a b l2 H2). reflexivity.
Qed.

Lemma in_split_nodup (a : nat) (l : list nat) :
  In a l -> NoDup l -> exists l1 l2, l = l1 ++ a :: l2 /\ ~ In a l1 /\ ~ In a l2.
Proof.
  intros Hin Hnd. destruct (in_split a l Hin) as [l1 [l2 ->]].
  exists l1, l2. split; [reflexivity|].
  apply NoDup_remove_2 in Hnd. split; intros H; apply Hnd; apply in_or_app; auto.
Qed.

Lemma next_sibling_in (l : list nat) (c r : nat) : next_sibling l c = Some r -> In r l.
Proof.
  induction l as [|x l IH]; simpl; [discriminate|].
  destruct (Nat.eqb x c).
  - destruct l as [|y l]; simpl; [discriminate|]. intros H. injection H as ->. right. left. reflexivity.
  - intros H. right. exact (IH H).
Qed.

(** Removing [old] and inserting [c] before [old]'s next sibling puts [c]
    in [old]'s place. *)
Lemma replace_list (l : list nat) (old c : nat) :
  NoDup l -> In old l -> ~ In c l ->
  match next_sibling l old with
  | None => remove_id old l ++ [c]
  | Some r => insert_before c r (remove_id old l)
  end = replace_id old c l.
Proof.
  induction l as [|x l IH]; intros Hnd Hin Hc; [contradiction|].
  inversion Hnd as [|x0 l0 Hx Hnd']; subst.
  simpl. destruct (Nat.eqb_spec x old).
  - subst x. fold (remove_id old l). fold (replace_id old c l).
    rewrite (remove_id_notin old l Hx), (replace_id_notin old c l Hx).
    destruct l as [|y l]; simpl; [reflexivity|]. rewrite Nat.eqb_refl. reflexivity.
  - destruct Hin as [Hin|Hin]; [congruence|].
    assert (Hc' : ~ In c l) by (intros H; apply Hc; right; exact H).
    specialize (IH Hnd' Hin Hc').
    destruct (next_sibling l old) as [r|] eqn:Hns.
    + simpl. destruct (Nat.eqb_spec x r).
      * subst r. exfalso. apply Hx. exact (next_sibling_in l old x Hns).
      * simpl. rewrite IH. reflexivity.
    + simpl. rewrite IH. reflexivity.
Qed.

Lemma detach_spec (d : dom) c p kc csc kp pp csp :
  nodes d c = Some (DNode kc (Some p) csc) -> nodes d p = Some (DNode kp pp csp) -> c <> p ->
  detach d c = set_node (set_node d p (DNode kp pp (remove_id c csp))) c (DNode kc None csc).
Proof. intros Hc Hp Hne. unfold detach. rewrite Hc. simpl. rewrite Hp. reflexivity. Qed.

Lemma detach_none (d : dom) c kc csc :
  nodes d c = Some (DNode kc None csc) -> detach d c = d.
Proof. intros Hc. unfold detach. rewrite Hc. reflexivity. Qed.

Lemma has_parent_spec (d : dom) c p :
  has_parent d c p = true <-> exists kc csc, nodes d c = Some (DNode kc (Some p) csc).
Proof.
  unfold has_parent. split.
  - destruct (nodes d c) as [[kc [q|] csc]|]; try discriminate.
    intros H. apply Nat.eqb_eq in H. subst. eauto.
  - intros [kc [csc ->]]. simpl. apply Nat.eqb_refl.
Qed.

(** [replaceChild] of a detached node [nw] for the child [old] of [p]. *)
Lemma replaceChild_spec (d : dom) p nw old kp pp csp kn csn ko cso :
  nodes d p = Some (DNode kp pp csp) -> is_elem_kind kp = true -> NoDup csp ->
  nodes d old = Some (DNode ko (Some p) cso) -> In old csp ->
  nodes d nw = Some (DNode kn None csn) -> ~ In nw csp ->
  nw <> p -> old <> p -> nw <> old ->
  replaceChild d p nw old =
  Some (set_node (set_node (set_node (set_node d p (DNode kp pp (remove_id old csp))) old
                                     (DNode ko None cso))
                           p (DNode kp pp (replace_id old nw csp)))
                 nw (DNode kn (Some p) csn)).
Proof.
  intros Hp Hk Hnd Ho Hin Hn Hnin Hnp Hop Hno.
  unfold replaceChild, is_element, node_exists, has_parent.
  rewrite Hp, Hn, Ho. destruct kp as [|ns tg e]; [discriminate|]. simpl. rewrite Nat.eqb_refl. simpl.
  unfold childNodes. rewrite Hp. simpl.
  assert (Hopt : opt_eqb (next_sibling csp old) (Some nw) = false).
  { destruct (next_sibling csp old) as [r|] eqn:Hr; [|reflexivity]. simpl.
    apply Nat.eqb_neq. intros ->. exact (Hnin (next_sibling_in _ _ _ Hr)). }
  rewrite Hopt. rewrite (detach_none d nw kn csn Hn).
  rewrite (detach_spec d old p ko cso _ pp csp Ho Hp Hop).
  unfold insert_node. rewrite detach_none with (kc := kn) (csc := csn).
  2: { rewrite !nodes_set. destruct (Nat.eqb_spec nw old); [congruence|].
       destruct (Nat.eqb_spec nw p); [congruence|]. exact Hn. }
  rewrite !nodes_set. rewrite (proj2 (Nat.eqb_neq p old) (not_eq_sym Hop)), Nat.eqb_refl.
  destruct (Nat.eqb_spec nw old); [congruence|]. destruct (Nat.eqb_spec nw p); [congruence|].
  rewrite Hn. simpl.
  rewrite <- (replace_list csp old nw Hnd Hin Hnin).
  destruct (next_sibling csp old); reflexivity.
Qed.

(** ** What [patch] needs and gives *)

Fixpoint vdepth (v : vnode) : nat :=
  S ((fix m (l : list vnode) : nat :=
        match l with [] => 0 | c :: l' => Nat.max (vdepth c) (m l') end) (children v)).

(** The new trees [patch] is proved for: text nodes carry their text and a
    fully keyed child list has pairwise different keys. *)
Fixpoint patchable (v : vnode) : bool :=
  if String.eqb (vtype v) "TEXT" then match text v with Some _ => true | None => false end
  else (negb (Nat.eqb (keyedCount (children v)) (List.length (children v)))
        || keys_distinct (children v)) &&
       (fix all (l : list vnode) : bool :=
          match l with [] => true | c :: l' => patchable c && all l' end) (children v).

Definition parent_ok (d : dom) (par el : nat) (fp : list nat) : Prop :=
  exists kp pp csp, nodes d par = Some (DNode kp pp csp) /\ is_elem_kind kp = true /\
    In el csp /\ NoDup csp /\ (forall y, In y csp -> y < next d) /\ ~ In par fp.

Definition patch_post (d : dom) (par el : nat) (fp : list nat)
  (d' : dom) (el' : nat) (fp' : list nat) (n : vnode) : Prop :=
  real d' (Some par) el' n fp' /\ wf d' /\ next d <= next d' /\
  (forall x, x < next d -> ~ In x fp -> x <> par -> nodes d' x = nodes d x) /\
  (forall x, In x fp' -> In x fp \/ next d <= x) /\
  (forall kp pp csp, nodes d par = Some (DNode kp pp csp) ->
     nodes d' par = Some (DNode kp pp (replace_id el el' csp))).

Definition patch_ok (fuel : nat) (n : vnode) : Prop :=
  forall d par el o fp, wf d -> real d (Some par) el o fp -> parent_ok d par el fp ->
  exists d' el' fp', Render.patch fuel par (Some el) (Some o) (Some n) d = Some (d', Some el') /\
    patch_post d par el fp d' el' fp' n.

Lemma vdepth_child (v c : vnode) : In c (children v) -> vdepth c < vdepth v.
Proof.
  destruct v as [t ps cs tx]. simpl. induction cs as [|c' cs IH]; simpl; [contradiction|].
  intros [->|Hin]; [lia|]. specialize (IH Hin). lia.
Qed.

Lemma patchable_child (v c : vnode) :
  patchable v = true -> String.eqb (vtype v) "TEXT" = false -> In c (children v) -> patchable c = true.
Proof.
  destruct v as [t ps cs tx]. simpl. intros Hp Ht. rewrite Ht in Hp.
  apply andb_prop in Hp. destruct Hp as [_ Hp]. revert Hp.
  induction cs as [|c' cs IH]; simpl; [contradiction|].
  intros Hp [->|Hin]; apply andb_prop in Hp; destruct Hp as [H1 H2]; [exact H1|exact (IH H2 Hin)].
Qed.

Lemma patchable_keys (v : vnode) :
  patchable v = true -> String.eqb (vtype v) "TEXT" = false ->
  keyedCount (children v) = List.length (children v) -> keys_distinct (children v) = true.
Proof.
  destruct v as [t ps cs tx]. simpl. intros Hp Ht Hk. rewrite Ht in Hp.
  apply andb_prop in Hp. destruct Hp as [Hp _]. simpl in Hk. rewrite Hk, Nat.eqb_refl in Hp. exact Hp.
Qed.

Lemma patchable_text (v : vnode) :
  patchable v = true -> String.eqb (vtype v) "TEXT" = true -> exists s, text v = Some s.
Proof.
  destruct v as [t ps cs tx]. simpl. intros Hp Ht. rewrite Ht in Hp.
  destruct tx as [s|]; [eauto|discriminate].
Qed.

Lemma skipn_nth {A : Type} (l : list A) i x :
  nth_error l i = Some x -> skipn i l = x :: skipn (S i) l.
Proof.
  revert l; induction i as [|i IH]; intros [|y l] H; simpl in *; try discriminate.
  - injection H as ->. reflexivity.
  - apply IH. exact H.
Qed.

Lemma firstn_nth {A : Type} (l : list A) i x :
  nth_error l i = Some x -> firstn (S i) l = firstn i l ++ [x].
Proof.
  revert l; induction i as [|i IH]; intros [|y l] H; simpl in *; try discriminate.
  - injection H as ->. reflexivity.
  - f_equal. apply IH. exact H.
Qed.

Lemma positional_length (os ns : list vnode) :
  List.length (positional os ns) = Nat.max (List.length os) (List.length ns).
Proof.
  revert os; induction ns as [|c ns IH]; intros os; simpl.
  - rewrite length_map. lia.
  - destruct os as [|oc os]; simpl; rewrite IH; simpl; lia.
Qed.

Lemma reals_small (d : dom) p cs vs fp : wf d -> reals d p cs vs fp -> forall x, In x fp -> x < next d.
Proof.
  intros Hwf H x Hx. apply (in_wf d x Hwf). apply (proj1 (proj2 (reals_props d p cs vs fp H))). exact Hx.
Qed.

Lemma real_small (d : dom) p i v fp : wf d -> real d p i v fp -> forall x, In x fp -> x < next d.
Proof. intros Hwf H x Hx. apply (in_wf d x Hwf). exact (real_exists d p i v fp H x Hx). Qed.

Lemma reals_cons_inv (d : dom) p c cs v vs fp :
  reals d p (c :: cs) (v :: vs) fp ->
  exists fp1 fp2, fp = fp1 ++ fp2 /\ real d p c v fp1 /\ reals d p cs vs fp2 /\ disj fp1 fp2.
Proof. intros H. inversion H; subst. eauto 7. Qed.

Lemma reals_nil_inv (d : dom) p vs fp : reals d p [] vs fp -> vs = [] /\ fp = [].
Proof. intros H. inversion H; subst. auto. Qed.

Lemma reals_nil_inv' (d : dom) p cs fp : reals d p cs [] fp -> cs = [] /\ fp = [].
Proof. intros H. inversion H; subst. auto. Qed.

Lemma nodup_app_disj (l1 l2 : list nat) : NoDup l1 -> NoDup l2 -> disj l1 l2 -> NoDup (l1 ++ l2).
Proof. intros H1 H2 Hd. apply NoDup_app; auto. Qed.

Ltac in_app_cases H := apply in_app_or in H; destruct H as [H|H].

Lemma positional_loop (f el : nat) (o n : vnode) (cs0 : list nat) (k : dkind)
  (pe : option nat) (fpo0 : list nat) (d0 : dom) :
  1 <= f ->
  (forall c, In c (children n) -> patch_ok f c) ->
  (forall c, In c (children n) -> creatable c = true) ->
  List.length cs0 = List.length (children o) ->
  el < next d0 -> (forall x, In x fpo0 -> x < next d0) ->
  forall ps i d ids fpn fpr,
  i + List.length ps = Nat.max (List.length (children o)) (List.length (children n)) ->
  wf d -> next d0 <= next d ->
  nodes d el = Some (DNode k pe (ids ++ skipn i cs0)) -> is_elem_kind k = true ->
  reals d (Some el) ids (firstn i (children n)) fpn ->
  reals d (Some el) (skipn i cs0) (skipn i (children o)) fpr ->
  disj fpn fpr -> ~ In el fpn -> ~ In el fpr ->
  (forall x, In x fpr -> In x fpo0) ->
  (forall x, In x fpn -> In x fpo0 \/ next d0 <= x) ->
  (forall x, x < next d0 -> ~ In x fpo0 -> x <> el -> nodes d x = nodes d0 x) ->
  exists d' ids' fpn', Render.positional_patch (Render.patch f) el cs0 o n i ps d = Some d' /\
    nodes d' el = Some (DNode k pe ids') /\ reals d' (Some el) ids' (children n) fpn' /\
    ~ In el fpn' /\ wf d' /\ next d0 <= next d' /\
    (forall x, x < next d0 -> ~ In x fpo0 -> x <> el -> nodes d' x = nodes d0 x) /\
    (forall x, In x fpn' -> In x fpo0 \/ next d0 <= x).
Proof.
  intros Hf IHc Hcre Hlen Hel0 Hfpo0. induction ps as [|p ps IH];
    intros i d ids fpn fpr Hi Hwf Hle Hel Hk Hrn Hrr Hdisj Heln Helr Hfpr Hfpn Hfr.
  - simpl in Hi. rewrite Nat.add_0_r in Hi.
    rewrite (skipn_all2 cs0) in Hel by lia. rewrite app_nil_r in Hel.
    rewrite (firstn_all2 (children n)) in Hrn by lia.
    exists d, ids, fpn. simpl. auto 10.
  - simpl in Hi. cbn [Render.positional_patch].
    destruct f as [|f']; [lia|].
    assert (Hsmall_n : forall x, In x fpn -> x < next d) by exact (reals_small d _ _ _ _ Hwf Hrn).
    assert (Hsmall_r : forall x, In x fpr -> x < next d) by exact (reals_small d _ _ _ _ Hwf Hrr).
    destruct (Nat.lt_ge_cases i (List.length (children o))) as [Hio|Hio].
    + destruct (nth_error (children o) i) as [v|] eqn:Hv;
        [|apply nth_error_None in Hv; lia].
      destruct (nth_error cs0 i) as [c|] eqn:Hc; [|apply nth_error_None in Hc; lia].
      rewrite (skipn_nth cs0 i c Hc), (skipn_nth (children o) i v Hv) in Hrr.
      rewrite (skipn_nth cs0 i c Hc) in Hel.
      destruct (reals_cons_inv _ _ _ _ _ _ _ Hrr) as [fpc [fpr2 [-> [Hrc [Hrr2 Hd12]]]]].
      assert (Hndids : NoDup ids) by exact (proj1 (proj2 (proj2 (proj2 (reals_props _ _ _ _ _ Hrn))))).
      assert (Hndrest : NoDup (c :: skipn (S i) cs0))
        by exact (proj1 (proj2 (proj2 (proj2 (reals_props _ _ _ _ _ Hrr))))).
      assert (Hroots_n : forall x, In x ids -> In x fpn) by exact (proj1 (proj2 (proj2 (reals_props _ _ _ _ _ Hrn)))).
      assert (Hroots_r : forall x, In x (skipn (S i) cs0) -> In x fpr2)
        by exact (proj1 (proj2 (proj2 (reals_props _ _ _ _ _ Hrr2)))).
      assert (Hcfp : In c fpc) by exact (real_root _ _ _ _ _ Hrc).
      assert (Hcids : ~ In c ids).
      { intros H. apply (Hdisj c (Hroots_n c H)). apply in_or_app. left. exact Hcfp. }
      assert (Hcrest : ~ In c (skipn (S i) cs0)) by (inversion Hndrest; assumption).
      destruct (Nat.lt_ge_cases i (List.length (children n))) as [Hin|Hin].
      * (* both present: the recursive call *)
        destruct (nth_error (children n) i) as [w|] eqn:Hw; [|apply nth_error_None in Hw; lia].
        assert (Hpok : patch_ok (S f') w) by (apply IHc; exact (nth_error_In _ _ Hw)).
        destruct (Hpok d el c v fpc Hwf Hrc) as [d1 [c' [fpc' [Hpatch [Hr1 [Hwf1 [Hle1 [Hfr1 [Hfp1 Hpar1]]]]]]]]].
        { exists k, pe, (ids ++ c :: skipn (S i) cs0). split; [exact Hel|]. split; [exact Hk|].
          split; [apply in_or_app; right; left; reflexivity|]. split; [|split].
          - apply nodup_app_disj; [exact Hndids|exact Hndrest|].
            intros x Hx1 Hx2. apply (Hdisj x (Hroots_n x Hx1)). destruct Hx2 as [<-|Hx2].
            + apply in_or_app. left. exact Hcfp.
            + apply in_or_app. right. exact (Hroots_r x Hx2).
          - intros y Hy. apply in_app_or in Hy. destruct Hy as [Hy|Hy].
            + exact (Hsmall_n y (Hroots_n y Hy)).
            + apply Hsmall_r. destruct Hy as [<-|Hy]; apply in_or_app; [left; exact Hcfp|right; exact (Hroots_r y Hy)].
          - intros H. apply Helr. apply in_or_app. left. exact H. }
        rewrite Hpatch. cbn [obind].
        assert (Hel1 := Hpar1 _ _ _ Hel). rewrite (replace_id_mid c c' ids _ Hcids Hcrest) in Hel1.
        assert (Hsmall_c : forall x, In x fpc -> x < next d) by (intros x Hx; apply Hsmall_r; apply in_or_app; left; exact Hx).
        assert (Hfpc'_cases : forall x, In x fpc' -> In x fpc \/ next d <= x) by exact Hfp1.
        destruct (IH (S i) d1 (ids ++ [c']) (fpn ++ fpc') fpr2) as [d2 [ids2 [fpn2 H2]]].
        { lia. } { exact Hwf1. } { lia. }
        { rewrite <- app_assoc. exact Hel1. } { exact Hk. }
        { rewrite (firstn_nth (children n) i w Hw). apply reals_app.
          - apply (reals_frame d); [exact Hrn|]. intros x Hx. apply Hfr1; [apply Hsmall_n; exact Hx| |].
            + intros Hx'. apply (Hdisj x Hx). apply in_or_app. left. exact Hx'.
            + intros ->. exact (Heln Hx).
          - apply reals_one. exact Hr1.
          - intros x Hx Hx'. destruct (Hfpc'_cases x Hx') as [Hx''|Hx''].
            + apply (Hdisj x Hx). apply in_or_app. left. exact Hx''.
            + specialize (Hsmall_n x Hx). lia. }
        { apply (reals_frame d); [exact Hrr2|]. intros x Hx. apply Hfr1.
          - apply Hsmall_r. apply in_or_app. right. exact Hx.
          - intros Hx'. exact (Hd12 x Hx' Hx).
          - intros ->. apply Helr. apply in_or_app. right. exact Hx. }
        { intros x Hx Hx2. in_app_cases Hx.
          - apply (Hdisj x Hx). apply in_or_app. right. exact Hx2.
          - destruct (Hfpc'_cases x Hx) as [Hx'|Hx'].
            + exact (Hd12 x Hx' Hx2).
            + assert (x < next d) by (apply Hsmall_r; apply in_or_app; right; exact Hx2). lia. }
        { intros Hx. in_app_cases Hx; [exact (Heln Hx)|].
          destruct (Hfpc'_cases el Hx) as [Hx'|Hx'].
          - apply Helr. apply in_or_app. left. exact Hx'.
          - lia. }
        { intros Hx. apply Helr. apply in_or_app. right. exact Hx. }
        { intros x Hx. apply Hfpr. apply in_or_app. right. exact Hx. }
        { intros x Hx. in_app_cases Hx; [exact (Hfpn x Hx)|].
          destruct (Hfpc'_cases x Hx) as [Hx'|Hx'].
          - left. apply Hfpr. apply in_or_app. left. exact Hx'.
          - right. lia. }
        { intros x Hx Hnot Hne. rewrite Hfr1; [exact (Hfr x Hx Hnot Hne)|lia| |exact Hne].
          intros Hx'. apply Hnot. apply Hfpr. apply in_or_app. left. exact Hx'. }
        exists d2, ids2, fpn2. exact H2.
      * (* the new list is shorter: [REMOVE] *)
        rewrite (proj2 (nth_error_None (children n) i) Hin).
        cbn [Render.patch diff].
        destruct (real_node _ _ _ _ _ Hrc) as [kc [csc [Hnc _]]].
        unfold removeChild. rewrite (proj2 (has_parent_spec d c el) (ex_intro _ kc (ex_intro _ csc Hnc))).
        cbn [obind].
        assert (Hcel : c <> el) by (intros ->; apply Helr; apply in_or_app; left; exact Hcfp).
        rewrite (detach_spec d c el kc csc k pe _ Hnc Hel Hcel).
        set (d1 := set_node (set_node d el (DNode k pe (remove_id c (ids ++ c :: skipn (S i) cs0)))) c
                            (DNode kc None csc)).
        assert (Hfr1 : forall x, x <> c -> x <> el -> nodes d1 x = nodes d x).
        { intros x H1 H2. unfold d1. rewrite !nodes_set.
          rewrite (proj2 (Nat.eqb_neq x c) H1), (proj2 (Nat.eqb_neq x el) H2). reflexivity. }
        destruct (IH (S i) d1 ids fpn fpr2) as [d2 [ids2 [fpn2 H2]]].
        { lia. } { apply wf_set; [apply wf_set; [exact Hwf|lia]|]. simpl. apply Hsmall_r. apply in_or_app. left. exact Hcfp. }
        { simpl. lia. }
        { unfold d1. rewrite !nodes_set. rewrite (proj2 (Nat.eqb_neq el c) (not_eq_sym Hcel)), Nat.eqb_refl.
          rewrite (remove_id_mid c ids _ Hcids Hcrest). reflexivity. }
        { exact Hk. }
        { rewrite (firstn_all2 (n := S i) (children n)) by lia. rewrite (firstn_all2 (children n)) in Hrn by lia.
          apply (reals_frame d); [exact Hrn|]. intros x Hx. apply Hfr1.
          - intros ->. apply (Hdisj c Hx). apply in_or_app. left. exact Hcfp.
          - intros ->. exact (Heln Hx). }
        { apply (reals_frame d); [exact Hrr2|]. intros x Hx. apply Hfr1.
          - intros ->. exact (Hd12 c Hcfp Hx).
          - intros ->. apply Helr. apply in_or_app. right. exact Hx. }
        { intros x Hx Hx2. apply (Hdisj x Hx). apply in_or_app. right. exact Hx2. }
        { exact Heln. }
        { intros Hx. apply Helr. apply in_or_app. right. exact Hx. }
        { intros x Hx. apply Hfpr. apply in_or_app. right. exact Hx. }
        { exact Hfpn. }
        { intros x Hx Hnot Hne. rewrite Hfr1; [exact (Hfr x Hx Hnot Hne)| |exact Hne].
          intros ->. apply Hnot. apply Hfpr. apply in_or_app. left. exact Hcfp. }
        exists d2, ids2, fpn2. exact H2.
    + (* the old list is shorter: [CREATE] *)
      assert (Hin : i < List.length (children n)) by lia.
      destruct (nth_error (children n) i) as [w|] eqn:Hw; [|apply nth_error_None in Hw; lia].
      rewrite (proj2 (nth_error_None cs0 i) ltac:(lia)), (proj2 (nth_error_None (children o) i) Hio).
      cbn [Render.patch diff].
      rewrite (skipn_all2 cs0) in Hel by lia. rewrite app_nil_r in Hel.
      rewrite (skipn_all2 (children o)) in Hrr by lia. rewrite (skipn_all2 cs0) in Hrr by lia.
      destruct (reals_nil_inv _ _ _ _ Hrr) as [_ ->].
      destruct (createElement_ok w (Hcre w (nth_error_In _ _ Hw)) d Hwf) as [d1 [ne [fpw [Hcr [Hrw [Hwf1 [Hle1 [Hfr1 Hfpw]]]]]]]].
      rewrite Hcr. cbn [obind].
      destruct (real_node _ _ _ _ _ Hrw) as [kw [csw [Hnw _]]].
      assert (Hne_ge : next d <= ne) by (apply Hfpw; exact (real_root _ _ _ _ _ Hrw)).
      assert (Hel1 : nodes d1 el = Some (DNode k pe ids)) by (rewrite Hfr1 by lia; exact Hel).
      rewrite (appendChild_detached d1 el ne k pe ids kw csw Hel1 Hk Hnw ltac:(lia)). cbn [obind].
      set (d2 := set_node (set_node d1 el (DNode k pe (ids ++ [ne]))) ne (DNode kw (Some el) csw)).
      assert (Hwf2 : wf d2).
      { apply wf_set; [apply wf_set; [exact Hwf1|lia]|]. simpl. apply (in_wf d1 ne Hwf1). rewrite Hnw. discriminate. }
      assert (Hfr2 : forall x, x <> ne -> x <> el -> nodes d2 x = nodes d1 x).
      { intros x H1 H2. unfold d2. rewrite !nodes_set.
        rewrite (proj2 (Nat.eqb_neq x ne) H1), (proj2 (Nat.eqb_neq x el) H2). reflexivity. }
      destruct (IH (S i) d2 (ids ++ [ne]) (fpn ++ fpw) []) as [d3 [ids3 [fpn3 H3]]].
      { lia. } { exact Hwf2. } { simpl. lia. }
      { rewrite (skipn_all2 cs0) by lia. rewrite app_nil_r. unfold d2. rewrite !nodes_set.
        rewrite (proj2 (Nat.eqb_neq el ne) ltac:(lia)), Nat.eqb_refl. reflexivity. }
      { exact Hk. }
      { rewrite (firstn_nth (children n) i w Hw). apply reals_app.
        - apply (reals_frame d); [exact Hrn|]. intros x Hx.
          specialize (Hsmall_n x Hx). rewrite Hfr2 by (lia || (intros ->; exact (Heln Hx))).
          apply Hfr1. exact Hsmall_n.
        - apply reals_one. apply (real_root_change d1 d2 None (Some el) ne w fpw kw kw csw Hrw Hnw).
          + unfold d2. rewrite nodes_set, Nat.eqb_refl. reflexivity.
          + apply same_shape_refl.
          + intros x Hx Hne. apply Hfr2; [exact Hne|]. intros ->. specialize (Hfpw el Hx). lia.
        - intros x Hx Hx'. specialize (Hsmall_n x Hx). specialize (Hfpw x Hx'). lia. }
      { rewrite (skipn_all2 cs0) by lia. rewrite (skipn_all2 (children o)) by lia. constructor. }
      { intros x _ []. }
      { intros Hx. in_app_cases Hx; [exact (Heln Hx)|]. specialize (Hfpw el Hx). lia. }
      { intros []. }
      { intros x []. }
      { intros x Hx. in_app_cases Hx; [exact (Hfpn x Hx)|]. right. specialize (Hfpw x Hx). lia. }
      { intros x Hx Hnot Hne. rewrite Hfr2 by (lia || exact Hne). rewrite Hfr1 by lia. exact (Hfr x Hx Hnot Hne). }
      exists d3, ids3, fpn3. exact H3.
Qed.

(** ** The second and third loops of [patchKeyedChildren] *)

Definition minus (l r : list nat) : list nat := filter (fun y => negb (existsb (Nat.eqb y) l)) r.

Lemma minus_nil (r : list nat) : minus [] r = r.
Proof. unfold minus. induction r as [|y r IH]; simpl; [reflexivity|]. f_equal. exact IH. Qed.

Lemma minus_cons (x : nat) (l r : list nat) : minus (x :: l) r = minus l (remove_id x r).
Proof.
  unfold minus, remove_id. induction r as [|y r IH]; [reflexivity|].
  cbn [filter existsb]. destruct (Nat.eqb y x) eqn:E; cbn [orb negb].
  - exact IH.
  - cbn [filter]. destruct (existsb (Nat.eqb y) l); cbn [negb]; [exact IH|]. f_equal. exact IH.
Qed.

Lemma in_minus (y : nat) (l r : list nat) : In y (minus l r) <-> In y r /\ ~ In y l.
Proof.
  unfold minus. rewrite filter_In. split.
  - intros [H1 H2]. split; [exact H1|]. intros H. apply Bool.negb_true_iff in H2.
    assert (existsb (Nat.eqb y) l = true) by (apply existsb_exists; exists y; split; [exact H|apply Nat.eqb_refl]).
    congruence.
  - intros [H1 H2]. split; [exact H1|]. apply Bool.negb_true_iff.
    destruct (existsb (Nat.eqb y) l) eqn:E; [|reflexivity].
    apply existsb_exists in E. destruct E as [z [Hz Hyz]]. apply Nat.eqb_eq in Hyz. subst. contradiction.
Qed.

Lemma in_remove_id (y c : nat) (l : list nat) : In y (remove_id c l) <-> In y l /\ y <> c.
Proof.
  unfold remove_id. rewrite filter_In. split.
  - intros [H1 H2]. split; [exact H1|]. intros ->. rewrite Nat.eqb_refl in H2. discriminate.
  - intros [H1 H2]. split; [exact H1|]. apply Bool.negb_true_iff. apply Nat.eqb_neq. exact H2.
Qed.

Lemma insert_before_app (c r : nat) (pre l : list nat) :
  ~ In r pre -> insert_before c r (pre ++ r :: l) = pre ++ c :: r :: l.
Proof.
  induction pre as [|x pre IH]; simpl; intros H.
  - rewrite Nat.eqb_refl. reflexivity.
  - destruct (Nat.eqb_spec x r); [exfalso; apply H; left; exact e|]. f_equal. apply IH. tauto.
Qed.

Lemma is_elem_is_element (d : dom) p k pp cs :
  nodes d p = Some (DNode k pp cs) -> is_elem_kind k = true -> is_element d p = true.
Proof. intros H Hk. unfold is_element. rewrite H. destruct k; [discriminate|reflexivity]. Qed.

(** One step of [keyed_place]: after it [x] is the next child of [el]. *)
Lemma keyed_place_step (d : dom) el k pe pre r x kx px csx :
  nodes d el = Some (DNode k pe (pre ++ r)) -> is_elem_kind k = true ->
  NoDup r -> ~ In x pre -> x <> el -> (forall y, In y r -> ~ In y pre) ->
  (forall y, In y r -> exists ky csy, nodes d y = Some (DNode ky (Some el) csy)) ->
  nodes d x = Some (DNode kx px csx) -> (px = Some el \/ px = None) ->
  exists d1,
    (if opt_eqb (hd_error r) (Some x) then Some d else insertBefore d el x (hd_error r)) = Some d1 /\
    nodes d1 el = Some (DNode k pe ((pre ++ [x]) ++ remove_id x r)) /\
    nodes d1 x = Some (DNode kx (Some el) csx) /\
    (forall y, y <> el -> y <> x -> nodes d1 y = nodes d y) /\ next d1 = next d.
Proof.
  intros Hel Hk Hndr Hxp Hxel Hrp Hrpar Hnx Hpx.
  destruct (opt_eqb (hd_error r) (Some x)) eqn:Heq.
  - destruct r as [|x' r']; simpl in Heq; [discriminate|]. apply Nat.eqb_eq in Heq. subst x'.
    exists d. split; [reflexivity|].
    inversion Hndr as [|x0 l0 Hxr Hnd']; subst.
    destruct (Hrpar x (or_introl eq_refl)) as [ky [csy Hy]]. rewrite Hnx in Hy. injection Hy as -> -> ->.
    split.
    + rewrite Hel. rewrite <- app_assoc. simpl. rewrite Nat.eqb_refl. simpl. fold (remove_id x r').
      rewrite (remove_id_notin x r' Hxr). reflexivity.
    + split; [exact Hnx|]. split; [reflexivity|reflexivity].
  - assert (Hdet : exists dd, detach d x = dd /\
              nodes dd el = Some (DNode k pe (pre ++ remove_id x r)) /\
              nodes dd x = Some (DNode kx None csx) /\
              (forall y, y <> el -> y <> x -> nodes dd y = nodes d y) /\ next dd = next d).
    { destruct Hpx as [->| ->].
      - eexists. split; [exact (detach_spec d x el kx csx k pe _ Hnx Hel Hxel)|].
        rewrite !nodes_set. rewrite (proj2 (Nat.eqb_neq el x) (not_eq_sym Hxel)), Nat.eqb_refl, Nat.eqb_refl.
        rewrite remove_id_app, (remove_id_notin x pre Hxp).
        split; [reflexivity|]. split; [reflexivity|]. split; [|reflexivity].
        intros y H1 H2. rewrite !nodes_set. rewrite (proj2 (Nat.eqb_neq y x) H2), (proj2 (Nat.eqb_neq y el) H1). reflexivity.
      - exists d. split; [exact (detach_none d x kx csx Hnx)|].
        assert (Hxr : ~ In x r).
        { intros H. destruct (Hrpar x H) as [ky [csy Hy]]. rewrite Hnx in Hy. discriminate. }
        rewrite (remove_id_notin x r Hxr). auto. }
    destruct Hdet as [dd [Hdd [Hdel [Hdx [Hdfr Hdn]]]]].
    unfold insertBefore. rewrite (is_elem_is_element d el k pe _ Hel Hk). unfold node_exists. rewrite Hnx.
    assert (Href : match hd_error r with None => true | Some r0 => has_parent d r0 el end = true).
    { destruct r as [|y r']; [reflexivity|]. simpl. apply has_parent_spec. apply Hrpar. left. reflexivity. }
    rewrite Href, Heq. cbn [andb].
    unfold insert_node. rewrite Hdd, Hdel, Hdx. cbn [d_children d_kind d_parent].
    eexists. split; [reflexivity|].
    rewrite !nodes_set. rewrite (proj2 (Nat.eqb_neq el x) (not_eq_sym Hxel)), Nat.eqb_refl, Nat.eqb_refl.
    split.
    { f_equal. f_equal. rewrite <- app_assoc. simpl.
      destruct r as [|y r']; simpl.
      - rewrite app_nil_r. reflexivity.
      - simpl in Heq. apply Nat.eqb_neq in Heq.
        rewrite (proj2 (Nat.eqb_neq y x) Heq). simpl. fold (remove_id x r').
        rewrite insert_before_app by (apply Hrp; left; reflexivity). rewrite <- app_assoc. reflexivity. }
    split; [reflexivity|]. split; [|exact Hdn].
    intros y H1 H2. rewrite !nodes_set. rewrite (proj2 (Nat.eqb_neq y x) H2), (proj2 (Nat.eqb_neq y el) H1). exact (Hdfr y H1 H2).
Qed.

Lemma keyed_place_ok (el : nat) (k : dkind) (pe : option nat) :
  is_elem_kind k = true ->
  forall rest pre r d,
  nodes d el = Some (DNode k pe (pre ++ r)) ->
  NoDup rest -> NoDup r -> ~ In el rest -> ~ In el r ->
  (forall x, In x rest -> ~ In x pre) -> (forall y, In y r -> ~ In y pre) ->
  (forall y, In y r -> exists ky csy, nodes d y = Some (DNode ky (Some el) csy)) ->
  (forall x, In x rest -> exists kx px csx,
     nodes d x = Some (DNode kx px csx) /\ (px = Some el \/ px = None)) ->
  exists d', Render.keyed_place el (List.length pre) (map (fun x => Some (Some x)) rest) d = Some d' /\
    nodes d' el = Some (DNode k pe (pre ++ rest ++ minus rest r)) /\
    (forall x kx px csx, In x rest -> nodes d x = Some (DNode kx px csx) ->
       nodes d' x = Some (DNode kx (Some el) csx)) /\
    (forall y, y <> el -> ~ In y rest -> nodes d' y = nodes d y) /\ next d' = next d.
Proof.
  intros Hk. induction rest as [|x rest IH]; intros pre r d Hel Hnd Hndr Helrest Helr Hxp Hrp Hrpar Hxs.
  - exists d. simpl. rewrite minus_nil. split; [reflexivity|]. split; [exact Hel|].
    split; [intros x _ _ _ []|]. split; [reflexivity|reflexivity].
  - inversion Hnd as [|x0 l0 Hxrest Hndrest]; subst.
    destruct (Hxs x (or_introl eq_refl)) as [kx [px [csx [Hnx Hpx]]]].
    assert (Hxel : x <> el) by (intros ->; apply Helrest; left; reflexivity).
    destruct (keyed_place_step d el k pe pre r x kx px csx Hel Hk Hndr (Hxp x (or_introl eq_refl))
                Hxel Hrp Hrpar Hnx Hpx) as [d1 [Hs [Hel1 [Hx1 [Hfr1 Hn1]]]]].
    assert (Hcur : nth_error (childNodes d el) (List.length pre) = hd_error r).
    { unfold childNodes. rewrite Hel. simpl. rewrite nth_error_app2 by lia. rewrite Nat.sub_diag.
      destruct r; reflexivity. }
    destruct (IH (pre ++ [x]) (remove_id x r) d1) as [d2 [Hp2 [Hel2 [Hx2 [Hfr2 Hn2]]]]].
    { exact Hel1. } { exact Hndrest. } { apply NoDup_filter. exact Hndr. }
    { intros H. apply Helrest. right. exact H. }
    { intros H. apply in_remove_id in H. apply Helr. exact (proj1 H). }
    { intros y Hy Hy'. apply in_app_or in Hy'. destruct Hy' as [Hy'|[<-|[]]].
      - exact (Hxp y (or_intror Hy) Hy').
      - exact (Hxrest Hy). }
    { intros y Hy Hy'. apply in_remove_id in Hy. apply in_app_or in Hy'. destruct Hy' as [Hy'|[<-|[]]].
      - exact (Hrp y (proj1 Hy) Hy').
      - apply (proj2 Hy). reflexivity. }
    { intros y Hy. apply in_remove_id in Hy. destruct Hy as [Hy Hyx].
      rewrite Hfr1; [exact (Hrpar y Hy)| |exact Hyx]. intros ->. exact (Helr Hy). }
    { intros y Hy. assert (y <> x) by (intros ->; exact (Hxrest Hy)).
      rewrite Hfr1; [exact (Hxs y (or_intror Hy))| |assumption].
      intros ->. apply Helrest. right. exact Hy. }
    exists d2. split.
    { cbn [map Render.keyed_place]. rewrite Hcur.
      rewrite length_app in Hp2. simpl in Hp2. rewrite Nat.add_1_r in Hp2.
      destruct (opt_eqb (hd_error r) (Some x)).
      - injection Hs as <-. exact Hp2.
      - rewrite Hs. exact Hp2. }
    split.
    { rewrite Hel2, minus_cons. rewrite <- app_assoc. reflexivity. }
    split.
    { intros x' kx' px' csx' [<-|Hin] Hn'.
      - rewrite Hnx in Hn'. injection Hn' as <- <- <-. rewrite Hfr2; [exact Hx1|exact Hxel|exact Hxrest].
      - rewrite (Hx2 x' kx' px' csx' Hin); [reflexivity|].
        rewrite Hfr1; [exact Hn'| |].
        + intros ->. apply Helrest. right. exact Hin.
        + intros ->. exact (Hxrest Hin). }
    split.
    { intros y Hy Hyr. rewrite Hfr2; [|exact Hy|intros H; apply Hyr; right; exact H].
      apply Hfr1; [exact Hy|]. intros ->. apply Hyr. left. reflexivity. }
    rewrite Hn2. exact Hn1.
Qed.

Lemma last_map_some (l : list nat) (y : nat) : last (map Some (l ++ [y])) None = Some y.
Proof. rewrite map_app. simpl. apply last_last. Qed.

Lemma keyed_trim_ok (el : nat) (k : dkind) (pe : option nat) (ids : list nat) :
  forall fuel r d, List.length r <= fuel ->
  nodes d el = Some (DNode k pe (ids ++ r)) -> NoDup r -> ~ In el r ->
  (forall y, In y r -> ~ In y ids) ->
  (forall y, In y r -> exists ky csy, nodes d y = Some (DNode ky (Some el) csy)) ->
  exists d', Render.keyed_trim fuel el (List.length ids) d = Some d' /\
    nodes d' el = Some (DNode k pe ids) /\
    (forall y ky csy, In y r -> nodes d y = Some (DNode ky (Some el) csy) ->
       nodes d' y = Some (DNode ky None csy)) /\
    (forall y, y <> el -> ~ In y r -> nodes d' y = nodes d y) /\ next d' = next d.
Proof.
  induction fuel as [|fuel IH]; intros r d Hlen Hel Hnd Helr Hri Hrpar.
  - destruct r; [|simpl in Hlen; lia]. rewrite app_nil_r in Hel.
    exists d. simpl. unfold childNodes. rewrite Hel. simpl. rewrite Nat.ltb_irrefl.
    split; [reflexivity|]. split; [reflexivity|]. split; [intros y ky csy []|]. auto.
  - destruct r as [|y0 r0] eqn:Hr.
    + rewrite app_nil_r in Hel. exists d. simpl. unfold childNodes. rewrite Hel. simpl. rewrite Nat.ltb_irrefl.
      split; [reflexivity|]. split; [reflexivity|]. split; [intros y ky csy []|]. auto.
    + rewrite <- Hr in *. assert (Hne : r <> []) by (rewrite Hr; discriminate).
      destruct (exists_last Hne) as [r' [y Hr']]. clear y0 r0 Hr Hne. subst r.
      assert (Hyr' : ~ In y r').
      { intros H. apply NoDup_remove_2 in Hnd. rewrite app_nil_r in Hnd. exact (Hnd H). }
      assert (Hyids : ~ In y ids) by (apply Hri; apply in_or_app; right; left; reflexivity).
      assert (Hyel : y <> el) by (intros ->; apply Helr; apply in_or_app; right; left; reflexivity).
      destruct (Hrpar y ltac:(apply in_or_app; right; left; reflexivity)) as [ky [csy Hny]].
      simpl. unfold childNodes at 1. rewrite Hel. simpl.
      rewrite (proj2 (Nat.ltb_lt _ _)) by (rewrite !length_app; simpl; lia).
      unfold childNodes. rewrite Hel. simpl.
      rewrite app_assoc, (last_map_some (ids ++ r') y).
      unfold removeChild. rewrite (proj2 (has_parent_spec d y el) (ex_intro _ ky (ex_intro _ csy Hny))).
      cbn [obind]. rewrite (detach_spec d y el ky csy k pe _ Hny Hel Hyel).
      replace (ids ++ r' ++ [y]) with ((ids ++ r') ++ y :: []) by (rewrite <- app_assoc; reflexivity). rewrite (remove_id_mid y (ids ++ r') [] ltac:(rewrite in_app_iff; tauto) ltac:(simpl; tauto)).
      rewrite app_nil_r.
      set (d1 := set_node (set_node d el (DNode k pe (ids ++ r'))) y (DNode ky None csy)).
      assert (Hfr1 : forall z, z <> el -> z <> y -> nodes d1 z = nodes d z).
      { intros z H1 H2. unfold d1. rewrite !nodes_set.
        rewrite (proj2 (Nat.eqb_neq z y) H2), (proj2 (Nat.eqb_neq z el) H1). reflexivity. }
      destruct (IH r' d1) as [d2 [Ht [Hel2 [Hr2 [Hfr2 Hn2]]]]].
      { rewrite length_app in Hlen. simpl in Hlen. lia. }
      { unfold d1. rewrite !nodes_set. rewrite (proj2 (Nat.eqb_neq el y) (not_eq_sym Hyel)), Nat.eqb_refl. reflexivity. }
      { apply NoDup_app_remove_r in Hnd. exact Hnd. }
      { intros H. apply Helr. apply in_or_app. left. exact H. }
      { intros z Hz. apply Hri. apply in_or_app. left. exact Hz. }
      { intros z Hz. rewrite Hfr1.
        - apply Hrpar. apply in_or_app. left. exact Hz.
        - intros ->. apply Helr. apply in_or_app. left. exact Hz.
        - intros ->. exact (Hyr' Hz). }
      exists d2. split; [exact Ht|]. split; [exact Hel2|]. split.
      { intros z kz csz Hz Hnz. apply in_app_or in Hz. destruct Hz as [Hz|[<-|[]]].
        - apply Hr2; [exact Hz|]. rewrite Hfr1; [exact Hnz| |].
          + intros ->. apply Helr. apply in_or_app. left. exact Hz.
          + intros ->. exact (Hyr' Hz).
        - rewrite Hny in Hnz. injection Hnz as <- <-. rewrite Hfr2; [|exact Hyel|exact Hyr'].
          unfold d1. rewrite nodes_set, Nat.eqb_refl. reflexivity. }
      split.
      { intros z Hz Hzr. rewrite Hfr2; [|exact Hz|intros H; apply Hzr; apply in_or_app; left; exact H].
        apply Hfr1; [exact Hz|]. intros ->. apply Hzr. apply in_or_app. right. left. reflexivity. }
      rewrite Hn2. reflexivity.
Qed.

(** ** The first loop of [patchKeyedChildren] *)

Lemma reals_idx (d : dom) p cs vs fp : reals d p cs vs fp ->
  exists F : nat -> list nat,
    (forall i c v, nth_error cs i = Some c -> nth_error vs i = Some v -> real d p c v (F i)) /\
    (forall i j, i < List.length cs -> j < List.length cs -> i <> j -> disj (F i) (F j)) /\
    (forall x, In x fp <-> exists i, i < List.length cs /\ In x (F i)).
Proof.
  induction 1 as [p|p c cs v vs fa fb Ha Hb IH Hab].
  - exists (fun _ => []). split; [intros [|i] c v H; discriminate|].
    split; [simpl; lia|]. intros x. split; [intros []|intros [i [Hi _]]; simpl in Hi; lia].
  - destruct IH as [F [H1 [H2 H3]]].
    exists (fun i => match i with 0 => fa | S i' => F i' end).
    split; [intros [|i] c' v' Hc Hv; simpl in *; [injection Hc as <-; injection Hv as <-; exact Ha|exact (H1 i c' v' Hc Hv)]|].
    split.
    + intros [|i] [|j] Hi Hj Hij; simpl in *.
      * contradiction.
      * intros x Hx Hx'. apply (Hab x Hx). apply H3. exists j. split; [lia|exact Hx'].
      * intros x Hx Hx'. apply (Hab x Hx'). apply H3. exists i. split; [lia|exact Hx].
      * apply H2; lia.
    + intros x. rewrite in_app_iff. split.
      * intros [Hx|Hx]; [exists 0; simpl; split; [lia|exact Hx]|].
        apply H3 in Hx. destruct Hx as [i [Hi Hx]]. exists (S i). simpl. split; [lia|exact Hx].
      * intros [[|i] [Hi Hx]]; [left; exact Hx|]. right. apply H3. exists i. simpl in Hi. split; [lia|exact Hx].
Qed.

(** The footprints of the children, in child order. *)
Fixpoint gcat (G : nat -> list nat) (m : nat) : list nat :=
  match m with 0 => [] | S m' => G 0 ++ gcat (fun j => G (S j)) m' end.

Lemma in_gcat (m : nat) : forall G x, In x (gcat G m) <-> exists j, j < m /\ In x (G j).
Proof.
  induction m as [|m IH]; intros G x; simpl.
  - split; [intros []|intros [j [Hj _]]; lia].
  - rewrite in_app_iff, IH. split.
    + intros [Hx|[j [Hj Hx]]]; [exists 0; split; [lia|exact Hx]|exists (S j); split; [lia|exact Hx]].
    + intros [[|j] [Hj Hx]]; [left; exact Hx|right; exists j; split; [lia|exact Hx]].
Qed.

Lemma reals_of_idx (d : dom) p : forall ids vs (G : nat -> list nat),
  List.length ids = List.length vs ->
  (forall j x v, nth_error ids j = Some x -> nth_error vs j = Some v -> real d p x v (G j)) ->
  (forall i j, i < List.length ids -> j < List.length ids -> i <> j -> disj (G i) (G j)) ->
  reals d p ids vs (gcat G (List.length ids)).
Proof.
  induction ids as [|x ids IH]; intros [|v vs] G Hl Hr Hd; simpl in *; try discriminate; [constructor|].
  constructor.
  - exact (Hr 0 x v eq_refl eq_refl).
  - apply IH; [lia| |].
    + intros j x' v' H1 H2. exact (Hr (S j) x' v' H1 H2).
    + intros i j Hi Hj Hij. apply Hd; lia.
  - intros y Hy Hy'. apply in_gcat in Hy'. destruct Hy' as [j [Hj Hy']].
    exact (Hd 0 (S j) ltac:(lia) ltac:(lia) ltac:(lia) y Hy Hy').
Qed.

Lemma keyed_collect_app pr parent oldDom (o n : vnode) (l1 l2 : list keyedPatch) :
  forall d ne, Render.keyed_collect pr parent oldDom o n (l1 ++ l2) d ne =
  obind (Render.keyed_collect pr parent oldDom o n l1 d ne) (fun '(d1, ne1) =>
         Render.keyed_collect pr parent oldDom o n l2 d1 ne1).
Proof.
  induction l1 as [|[oi [j|] key p] l1 IH]; intros d ne; simpl; [reflexivity| |apply IH].
  destruct oi as [i|].
  - destruct (pr _ _ _ _ _) as [[d1 r]|]; simpl; [apply IH|reflexivity].
  - destruct p as [[[v|]| |v|t|pp cp]|]; simpl; try reflexivity;
      destruct (Render.createElement v d) as [[d1 c]|]; simpl; try reflexivity; apply IH.
Qed.

Lemma keyed_collect_removals pr parent oldDom (o n : vnode) used olds :
  forall s d ne, Render.keyed_collect pr parent oldDom o n (removals used s olds) d ne = Some (d, ne).
Proof.
  induction olds as [|c olds IH]; intros s d ne; simpl; [reflexivity|].
  destruct (existsb (Nat.eqb s) used); simpl; apply IH.
Qed.

Lemma array_set_end (ids : list nat) (x : nat) :
  array_set (map (fun y => Some (Some y)) ids) (List.length ids) (Some x) =
  map (fun y => Some (Some y)) (ids ++ [x]).
Proof.
  unfold array_set. rewrite length_map, Nat.ltb_irrefl, Nat.sub_diag. simpl. rewrite map_app. reflexivity.
Qed.

Lemma in_replace_id (y a b : nat) (l : list nat) :
  In y (replace_id a b l) -> y = b \/ (In y l /\ y <> a).
Proof.
  unfold replace_id. rewrite in_map_iff. intros [x [Hx Hin]].
  destruct (Nat.eqb_spec x a); [left; congruence|right; subst; auto].
Qed.

Lemma in_replace_keep (y a b : nat) (l : list nat) : In y l -> y <> a -> In y (replace_id a b l).
Proof.
  intros H Hne. unfold replace_id. apply in_map_iff. exists y. split; [|exact H].
  rewrite (proj2 (Nat.eqb_neq y a) Hne). reflexivity.
Qed.

Lemma in_replace_new (a b : nat) (l : list nat) : In a l -> In b (replace_id a b l).
Proof. intros H. unfold replace_id. apply in_map_iff. exists a. rewrite Nat.eqb_refl. auto. Qed.

Lemma nodup_replace_id (a b : nat) (l : list nat) :
  NoDup l -> ~ In b (remove_id a l) -> NoDup (replace_id a b l).
Proof.
  induction l as [|x l IH]; intros Hnd Hb; simpl; [constructor|].
  inversion Hnd as [|x0 l0 Hx Hnd']; subst.
  assert (Hb' : ~ In b (remove_id a l))
    by (intros H; apply Hb; apply in_remove_id in H; apply in_remove_id; split; [right|]; tauto).
  constructor; [|exact (IH Hnd' Hb')].
  unfold replace_id. rewrite in_map_iff. intros [y [Hy Hin]].
  destruct (Nat.eqb_spec x a) as [Hxa|Hxa]; destruct (Nat.eqb_spec y a) as [Hya|Hya].
  - apply Hx. rewrite Hxa, <- Hya. exact Hin.
  - apply Hb. apply in_remove_id. rewrite <- Hy. split; [right; exact Hin|exact Hya].
  - apply Hb. apply in_remove_id. rewrite Hy. split; [left; reflexivity|exact Hxa].
  - apply Hx. rewrite <- Hy. exact Hin.
Qed.

Lemma matched_indices_app (olds l1 l2 : list vnode) :
  matched_indices olds (l1 ++ l2) = matched_indices olds l1 ++ matched_indices olds l2.
Proof. unfold matched_indices. apply flat_map_app. Qed.

Lemma matched_indices_step (olds news : list vnode) j w :
  nth_error news j = Some w ->
  matched_indices olds (firstn (S j) news) = matched_indices olds (firstn j news) ++
    match last_with_key 0 olds (vkey w) with Some (_, i) => [i] | None => [] end.
Proof.
  intros Hw. rewrite (firstn_nth news j w Hw), matched_indices_app. unfold matched_indices at 3. simpl.
  rewrite app_nil_r. reflexivity.
Qed.

Lemma keyedCount_forallb (news : list vnode) :
  keyedCount news = List.length news -> forallb (fun c => not_nullish (vkey c)) news = true.
Proof.
  unfold keyedCount. induction news as [|c news IH]; simpl; [reflexivity|].
  assert (Hle : forall l : list vnode, List.length (filter (fun c => not_nullish (vkey c)) l) <= List.length l).
  { induction l as [|y l IHl]; simpl; [lia|]. destruct (not_nullish (vkey y)); simpl; lia. }
  destruct (not_nullish (vkey c)); simpl; intros H.
  - apply IH. lia.
  - specialize (Hle news). lia.
Qed.

Lemma diffChildren_keyed_form (olds news : list vnode) :
  keyedCount news = List.length news ->
  diffChildren olds news =
  Keyed (keyed_spec_entries olds 0 news ++ removals (matched_indices olds news) 0 olds).
Proof.
  intros H. unfold diffChildren. rewrite H, Nat.eqb_refl. simpl negb. cbv iota.
  rewrite keyedLoop_spec by (apply keyedCount_forallb; exact H). reflexivity.
Qed.

Lemma skipn_nth_inv {A : Type} (l : list A) j x l' :
  skipn j l = x :: l' -> nth_error l j = Some x /\ skipn (S j) l = l'.
Proof.
  revert l; induction j as [|j IH]; intros [|y l] H; simpl in *; try discriminate.
  - injection H as -> ->. auto.
  - exact (IH l H).
Qed.

Section KeyedCollect.
Variables (f el : nat) (k : dkind) (pe : option nat) (o n : vnode) (cs0 : list nat)
  (F : nat -> list nat) (fpo : list nat) (d0 : dom).
Hypothesis HIH : forall c, In c (children n) -> patch_ok f c.
Hypothesis Hcre : forall c, In c (children n) -> creatable c = true.
Hypothesis Hlen : List.length cs0 = List.length (children o).
Hypothesis Hk : is_elem_kind k = true.
Hypothesis Hfpo : forall x, In x fpo <-> exists i, i < List.length cs0 /\ In x (F i).
Hypothesis HFdisj : forall i j, i < List.length cs0 -> j < List.length cs0 -> i <> j -> disj (F i) (F j).
Hypothesis Hel0 : el < next d0.
Hypothesis Hfpo0 : forall x, In x fpo -> x < next d0.
Hypothesis Helfpo : ~ In el fpo.
Hypothesis Hkeys : keys_distinct (children n) = true.

(** Old index [i] is not matched by the first [j] new children. *)
Definition unm (j i : nat) : Prop := ~ In i (matched_indices (children o) (firstn j (children n))).

Definition collect_inv (j : nat) (d : dom) (ids : list nat) (G : nat -> list nat)
  (cur : list nat) : Prop :=
  wf d /\ next d0 <= next d /\
  nodes d el = Some (DNode k pe cur) /\ NoDup cur /\ List.length ids = j /\
  (forall i c v, nth_error cs0 i = Some c -> nth_error (children o) i = Some v -> unm j i ->
     real d (Some el) c v (F i) /\ In c cur) /\
  (forall y, In y cur -> (exists i, nth_error cs0 i = Some y /\ unm j i) \/ In y ids) /\
  (forall y, In y cur -> exists ky csy, nodes d y = Some (DNode ky (Some el) csy)) /\
  (forall j' x w, nth_error ids j' = Some x -> nth_error (children n) j' = Some w ->
     (real d (Some el) x w (G j') /\ In x cur) \/ real d None x w (G j')) /\
  (forall j1 j2, j1 < j -> j2 < j -> j1 <> j2 -> disj (G j1) (G j2)) /\
  (forall j' i, j' < j -> i < List.length cs0 -> unm j i -> disj (G j') (F i)) /\
  (forall j' x, j' < j -> In x (G j') -> In x fpo \/ next d0 <= x) /\
  (forall j', j' < j -> ~ In el (G j')) /\
  (forall x, x < next d0 -> ~ In x fpo -> x <> el -> nodes d x = nodes d0 x).

Lemma F_fpo i x : i < List.length cs0 -> In x (F i) -> In x fpo.
Proof. intros Hi Hx. apply Hfpo. eauto. Qed.

Lemma item_facts j d ids G cur : collect_inv j d ids G cur -> j <= List.length (children n) ->
  forall j', j' < j -> exists x w, nth_error ids j' = Some x /\ nth_error (children n) j' = Some w /\
    In x (G j') /\ (forall z, In z (G j') -> z < next d) /\
    ((real d (Some el) x w (G j') /\ In x cur) \/ real d None x w (G j')).
Proof.
  intros (Hwf & Hle & Hel & Hnd & Hlid & Hunm & Hcur & Hpar & Hit & Hgd & Hgf & Hgfp & Hgel & Hfr) Hj j' Hj'.
  destruct (nth_error ids j') as [x|] eqn:Hx; [|apply nth_error_None in Hx; lia].
  destruct (nth_error (children n) j') as [w|] eqn:Hw; [|apply nth_error_None in Hw; lia].
  exists x, w. split; [reflexivity|]. split; [reflexivity|].
  destruct (Hit j' x w Hx Hw) as [[Hr Hin]|Hr].
  - split; [exact (real_root _ _ _ _ _ Hr)|]. split; [exact (real_small _ _ _ _ _ Hwf Hr)|]. left. auto.
  - split; [exact (real_root _ _ _ _ _ Hr)|]. split; [exact (real_small _ _ _ _ _ Hwf Hr)|]. right. auto.
Qed.

Lemma cur_class j d ids G cur : collect_inv j d ids G cur -> j <= List.length (children n) ->
  forall y, In y cur -> y <> el /\ y < next d /\
    ((exists i, i < List.length cs0 /\ unm j i /\ nth_error cs0 i = Some y /\ In y (F i)) \/
     (exists j', j' < j /\ nth_error ids j' = Some y /\ In y (G j'))).
Proof.
  intros Hinv Hj y Hy. assert (Hinv' := Hinv).
  destruct Hinv' as (Hwf & Hle & Hel & Hnd & Hlid & Hunm & Hcur & Hpar & Hit & Hgd & Hgf & Hgfp & Hgel & Hfr).
  assert (Hsmall : y < next d).
  { destruct (Hpar y Hy) as [ky [csy Hn]]. apply (in_wf d y Hwf). rewrite Hn. discriminate. }
  destruct (Hcur y Hy) as [[i [Hi Hu]]|Hids].
  - assert (Hil : i < List.length cs0) by (apply nth_error_Some; congruence).
    destruct (nth_error (children o) i) as [v|] eqn:Hv; [|apply nth_error_None in Hv; lia].
    destruct (Hunm i y v Hi Hv Hu) as [Hr _].
    assert (HyF : In y (F i)) by exact (real_root _ _ _ _ _ Hr).
    split; [intros ->; exact (Helfpo (F_fpo i el Hil HyF))|]. split; [exact Hsmall|].
    left. exists i. auto.
  - destruct (In_nth_error ids y Hids) as [j' Hj'].
    assert (Hj'l : j' < j) by (rewrite <- Hlid; apply nth_error_Some; congruence).
    destruct (item_facts j d ids G cur Hinv Hj j' Hj'l) as [x [w [Hx [Hw [HxG _]]]]].
    rewrite Hj' in Hx. injection Hx as <-.
    split; [intros ->; exact (Hgel j' Hj'l HxG)|]. split; [exact Hsmall|].
    right. exists j'. auto.
Qed.

Lemma collect_step j d ids G cur w es :
  j < List.length (children n) -> nth_error (children n) j = Some w ->
  collect_inv j d ids G cur ->
  exists d' x G' cur',
    Render.keyed_collect (Render.patch f) el cs0 o n (keyed_spec_entry (children o) j w :: es) d
      (map (fun y => Some (Some y)) ids) =
    Render.keyed_collect (Render.patch f) el cs0 o n es d' (map (fun y => Some (Some y)) (ids ++ [x])) /\
    collect_inv (S j) d' (ids ++ [x]) G' cur'.
Proof.
  intros Hj Hw Hinv.
  assert (Hcc := cur_class j d ids G cur Hinv ltac:(lia)).
  assert (Hif := item_facts j d ids G cur Hinv ltac:(lia)).
  destruct Hinv as (Hwf & Hle & Hel & Hnd & Hlid & Hunm & Hcur & Hpar & Hit & Hgd & Hgf & Hgfp & Hgel & Hfr).
  assert (HU := matched_indices_step (children o) (children n) j w Hw).
  assert (HndU : NoDup (matched_indices (children o) (firstn (S j) (children n)))).
  { apply (NoDup_app_remove_r _ (matched_indices (children o) (skipn (S j) (children n)))).
    rewrite <- matched_indices_app, firstn_skipn. apply matched_indices_NoDup. exact Hkeys. }
  assert (Hgsmall : forall j' z, j' < j -> In z (G j') -> z < next d).
  { intros j' z Hj' Hz. destruct (Hif j' Hj') as [x [w' [_ [_ [_ [Hs _]]]]]]. exact (Hs z Hz). }
  unfold keyed_spec_entry. destruct (last_with_key 0 (children o) (vkey w)) as [[ov i]|] eqn:Hl.
  - (* an old child with the key: patched in place *)
    destruct (last_with_key_some _ _ _ _ _ Hl) as [_ [Hv _]]. rewrite Nat.sub_0_r in Hv.
    assert (Hil : i < List.length cs0) by (rewrite Hlen; apply nth_error_Some; congruence).
    destruct (nth_error cs0 i) as [c|] eqn:Hc; [|apply nth_error_None in Hc; lia].
    assert (Hui : unm j i).
    { unfold unm. rewrite HU in HndU. apply NoDup_remove_2 in HndU. rewrite app_nil_r in HndU. exact HndU. }
    assert (Hunm' : forall i', unm (S j) i' <-> unm j i' /\ i' <> i).
    { intros i'. unfold unm. rewrite HU, in_app_iff. simpl. split.
      - intros H. split; [tauto|]. intros ->. tauto.
      - intros [H1 H2] [H|[H|[]]]; [exact (H1 H)|exact (H2 (eq_sym H))]. }
    destruct (Hunm i c ov Hc Hv Hui) as [Hrc Hcin].
    assert (HcF : In c (F i)) by exact (real_root _ _ _ _ _ Hrc).
    assert (HFi : forall x, In x (F i) -> In x fpo) by (intros x Hx; exact (F_fpo i x Hil Hx)).
    assert (Hcur_nF : forall y, In y cur -> y <> c -> ~ In y (F i)).
    { intros y Hy Hyc HyF. destruct (Hcc y Hy) as [_ [_ [[i' [Hi' [Hu' [Hc' HyF']]]]|[j' [Hj' [_ HyG]]]]]].
      - destruct (Nat.eq_dec i' i) as [->|Hne]; [rewrite Hc in Hc'; congruence|].
        exact (HFdisj i' i Hi' Hil Hne y HyF' HyF).
      - exact (Hgf j' i Hj' Hil Hui y HyG HyF). }
    assert (Hpok : patch_ok f w) by (apply HIH; exact (nth_error_In _ _ Hw)).
    destruct (Hpok d el c ov (F i) Hwf Hrc) as [d1 [c' [fpc' [Hpatch [Hr1 [Hwf1 [Hle1 [Hfr1 [Hfp1 Hpar1]]]]]]]]].
    { exists k, pe, cur. split; [exact Hel|]. split; [exact Hk|]. split; [exact Hcin|].
      split; [exact Hnd|]. split; [intros y Hy; exact (proj1 (proj2 (Hcc y Hy)))|].
      intros H. exact (Helfpo (HFi el H)). }
    exists d1, c', (fun j' => if Nat.eqb j' j then fpc' else G j'), (replace_id c c' cur).
    split.
    { cbn [Render.keyed_collect]. rewrite Hc, Hv, Hw, Hpatch. cbn [obind]. rewrite <- Hlid, array_set_end. reflexivity. }
    assert (Hfp1' : forall x, In x fpc' -> In x (F i) \/ next d <= x) by exact Hfp1.
    assert (Hfr1' : forall x, x < next d -> ~ In x (F i) -> x <> el -> nodes d1 x = nodes d x) by exact Hfr1.
    assert (Hel1 := Hpar1 _ _ _ Hel).
    assert (Helfpc : ~ In el fpc').
    { intros H. destruct (Hfp1' el H) as [H'|H']; [exact (Helfpo (HFi el H'))|lia]. }
    assert (Hgj_fpc : forall j', j' < j -> disj (G j') fpc').
    { intros j' Hj' z Hz Hz'. destruct (Hfp1' z Hz') as [H'|H'].
      - exact (Hgf j' i Hj' Hil Hui z Hz H').
      - specialize (Hgsmall j' z Hj' Hz). lia. }
    unfold collect_inv. split; [exact Hwf1|]. split; [lia|]. split; [exact Hel1|]. split.
    { apply nodup_replace_id; [exact Hnd|]. intros H. apply in_remove_id in H. destruct H as [H Hne].
      destruct (Hcc c' H) as [_ [Hs _]].
      destruct (Hfp1' c' (real_root _ _ _ _ _ Hr1)) as [H'|H']; [exact (Hcur_nF c' H Hne H')|lia]. }
    split; [rewrite length_app; simpl; lia|]. split.
    { intros i' c2 v2 Hc2 Hv2 Hu2. apply Hunm' in Hu2. destruct Hu2 as [Hu2 Hne].
      destruct (Hunm i' c2 v2 Hc2 Hv2 Hu2) as [Hr2 Hin2].
      assert (Hil' : i' < List.length cs0) by (apply nth_error_Some; congruence).
      split.
      - apply (real_frame d); [exact Hr2|]. intros x Hx. apply Hfr1'.
        + specialize (Hfpo0 x (F_fpo i' x Hil' Hx)). lia.
        + exact (HFdisj i' i Hil' Hil Hne x Hx).
        + intros ->. exact (Helfpo (F_fpo i' el Hil' Hx)).
      - apply in_replace_keep; [exact Hin2|]. intros ->.
        exact (HFdisj i' i Hil' Hil Hne c (real_root _ _ _ _ _ Hr2) HcF). }
    split.
    { intros y Hy. apply in_replace_id in Hy. destruct Hy as [->|[Hy Hne]].
      - right. apply in_or_app. right. left. reflexivity.
      - destruct (Hcur y Hy) as [[i' [Hi' Hu']]|Hids].
        + left. exists i'. split; [exact Hi'|]. apply Hunm'. split; [exact Hu'|].
          intros ->. rewrite Hc in Hi'. congruence.
        + right. apply in_or_app. left. exact Hids. }
    split.
    { intros y Hy. apply in_replace_id in Hy. destruct Hy as [->|[Hy Hne]].
      - destruct (real_node _ _ _ _ _ Hr1) as [kc [csc [Hn _]]]. eauto.
      - destruct (Hcc y Hy) as [Hyel [Hys _]]. rewrite Hfr1'; [exact (Hpar y Hy)|exact Hys| |exact Hyel].
        exact (Hcur_nF y Hy Hne). }
    split.
    { intros j' x w' Hx Hw'.
      assert (Hj'l : j' < S j) by (rewrite <- Hlid; rewrite <- (Nat.add_1_r (List.length ids)), <- (length_app ids [c']) at 1; apply nth_error_Some; congruence).
      destruct (Nat.lt_ge_cases j' j) as [Hlt|Hge].
      + rewrite nth_error_app1 in Hx by lia. rewrite (proj2 (Nat.eqb_neq j' j) ltac:(lia)).
        destruct (Hif j' Hlt) as [x0 [w0 [Hx0 [Hw0 [HxG [Hs Hcases]]]]]].
        rewrite Hx in Hx0. injection Hx0 as <-. rewrite Hw' in Hw0. injection Hw0 as <-.
        assert (Hfrm : forall z, In z (G j') -> nodes d1 z = nodes d z).
        { intros z Hz. apply Hfr1'; [exact (Hs z Hz)|exact (Hgf j' i Hlt Hil Hui z Hz)|].
          intros ->. exact (Hgel j' Hlt Hz). }
        destruct Hcases as [[Hr Hin]|Hr].
        * left. split; [exact (real_frame d d1 _ _ _ _ Hr Hfrm)|].
          apply in_replace_keep; [exact Hin|]. intros ->. exact (Hgf j' i Hlt Hil Hui c HxG HcF).
        * right. exact (real_frame d d1 _ _ _ _ Hr Hfrm).
      + assert (j' = j) as -> by lia. rewrite nth_error_app2 in Hx by lia.
        rewrite Hlid, Nat.sub_diag in Hx. injection Hx as <-. rewrite Hw in Hw'. injection Hw' as <-.
        rewrite Nat.eqb_refl. left. split; [exact Hr1|]. apply in_replace_new. exact Hcin. }
    split.
    { intros j1 j2 Hj1 Hj2 Hne.
      destruct (Nat.eqb_spec j1 j) as [->|Hn1]; destruct (Nat.eqb_spec j2 j) as [->|Hn2].
      - contradiction.
      - intros z Hz Hz'. exact (Hgj_fpc j2 ltac:(lia) z Hz' Hz).
      - exact (Hgj_fpc j1 ltac:(lia)).
      - apply Hgd; lia. }
    split.
    { intros j' i' Hj' Hi' Hu'. apply Hunm' in Hu'. destruct Hu' as [Hu' Hne].
      destruct (Nat.eqb_spec j' j) as [->|Hn].
      - intros z Hz Hz'. destruct (Hfp1' z Hz) as [H'|H'].
        + exact (HFdisj i i' Hil Hi' (not_eq_sym Hne) z H' Hz').
        + specialize (Hfpo0 z (F_fpo i' z Hi' Hz')). lia.
      - apply Hgf; [lia|exact Hi'|exact Hu']. }
    split.
    { intros j' x Hj' Hx. destruct (Nat.eqb_spec j' j) as [->|Hn].
      - destruct (Hfp1' x Hx) as [H'|H']; [left; exact (HFi x H')|right; lia].
      - apply (Hgfp j'); [lia|exact Hx]. }
    split.
    { intros j' Hj'. destruct (Nat.eqb_spec j' j) as [->|Hn]; [exact Helfpc|]. apply Hgel. lia. }
    intros x Hx Hnot Hne. rewrite Hfr1'; [exact (Hfr x Hx Hnot Hne)|lia| |exact Hne].
    intros H. exact (Hnot (HFi x H)).
  - (* no old child with the key: [CREATE] *)
    assert (Hunm' : forall i', unm (S j) i' <-> unm j i').
    { intros i'. unfold unm. rewrite HU, app_nil_r. reflexivity. }
    destruct (createElement_ok w (Hcre w (nth_error_In _ _ Hw)) d Hwf) as [d1 [ne [fpw [Hcr [Hrw [Hwf1 [Hle1 [Hfr1 Hfpw]]]]]]]].
    exists d1, ne, (fun j' => if Nat.eqb j' j then fpw else G j'), cur.
    split.
    { cbn [Render.keyed_collect]. rewrite Hcr. cbn [obind]. rewrite <- Hlid, array_set_end. reflexivity. }
    assert (Hel1 : nodes d1 el = Some (DNode k pe cur)) by (rewrite Hfr1 by lia; exact Hel).
    unfold collect_inv. split; [exact Hwf1|]. split; [lia|]. split; [exact Hel1|]. split; [exact Hnd|].
    split; [rewrite length_app; simpl; lia|]. split.
    { intros i' c2 v2 Hc2 Hv2 Hu2. apply Hunm' in Hu2.
      destruct (Hunm i' c2 v2 Hc2 Hv2 Hu2) as [Hr2 Hin2].
      assert (Hil' : i' < List.length cs0) by (apply nth_error_Some; congruence).
      split; [|exact Hin2]. apply (real_frame d); [exact Hr2|]. intros x Hx. apply Hfr1.
      specialize (Hfpo0 x (F_fpo i' x Hil' Hx)). lia. }
    split.
    { intros y Hy. destruct (Hcur y Hy) as [[i' [Hi' Hu']]|Hids].
      - left. exists i'. split; [exact Hi'|]. apply Hunm'. exact Hu'.
      - right. apply in_or_app. left. exact Hids. }
    split.
    { intros y Hy. destruct (Hcc y Hy) as [_ [Hys _]]. rewrite Hfr1 by exact Hys. exact (Hpar y Hy). }
    split.
    { intros j' x w' Hx Hw'.
      assert (Hj'l : j' < S j) by (rewrite <- Hlid; rewrite <- (Nat.add_1_r (List.length ids)), <- (length_app ids [ne]) at 1; apply nth_error_Some; congruence).
      destruct (Nat.lt_ge_cases j' j) as [Hlt|Hge].
      + rewrite nth_error_app1 in Hx by lia. rewrite (proj2 (Nat.eqb_neq j' j) ltac:(lia)).
        destruct (Hif j' Hlt) as [x0 [w0 [Hx0 [Hw0 [HxG [Hs Hcases]]]]]].
        rewrite Hx in Hx0. injection Hx0 as <-. rewrite Hw' in Hw0. injection Hw0 as <-.
        assert (Hfrm : forall z, In z (G j') -> nodes d1 z = nodes d z) by (intros z Hz; apply Hfr1; exact (Hs z Hz)).
        destruct Hcases as [[Hr Hin]|Hr].
        * left. split; [exact (real_frame d d1 _ _ _ _ Hr Hfrm)|exact Hin].
        * right. exact (real_frame d d1 _ _ _ _ Hr Hfrm).
      + assert (j' = j) as -> by lia. rewrite nth_error_app2 in Hx by lia.
        rewrite Hlid, Nat.sub_diag in Hx. injection Hx as <-. rewrite Hw in Hw'. injection Hw' as <-.
        rewrite Nat.eqb_refl. right. exact Hrw. }
    assert (Hgj_fpw : forall j', j' < j -> disj (G j') fpw).
    { intros j' Hj' z Hz Hz'. specialize (Hgsmall j' z Hj' Hz). specialize (Hfpw z Hz'). lia. }
    split.
    { intros j1 j2 Hj1 Hj2 Hne.
      destruct (Nat.eqb_spec j1 j) as [->|Hn1]; destruct (Nat.eqb_spec j2 j) as [->|Hn2].
      - contradiction.
      - intros z Hz Hz'. exact (Hgj_fpw j2 ltac:(lia) z Hz' Hz).
      - exact (Hgj_fpw j1 ltac:(lia)).
      - apply Hgd; lia. }
    split.
    { intros j' i' Hj' Hi' Hu'. apply Hunm' in Hu'.
      destruct (Nat.eqb_spec j' j) as [->|Hn].
      - intros z Hz Hz'. specialize (Hfpw z Hz). specialize (Hfpo0 z (F_fpo i' z Hi' Hz')). lia.
      - apply Hgf; [lia|exact Hi'|exact Hu']. }
    split.
    { intros j' x Hj' Hx. destruct (Nat.eqb_spec j' j) as [->|Hn].
      - right. specialize (Hfpw x Hx). lia.
      - apply (Hgfp j'); [lia|exact Hx]. }
    split.
    { intros j' Hj'. destruct (Nat.eqb_spec j' j) as [->|Hn].
      - intros H. specialize (Hfpw el H). lia.
      - apply Hgel. lia. }
    intros x Hx Hnot Hne. rewrite Hfr1 by lia. exact (Hfr x Hx Hnot Hne).
Qed.

Lemma collect_loop : forall ns j d ids G cur,
  j + List.length ns = List.length (children n) -> skipn j (children n) = ns ->
  collect_inv j d ids G cur ->
  exists d' ids' G' cur',
    Render.keyed_collect (Render.patch f) el cs0 o n (keyed_spec_entries (children o) j ns) d
      (map (fun y => Some (Some y)) ids) = Some (d', map (fun y => Some (Some y)) ids') /\
    collect_inv (List.length (children n)) d' ids' G' cur'.
Proof.
  induction ns as [|w ns IH]; intros j d ids G cur Hj Hs Hinv.
  - simpl in Hj. rewrite Nat.add_0_r in Hj. subst j. exists d, ids, G, cur. split; [reflexivity|exact Hinv].
  - simpl in Hj.
    destruct (skipn_nth_inv (children n) j w ns Hs) as [Hw Hs'].
    destruct (collect_step j d ids G cur w (keyed_spec_entries (children o) (S j) ns) ltac:(lia) Hw Hinv)
      as [d1 [x [G1 [cur1 [Heq Hinv1]]]]].
    simpl keyed_spec_entries. rewrite Heq.
    exact (IH (S j) d1 (ids ++ [x]) G1 cur1 ltac:(lia) Hs' Hinv1).
Qed.

Lemma keyed_children_ok :
  wf d0 -> nodes d0 el = Some (DNode k pe cs0) -> NoDup cs0 ->
  (forall i c v, nth_error cs0 i = Some c -> nth_error (children o) i = Some v ->
     real d0 (Some el) c v (F i)) ->
  exists d' ids fpn,
    Render.patchKeyedChildren (Render.patch f) el
      (keyed_spec_entries (children o) 0 (children n) ++
       removals (matched_indices (children o) (children n)) 0 (children o)) o n d0 = Some d' /\
    nodes d' el = Some (DNode k pe ids) /\ reals d' (Some el) ids (children n) fpn /\
    ~ In el fpn /\ wf d' /\ next d0 <= next d' /\
    (forall x, x < next d0 -> ~ In x fpo -> x <> el -> nodes d' x = nodes d0 x) /\
    (forall x, In x fpn -> In x fpo \/ next d0 <= x).
Proof.
  intros Hwf0 Hn0 Hnd0 HF.
  assert (Hinit : collect_inv 0 d0 [] (fun _ => []) cs0).
  { unfold collect_inv. split; [exact Hwf0|]. split; [lia|]. split; [exact Hn0|]. split; [exact Hnd0|].
    split; [reflexivity|]. split.
    { intros i c v Hc Hv _. split; [exact (HF i c v Hc Hv)|exact (nth_error_In _ _ Hc)]. }
    split.
    { intros y Hy. left. destruct (In_nth_error cs0 y Hy) as [i Hi]. exists i. split; [exact Hi|].
      unfold unm. simpl. tauto. }
    split.
    { intros y Hy. destruct (In_nth_error cs0 y Hy) as [i Hi].
      assert (Hil : i < List.length (children o)) by (rewrite <- Hlen; apply nth_error_Some; congruence).
      destruct (nth_error (children o) i) as [v|] eqn:Hv; [|apply nth_error_None in Hv; lia].
      destruct (real_node _ _ _ _ _ (HF i y v Hi Hv)) as [ky [csy [Hy' _]]]. eauto. }
    split; [intros [|j'] x w Hx; discriminate|].
    split; [intros; lia|]. split; [intros; lia|]. split; [intros; lia|]. split; [intros; lia|].
    intros. reflexivity. }
  destruct (collect_loop (children n) 0 d0 [] (fun _ => []) cs0 eq_refl eq_refl Hinit)
    as [d1 [ids [G [cur [Hloop Hinv]]]]].
  assert (Hcc := cur_class _ _ _ _ _ Hinv (le_n _)).
  assert (Hif := item_facts _ _ _ _ _ Hinv (le_n _)).
  destruct Hinv as (Hwf & Hle & Hel & Hnd & Hlid & Hunm & Hcur & Hpar & Hit & Hgd & Hgf & Hgfp & Hgel & Hfr).
  assert (Hids_G : forall j x, nth_error ids j = Some x -> j < List.length (children n) /\ In x (G j)).
  { intros j x Hx. assert (Hj : j < List.length (children n)) by (rewrite <- Hlid; apply nth_error_Some; congruence).
    split; [exact Hj|]. destruct (Hif j Hj) as [x' [w [Hx' [_ [HxG _]]]]]. rewrite Hx in Hx'. injection Hx' as <-. exact HxG. }
  assert (Hndids : NoDup ids).
  { apply NoDup_nth_error. intros i j Hi Hij. destruct (nth_error ids i) as [x|] eqn:Hx; [|apply nth_error_None in Hx; lia].
    destruct (Nat.eq_dec i j) as [->|Hne]; [reflexivity|]. exfalso.
    destruct (Hids_G i x Hx) as [Hi' HxG]. destruct (Hids_G j x (eq_sym Hij)) as [Hj' HxG'].
    exact (Hgd i j Hi' Hj' Hne x HxG HxG'). }
  assert (Hin_ids : forall x, In x ids -> exists j, j < List.length (children n) /\ nth_error ids j = Some x /\ In x (G j)).
  { intros x Hx. destruct (In_nth_error ids x Hx) as [j Hj]. exists j. destruct (Hids_G j x Hj). auto. }
  assert (Helids : ~ In el ids).
  { intros H. destruct (Hin_ids el H) as [j [Hj [_ HG]]]. exact (Hgel j Hj HG). }
  assert (Helcur : ~ In el cur) by (intros H; exact (proj1 (Hcc el H) eq_refl)).
  destruct (keyed_place_ok el k pe Hk ids [] cur d1) as [d2 [Hp2 [Hel2 [Hx2 [Hfr2 Hn2]]]]].
  { exact Hel. } { exact Hndids. } { exact Hnd. } { exact Helids. } { exact Helcur. }
  { intros x _ []. } { intros y _ []. } { exact Hpar. }
  { intros x Hx. destruct (Hin_ids x Hx) as [j [Hj [Hxj _]]].
    destruct (Hif j Hj) as [x' [w [Hx' [_ [_ [_ Hcases]]]]]]. rewrite Hxj in Hx'. injection Hx' as <-.
    destruct Hcases as [[Hr _]|Hr]; destruct (real_node _ _ _ _ _ Hr) as [kx [csx [Hnx _]]];
      exists kx; eexists; exists csx; split; [exact Hnx|left; reflexivity|exact Hnx|right; reflexivity]. }
  simpl in Hp2, Hel2.
  set (r := minus ids cur) in *.
  assert (Hr_cur : forall y, In y r -> In y cur /\ ~ In y ids) by (intros y Hy; exact (proj1 (in_minus y ids cur) Hy)).
  assert (Hr_F : forall y, In y r -> exists i, i < List.length cs0 /\ unm (List.length (children n)) i /\ In y (F i)).
  { intros y Hy. destruct (Hr_cur y Hy) as [Hyc Hyi].
    destruct (Hcc y Hyc) as [_ [_ [[i [Hi [Hu [_ HyF]]]]|[j [_ [Hyj _]]]]]].
    - exists i. auto.
    - exfalso. exact (Hyi (nth_error_In _ _ Hyj)). }
  destruct (keyed_trim_ok el k pe ids (List.length (ids ++ r)) r d2) as [d3 [Ht3 [Hel3 [Hr3 [Hfr3 Hn3]]]]].
  { rewrite length_app. lia. } { exact Hel2. } { apply NoDup_filter. exact Hnd. }
  { intros H. exact (Helcur (proj1 (Hr_cur el H))). }
  { intros y Hy. exact (proj2 (Hr_cur y Hy)). }
  { intros y Hy. destruct (Hr_cur y Hy) as [Hyc Hyi]. rewrite Hfr2; [exact (Hpar y Hyc)| |exact Hyi].
    intros ->. exact (Helcur Hyc). }
  (* nodes of the new subtrees other than their roots are left alone *)
  assert (Hkeep : forall j z, j < List.length (children n) -> In z (G j) -> ~ In z ids \/ nth_error ids j = Some z ->
            z <> el /\ ~ In z r).
  { intros j z Hj Hz _. split; [intros ->; exact (Hgel j Hj Hz)|].
    intros Hzr. destruct (Hr_F z Hzr) as [i [Hi [Hu HzF]]]. exact (Hgf j i Hj Hi Hu z Hz HzF). }
  exists d3, ids, (gcat G (List.length ids)).
  split.
  { unfold Render.patchKeyedChildren. cbv zeta.
    replace (childNodes d0 el) with cs0 by (unfold childNodes; rewrite Hn0; reflexivity).
    cbn [map] in Hloop. rewrite keyed_collect_app, Hloop. cbn [obind]. rewrite keyed_collect_removals. cbn [obind].
    rewrite Hp2. cbn [obind]. rewrite length_map.
    unfold childNodes. rewrite Hel2. exact Ht3. }
  split; [exact Hel3|].
  split.
  { apply reals_of_idx; [lia| |].
    - intros j x w Hx Hw. destruct (Hids_G j x Hx) as [Hj HxG].
      destruct (Hif j Hj) as [x' [w' [Hx' [Hw' [_ [_ Hcases]]]]]].
      rewrite Hx in Hx'. injection Hx' as <-. rewrite Hw in Hw'. injection Hw' as <-.
      assert (Hreal : exists px, real d1 px x w (G j)) by (destruct Hcases as [[Hr _]|Hr]; eauto).
      destruct Hreal as [px Hr].
      destruct (real_node _ _ _ _ _ Hr) as [kx [csx [Hnx _]]].
      apply (real_root_change d1 d3 px (Some el) x w (G j) kx kx csx Hr Hnx).
      + rewrite Hfr3; [|intros ->; exact (Helids (nth_error_In _ _ Hx))|intros H; exact (proj2 (Hr_cur x H) (nth_error_In _ _ Hx))].
        exact (Hx2 x kx px csx (nth_error_In _ _ Hx) Hnx).
      + apply same_shape_refl.
      + intros z Hz Hzx.
        assert (Hzids : ~ In z ids).
        { intros Hzi. destruct (Hin_ids z Hzi) as [j2 [Hj2 [Hzj2 HzG2]]].
          destruct (Nat.eq_dec j2 j) as [->|Hne]; [rewrite Hx in Hzj2; injection Hzj2 as ->; exact (Hzx eq_refl)|].
          exact (Hgd j2 j Hj2 Hj Hne z HzG2 Hz). }
        destruct (Hkeep j z Hj Hz (or_introl Hzids)) as [Hzel Hzr].
        rewrite Hfr3 by assumption. apply Hfr2; assumption.
    - intros i j Hi Hj Hne. apply Hgd; lia. }
  split.
  { intros H. apply in_gcat in H. destruct H as [j [Hj HG]]. exact (Hgel j ltac:(lia) HG). }
  assert (Hsmall_r : forall y, In y r -> y < next d1).
  { intros y Hy. exact (proj1 (proj2 (Hcc y (proj1 (Hr_cur y Hy))))). }
  assert (Hsmall_ids : forall y, In y ids -> y < next d1).
  { intros y Hy. destruct (Hin_ids y Hy) as [j [Hj [_ HyG]]].
    destruct (Hif j Hj) as [x' [w' [_ [_ [_ [Hs _]]]]]]. exact (Hs y HyG). }
  split.
  { intros y Hy. rewrite Hn3, Hn2 in Hy.
    assert (Hyel : y <> el) by lia.
    assert (Hyr : ~ In y r) by (intros H; specialize (Hsmall_r y H); lia).
    assert (Hyi : ~ In y ids) by (intros H; specialize (Hsmall_ids y H); lia).
    rewrite Hfr3 by assumption. rewrite Hfr2 by assumption. exact (Hwf y Hy). }
  split; [rewrite Hn3, Hn2; exact Hle|].
  split.
  { intros x Hx Hnot Hne.
    assert (Hxr : ~ In x r).
    { intros H. destruct (Hr_F x H) as [i [Hi [_ HxF]]]. exact (Hnot (F_fpo i x Hi HxF)). }
    assert (Hxi : ~ In x ids).
    { intros H. destruct (Hin_ids x H) as [j [Hj [_ HxG]]].
      destruct (Hgfp j x Hj HxG) as [H'|H']; [exact (Hnot H')|lia]. }
    rewrite Hfr3 by assumption. rewrite Hfr2 by assumption. exact (Hfr x Hx Hnot Hne). }
  intros x Hx. apply in_gcat in Hx. destruct Hx as [j [Hj HxG]]. exact (Hgfp j x ltac:(lia) HxG).
Qed.

End KeyedCollect.

(** ** [patch] *)

Lemma keyed_spec_entries_length (olds news : list vnode) j :
  List.length (keyed_spec_entries olds j news) = List.length news.
Proof. revert j; induction news as [|c news IH]; intros j; simpl; [reflexivity|]. rewrite IH. reflexivity. Qed.

Lemma removals_nil_length (olds : list vnode) s : List.length (removals [] s olds) = List.length olds.
Proof. revert s; induction olds as [|c olds IH]; intros s; simpl; [reflexivity|]. rewrite IH. reflexivity. Qed.

Lemma cp_zero (olds news : list vnode) :
  cp_patches_length (diffChildren olds news) = 0 -> olds = [] /\ news = [].
Proof.
  destruct (Nat.eqb (keyedCount news) (List.length news)) eqn:Hkc.
  - apply Nat.eqb_eq in Hkc. rewrite (diffChildren_keyed_form olds news Hkc). simpl.
    rewrite length_app, keyed_spec_entries_length. intros H.
    destruct news as [|c news]; [|simpl in H; lia]. simpl in H. unfold matched_indices in H. simpl in H.
    rewrite removals_nil_length in H. destruct olds; [auto|simpl in H; lia].
  - unfold diffChildren. rewrite Hkc. simpl. rewrite positional_length. intros H.
    split; apply length_zero_iff_nil; lia.
Qed.

Lemma vdepth_pos (v : vnode) : 1 <= vdepth v.
Proof. destruct v; simpl; lia. Qed.

(** The attribute step of an [UPDATE] returns on a renderable vnode. *)
Lemma update_props_ok (ns : string) (o n : vnode) (e : elem) :
  String.eqb (vtype n) "TEXT" = false -> renderable n -> elem_ok e = true ->
  exists e', applyPropPatches_host ns (to_lower (vtype n)) e (diffProps (props o) (props n)) = Some e' /\
    elem_ok e' = true.
Proof.
  intros Ht Hr He. destruct (renderable_elem n Ht Hr) as [_ Hp].
  apply applyPropPatches_host_ok; [exact He|].
  intros e' He' pp Hpp. apply in_diffProps in Hpp.
  destruct Hpp as [[k [x [-> [Hin _]]]] | [k [x [-> _]]]].
  - destruct (Hp ns e' He') as [Hall _]. rewrite forallb_forall in Hall. exact (Hall (k, x) Hin).
  - unfold removeProp_ok. destruct (String.prefix "on" k); [exact (elem_ok_handler e' k He')|].
    destruct (String.eqb k "className"); [exact (proj2 (Hp ns e' He'))|reflexivity].
Qed.

Theorem patch_correct (fuel : nat) : forall n, vdepth n <= fuel -> patchable n = true -> renderable n ->
  patch_ok fuel n.
Proof.
  induction fuel as [|f IH]; intros n Hdep Hpa Hren.
  { pose proof (vdepth_pos n). lia. }
  intros d par el o fp Hwf Hr Hpok.
  assert (HIHc : String.eqb (vtype n) "TEXT" = false -> forall c, In c (children n) -> patch_ok f c).
  { intros Ht c Hc. apply IH; [pose proof (vdepth_child n c Hc); lia|exact (patchable_child n c Hpa Ht Hc)|].
    exact (renderable_child n c Ht Hren Hc). }
  assert (Hcre : String.eqb (vtype n) "TEXT" = false -> forall c, In c (children n) -> creatable c = true).
  { intros Ht c Hc. exact (renderable_creatable c (renderable_child n c Ht Hren Hc)). }
  destruct Hpok as [kp [pp [csp [Hnp [Hkp [Hinp [Hndp [Hcsp Hparfp]]]]]]]].
  assert (Hpar_small : par < next d) by (apply (in_wf d par Hwf); rewrite Hnp; discriminate).
  assert (Hel_fp : In el fp) by exact (real_root _ _ _ _ _ Hr).
  assert (Hel_small : el < next d) by exact (real_small _ _ _ _ _ Hwf Hr el Hel_fp).
  assert (Hpar_el : par <> el) by (intros ->; exact (Hparfp Hel_fp)).
  cbn [Render.patch diff]. rewrite diff_node_unfold.
  destruct (String.eqb (vtype o) (vtype n)) eqn:Hty; cbn [negb].
  2:{ (* different types: [REPLACE] *)
    destruct (createElement_ok n (renderable_creatable n Hren) d Hwf) as [d1 [ne [fpw [Hcr [Hrw [Hwf1 [Hle1 [Hfr1 Hfpw]]]]]]]].
    rewrite Hcr. cbn [obind].
    destruct (real_node _ _ _ _ _ Hr) as [ko [cso [Hno _]]].
    destruct (real_node _ _ _ _ _ Hrw) as [kn [csn [Hnw _]]].
    assert (Hne_ge : next d <= ne) by (apply Hfpw; exact (real_root _ _ _ _ _ Hrw)).
    rewrite (replaceChild_spec d1 par ne el kp pp csp kn csn ko cso) by
      (first [rewrite Hfr1 by lia; assumption | assumption
             | intros H; specialize (Hcsp ne H); lia | lia]).
    cbn [obind].
    set (d2 := set_node (set_node (set_node (set_node d1 par (DNode kp pp (remove_id el csp))) el
                 (DNode ko None cso)) par (DNode kp pp (replace_id el ne csp))) ne (DNode kn (Some par) csn)).
    assert (Hfr2 : forall x, x <> ne -> x <> par -> x <> el -> nodes d2 x = nodes d1 x).
    { intros x H1 H2 H3. unfold d2. rewrite !nodes_set.
      rewrite (proj2 (Nat.eqb_neq x ne) H1), (proj2 (Nat.eqb_neq x par) H2), (proj2 (Nat.eqb_neq x el) H3).
      reflexivity. }
    exists d2, ne, fpw. split; [reflexivity|].
    unfold patch_post. split.
    { apply (real_root_change d1 d2 None (Some par) ne n fpw kn kn csn Hrw Hnw).
      - unfold d2. rewrite nodes_set, Nat.eqb_refl. reflexivity.
      - apply same_shape_refl.
      - intros x Hx Hxne. specialize (Hfpw x Hx). apply Hfr2; lia. }
    split.
    { assert (Hne1 : ne < next d1) by (apply (in_wf d1 ne Hwf1); rewrite Hnw; discriminate).
      unfold d2. repeat apply wf_set; simpl; try lia; exact Hwf1. }
    split; [simpl; lia|].
    split.
    { intros x Hx Hnot Hne. rewrite Hfr2; [|lia|exact Hne|intros ->; exact (Hnot Hel_fp)].
      apply Hfr1. exact Hx. }
    split; [intros x Hx; right; exact (Hfpw x Hx)|].
    intros kp' pp' csp' Hnp'. rewrite Hnp in Hnp'. injection Hnp' as <- <- <-.
    unfold d2. rewrite !nodes_set. rewrite (proj2 (Nat.eqb_neq par ne) ltac:(lia)), Nat.eqb_refl. reflexivity. }
  apply String.eqb_eq in Hty.
  destruct (String.eqb (vtype o) "TEXT") eqn:Hot.
  - (* text nodes *)
    assert (Hnt : String.eqb (vtype n) "TEXT" = true) by (rewrite <- Hty; exact Hot).
    destruct (patchable_text n Hpa Hnt) as [s Hs].
    inversion Hr as [p0 i0 v0 Ht Hn0|p0 i0 v0 ns e cs0 fp0 Ht Hn0 He0 Hrc Hni]; subst; [|congruence].
    assert (Htext : forall d', nodes d' el = Some (DNode (DText s) (Some par) []) ->
              (forall x, x <> el -> nodes d' x = nodes d x) -> next d' = next d ->
              patch_post d par el [el] d' el [el] n).
    { intros d' Hn' Hfr' Hnx'. unfold patch_post. split.
      { apply real_text; [exact Hnt|]. rewrite Hs. exact Hn'. }
      split.
      { intros j Hj. rewrite Hnx' in Hj. destruct (Nat.eq_dec j el) as [->|Hjne]; [lia|].
        rewrite Hfr' by exact Hjne. exact (Hwf j Hj). }
      split; [lia|]. split.
      { intros x _ Hnot _. apply Hfr'. intros ->. apply Hnot. left. reflexivity. }
      split; [intros x Hx; left; exact Hx|].
      intros kp' pp' csp' Hnp'. rewrite Hfr' by exact Hpar_el. rewrite replace_id_same. exact Hnp'. }
    assert (Hset : exists d', set_textContent d el (text n) = Some d' /\
              nodes d' el = Some (DNode (DText s) (Some par) []) /\
              (forall x, x <> el -> nodes d' x = nodes d x) /\ next d' = next d).
    { unfold set_textContent. rewrite Hs, Hn0. eexists. split; [reflexivity|].
      rewrite nodes_set, Nat.eqb_refl. split; [reflexivity|]. split; [|reflexivity].
      intros x Hx. rewrite nodes_set, (proj2 (Nat.eqb_neq x el) Hx). reflexivity. }
    destruct Hset as [d' [Hst [Hn' [Hfr' Hnx']]]].
    rewrite Hs. destruct (text o) as [a|] eqn:Hto.
    + destruct (negb (String.eqb a s)) eqn:Has.
      * rewrite <- Hs. rewrite Hst. cbn [obind]. exists d', el, [el]. split; [reflexivity|]. exact (Htext d' Hn' Hfr' Hnx').
      * apply Bool.negb_false_iff, String.eqb_eq in Has. subst a.
        exists d, el, [el]. split; [reflexivity|]. apply Htext; [|reflexivity|reflexivity].
        exact Hn0.
    + rewrite <- Hs. rewrite Hst. cbn [obind]. exists d', el, [el]. split; [reflexivity|]. exact (Htext d' Hn' Hfr' Hnx').
  - (* elements *)
    assert (Hnt : String.eqb (vtype n) "TEXT" = false) by (rewrite <- Hty; exact Hot).
    inversion Hr as [p0 i0 v0 Ht Hn0|p0 i0 v0 ns e cs0 fpo Ht Hn0 He0 Hrc Hni]; subst; [congruence|].
    destruct (reals_props _ _ _ _ _ Hrc) as [_ [_ [_ [Hnd0 Hlen0]]]].
    assert (Hfin : forall d' ids fpn e',
      nodes d' el = Some (DNode (DElement ns (to_lower (vtype o)) e') (Some par) ids) -> elem_ok e' = true ->
      reals d' (Some el) ids (children n) fpn -> ~ In el fpn -> wf d' -> next d <= next d' ->
      (forall x, x < next d -> ~ In x fpo -> x <> el -> nodes d' x = nodes d x) ->
      (forall x, In x fpn -> In x fpo \/ next d <= x) ->
      patch_post d par el (el :: fpo) d' el (el :: fpn) n).
    { intros d' ids fpn e' Hn' He' Hr' Heln' Hwf' Hle' Hfr' Hfp'. unfold patch_post. split.
      { apply real_elem with (ns := ns) (e := e') (cs := ids); [exact Hnt| |exact He'|exact Hr'|exact Heln'].
        rewrite <- Hty. exact Hn'. }
      split; [exact Hwf'|]. split; [exact Hle'|]. split.
      { intros x Hx Hnot Hne. apply Hfr'; [exact Hx|intros H; apply Hnot; right; exact H|intros ->; apply Hnot; left; reflexivity]. }
      split.
      { intros x [<-|Hx]; [left; left; reflexivity|]. destruct (Hfp' x Hx) as [H|H]; [left; right; exact H|right; exact H]. }
      intros kp' pp' csp' Hnp'. rewrite replace_id_same. rewrite Hfr'; [exact Hnp'|exact Hpar_small| |exact Hpar_el].
      intros H. apply Hparfp. right. exact H. }
    destruct (orb (Nat.ltb 0 (List.length (diffProps (props o) (props n))))
                  (Nat.ltb 0 (cp_patches_length (diffChildren (children o) (children n))))) eqn:Hupd.
    + (* [UPDATE]: the properties, then the children *)
      unfold update_elem. rewrite Hn0. cbn [obind].
      destruct (update_props_ok ns o n e Hnt Hren He0) as [e1 [Hap He1]]. rewrite <- Hty in Hap.
      rewrite Hap. cbn [obind].
      set (d1 := set_node d el (DNode (DElement ns (to_lower (vtype o)) e1) (Some par) cs0)).
      assert (Hfr1 : forall x, x <> el -> nodes d1 x = nodes d x).
      { intros x Hx. unfold d1. rewrite nodes_set, (proj2 (Nat.eqb_neq x el) Hx). reflexivity. }
      assert (Hn1 : nodes d1 el = Some (DNode (DElement ns (to_lower (vtype o)) e1) (Some par) cs0))
        by (unfold d1; rewrite nodes_set, Nat.eqb_refl; reflexivity).
      assert (Hwf1 : wf d1) by (apply wf_set; [exact Hwf|exact Hel_small]).
      assert (Hrc1 : reals d1 (Some el) cs0 (children o) fpo).
      { apply (reals_frame d); [exact Hrc|]. intros x Hx. apply Hfr1. intros ->. exact (Hni Hx). }
      assert (Hfpo_small : forall x, In x fpo -> x < next d1) by exact (reals_small _ _ _ _ _ Hwf1 Hrc1).
      assert (Hfin1 : forall d' ids fpn e',
        nodes d' el = Some (DNode (DElement ns (to_lower (vtype o)) e') (Some par) ids) -> elem_ok e' = true ->
        reals d' (Some el) ids (children n) fpn -> ~ In el fpn -> wf d' -> next d1 <= next d' ->
        (forall x, x < next d1 -> ~ In x fpo -> x <> el -> nodes d' x = nodes d1 x) ->
        (forall x, In x fpn -> In x fpo \/ next d1 <= x) ->
        patch_post d par el (el :: fpo) d' el (el :: fpn) n).
      { intros d' ids fpn e' Hn' He' Hr' Heln' Hwf' Hle' Hfr' Hfp'.
        apply (Hfin d' ids fpn e' Hn' He' Hr' Heln' Hwf' Hle'); [|exact Hfp'].
        intros x Hx Hnot Hne. rewrite Hfr'; [exact (Hfr1 x Hne)|exact Hx|exact Hnot|exact Hne]. }
      destruct (Nat.eqb (keyedCount (children n)) (List.length (children n))) eqn:Hkc.
      * (* keyed children *)
        apply Nat.eqb_eq in Hkc. rewrite (diffChildren_keyed_form _ _ Hkc).
        destruct (reals_idx _ _ _ _ _ Hrc1) as [F [HF [HFd HFi]]].
        destruct (keyed_children_ok f el (DElement ns (to_lower (vtype o)) e1)
                    (Some par) o n cs0 F fpo d1 (HIHc Hnt) (Hcre Hnt) Hlen0 eq_refl HFi HFd
                    Hel_small Hfpo_small Hni (patchable_keys n Hpa Hnt Hkc) Hwf1 Hn1 Hnd0 HF)
          as [d' [ids [fpn [Hpk [Hn' [Hr' [Heln' [Hwf' [Hle' [Hfr' Hfp']]]]]]]]]].
        rewrite Hpk. cbn [obind]. exists d', el, (el :: fpn). split; [reflexivity|].
        exact (Hfin1 d' ids fpn e1 Hn' He1 Hr' Heln' Hwf' Hle' Hfr' Hfp').
      * (* positional children *)
        assert (Hcp : diffChildren (children o) (children n) = Positional (positional (children o) (children n)))
          by (unfold diffChildren; rewrite Hkc; reflexivity).
        rewrite Hcp.
        assert (Hf1 : 1 <= f).
        { destruct (children n) as [|c cs] eqn:Hcs; [discriminate|].
          assert (Hc : In c (children n)) by (rewrite Hcs; left; reflexivity).
          pose proof (vdepth_child n c Hc). pose proof (vdepth_pos c). lia. }
        replace (childNodes d1 el) with cs0 by (unfold childNodes; rewrite Hn1; reflexivity).
        destruct (positional_loop f el o n cs0 (DElement ns (to_lower (vtype o)) e1) (Some par) fpo d1 Hf1 (HIHc Hnt) (Hcre Hnt) Hlen0 Hel_small Hfpo_small
                    (positional (children o) (children n)) 0 d1 [] [] fpo)
          as [d' [ids [fpn [Hpp [Hn' [Hr' [Heln' [Hwf' [Hle' [Hfr' Hfp']]]]]]]]]].
        { rewrite positional_length. reflexivity. } { exact Hwf1. } { lia. }
        { simpl. exact Hn1. } { reflexivity. } { constructor. } { exact Hrc1. }
        { intros x []. } { intros []. } { exact Hni. } { auto. } { intros x []. } { auto. }
        rewrite Hpp. cbn [obind]. exists d', el, (el :: fpn). split; [reflexivity|].
        exact (Hfin1 d' ids fpn e1 Hn' He1 Hr' Heln' Hwf' Hle' Hfr' Hfp').
    + (* nothing to do *)
      apply Bool.orb_false_iff in Hupd. destruct Hupd as [_ Hcp0]. apply Nat.ltb_ge in Hcp0.
      destruct (cp_zero (children o) (children n) ltac:(lia)) as [Ho Hn].
      rewrite Ho in Hrc. destruct (reals_nil_inv' _ _ _ _ Hrc) as [-> ->].
      exists d, el, [el]. split; [reflexivity|].
      apply (Hfin d [] [] e Hn0 He0); [rewrite Hn; constructor|intros []|exact Hwf|lia|auto|intros x []].
Qed.


Lemma read_real (d : dom) :
  (forall p i v fp, real d p i v fp -> forall f, vdepth v <= f -> read_dom f d i = Some (vshape v)) /\
  (forall p cs vs fp, reals d p cs vs fp -> forall f, (forall v, In v vs -> vdepth v <= f) ->
     read_list (read_dom f d) cs = Some (map vshape vs)).
Proof.
  apply real_reals_ind.
  - intros p i v Ht Hn f Hf. destruct f as [|f]; [pose proof (vdepth_pos v); lia|].
    simpl. rewrite Hn. destruct v as [t ps cs tx]. simpl in *. rewrite Ht. reflexivity.
  - intros p i v ns e cs fp Ht Hn He Hr IH Hni f Hf. destruct f as [|f]; [pose proof (vdepth_pos v); lia|].
    simpl. rewrite Hn. rewrite IH.
    + simpl. destruct v as [t ps vcs tx]. simpl in *. rewrite Ht. reflexivity.
    + intros c Hc. pose proof (vdepth_child v c Hc). lia.
  - intros p f _. reflexivity.
  - intros p c cs v vs fp1 fp2 H1 IH1 H2 IH2 Hd f Hf. simpl.
    rewrite (IH1 f) by (apply Hf; left; reflexivity). simpl.
    rewrite (IH2 f) by (intros w Hw; apply Hf; right; exact Hw). reflexivity.
Qed.

Lemma read_real_one (d : dom) p i v fp f : real d p i v fp -> vdepth v <= f ->
  read_dom f d i = Some (vshape v).
Proof. intros H. exact (proj1 (read_real d) p i v fp H f). Qed.


(** X1 ([render.js] createElement): on a DOM whose unused identities are
    free, [createElement v] returns exactly when [v] is creatable (every
    element type passes the name check of [document.createElement] and its
    props can be set on the fresh element; otherwise a DOM call throws); it
    then builds a fresh detached node whose subtree reads back as the shape
    of [v] (element names in lower case, texts, child order) and leaves
    every existing node as it was. *)
Theorem createElement_builds (v : vnode) (d : dom) : wf d ->
  (creatable v = false -> Render.createElement v d = None) /\
  (creatable v = true ->
   exists d' i, Render.createElement v d = Some (d', i) /\ next d <= i /\
    (exists k cs, nodes d' i = Some (DNode k None cs)) /\
    read_dom (vdepth v) d' i = Some (vshape v) /\
    (forall x, x < next d -> nodes d' x = nodes d x)).
Proof.
  intros Hwf. split.
  { intros Hno. destruct (Render.createElement v d) as [[d' i]|] eqn:Hc; [|reflexivity].
    rewrite (createElement_creatable v d d' i Hc) in Hno. discriminate. }
  intros Hcre. destruct (createElement_ok v Hcre d Hwf) as [d' [i [fp [Hc [Hr [Hwf' [Hle [Hfr Hfp]]]]]]]].
  exists d', i. split; [exact Hc|]. split; [apply Hfp; exact (real_root _ _ _ _ _ Hr)|].
  split; [destruct (real_node _ _ _ _ _ Hr) as [k [cs [Hn _]]]; exists k, cs; exact Hn|].
  split; [exact (read_real_one _ _ _ _ _ _ Hr (le_n _))|exact Hfr].
Qed.


(** X2 ([render.js] patch, patchKeyedChildren): patching a mounted subtree
    that realizes [o] to a vnode [n] (text nodes with a text, distinct keys
    whenever all children are keyed, and no DOM call of the patch can throw:
    [renderable n]) succeeds with enough fuel; the resulting node reads back
    as the shape of [n], takes the old node's place among the parent's
    children, and no node outside the old subtree and the parent changes. *)
Theorem patch_reads_back (fuel : nat) (d : dom) (par el : nat) (o n : vnode) (fp : list nat) :
  wf d -> real d (Some par) el o fp -> parent_ok d par el fp ->
  vdepth n <= fuel -> patchable n = true -> renderable n ->
  exists d' el', Render.patch fuel par (Some el) (Some o) (Some n) d = Some (d', Some el') /\
    read_dom fuel d' el' = Some (vshape n) /\
    (forall kp pp csp, nodes d par = Some (DNode kp pp csp) ->
       nodes d' par = Some (DNode kp pp (replace_id el el' csp))) /\
    (forall x, x < next d -> ~ In x fp -> x <> par -> nodes d' x = nodes d x).
Proof.
  intros Hwf Hr Hpok Hdep Hpa Hren.
  destruct (patch_correct fuel n Hdep Hpa Hren d par el o fp Hwf Hr Hpok)
    as [d' [el' [fp' [Hp [Hr' [_ [_ [Hfr [_ Hpar]]]]]]]]].
  exists d', el'. split; [exact Hp|]. split; [exact (read_real_one _ _ _ _ _ _ Hr' Hdep)|].
  split; [exact Hpar|exact Hfr].
Qed.


Section Mount.
Variables (fuel c : nat) (d0 : dom) (k : dkind) (pc : option nat) (pre : list nat).




End Mount.




(** X4 ([render.js] patch, createElement): patching a text vnode to one with
    an undefined text empties the text node ([textContent = undefined]), while
    creating the same vnode afresh writes the string "undefined". *)
Theorem patch_text_undefined (f par el : nat) (o n : vnode) (d : dom) (s a : string)
  (pe : option nat) (cs : list nat) :
  nodes d el = Some (DNode (DText s) pe cs) -> vtype o = "TEXT" -> vtype n = "TEXT" ->
  text o = Some a -> text n = None ->
  Render.patch (S f) par (Some el) (Some o) (Some n) d =
    Some (set_node d el (DNode (DText "") pe cs), Some el) /\
  (forall d0, exists d1 i, Render.createElement n d0 = Some (d1, i) /\
     nodes d1 i = Some (DNode (DText "undefined") None [])).
Proof.
  intros Hel Ho Hn Hto Htn. split.
  - cbn [Render.patch diff]. rewrite diff_node_unfold. rewrite Ho, Hn, Hto, Htn. cbn.
    unfold set_textContent. rewrite Hel. reflexivity.
  - intros d0. rewrite createElement_unfold, Hn, Htn. cbn.
    eexists _, _. split; [reflexivity|]. cbn. rewrite Nat.eqb_refl. reflexivity.
Qed.

Lemma createElement_ns_unfold (v : vnode) (ns : option string) (d : dom) :
  RenderNS.createElement v ns d =
  if String.eqb (vtype v) "TEXT" then
    Some (alloc d (DNode (DText (js_String (text v))) None []))
  else
    let elementNs := RenderNS.getNamespace (vtype v) ns in
    obind (RenderNS.create_node (vtype v) elementNs) (fun k =>
    let '(d1, el) := alloc d (DNode k None []) in
    obind (update_elem d1 el (fun ens tg e => setProps_ns_host ens tg e (props v) elementNs)) (fun d2 =>
    obind (RenderNS.appendAll (RenderNS.getChildNamespace (vtype v) elementNs) el (children v) d2)
          (fun d3 => Some (d3, el)))).
Proof. destruct v; reflexivity. Qed.







End DomHost.

(** X8 ([part_003] set, track, trigger, effect, cleanup): a successful
    write or effect registration keeps the store's invariants: every
    subscriber of a key lists that key among its dependencies, no key has a
    duplicate subscriber, and the current effect is restored. *)
Theorem store_ops_keep_invariants (fn_of : nat -> cmd) (fuel : nat) :
  (forall k v s s', set_prop fn_of fuel k v s = Some s' ->
     (subs_inv s -> subs_inv s') /\ (sets_nodup s -> sets_nodup s') /\ current s' = current s) /\
  (forall e s s', (forall k, ~ In e (subs s k)) -> effect fn_of fuel e s = Some s' ->
     (subs_inv s -> subs_inv s') /\ (sets_nodup s -> sets_nodup s') /\ current s' = current s).
Proof.
  split.
  - intros k v s s' H. split; [|split].
    + revert H. apply (set_prop_R fn_of inv_kept); unfold inv_kept; auto.
      * exact inv_track.
      * exact inv_enter.
    + revert H. apply (set_prop_R fn_of nodup_kept); unfold nodup_kept; auto.
      * exact nodup_track.
      * intros e' s0 H. apply (cleanup_nodup e' (log (Ran e') s0)). exact H.
    + unfold set_prop in H.
      refine (set_with_R (fun s s' => current s' = current s) (fun _ => eq_refl) _ _
                (run fn_of fuel) _ k v s s' H).
      * intros s1 s2 s3 H1 H2. cbv beta in *. congruence.
      * intros k' v' s0. reflexivity.
      * intros e s0 s1 Hr. exact (run_current fn_of fuel e s0 s1 Hr).
  - intros e s s' Hfresh H. unfold effect in H.
    set (s0 := RState (target s) (deps s) (upd_n (edeps s) e []) (current s) (events s)) in H.
    split; [|split].
    + intros Hinv. apply (run_inv fn_of fuel e s0 s' H).
      intros e' k Hin. unfold s0, subs in *. simpl in *. unfold upd_n.
      destruct (Nat.eqb_spec e' e) as [->|Hne].
      * exfalso. exact (Hfresh k Hin).
      * exact (Hinv e' k Hin).
    + intros Hnd. apply (run_nodup fn_of fuel e s0 s' H). exact Hnd.
    + rewrite (run_current fn_of fuel e s0 s' H). reflexivity.
Qed.

Lemma store_ops_keep_invariants_witness :
  (exists s', set_prop count_fn 10 "count" (JNum 1) count_state2 = Some s' /\
     (subs_inv count_state2 -> subs_inv s') /\ (sets_nodup count_state2 -> sets_nodup s') /\
     current s' = current count_state2) /\
  (exists s', effect count_fn 10 0 count_state0 = Some s' /\
     (subs_inv count_state0 -> subs_inv s') /\ (sets_nodup count_state0 -> sets_nodup s') /\
     current s' = current count_state0).
Proof.
  destruct (store_ops_keep_invariants count_fn 10) as [H1 H2]. split.
  - eexists. split; [reflexivity|]. apply (H1 "count" (JNum 1) count_state2). reflexivity.
  - eexists. split; [reflexivity|]. apply (H2 0 count_state0); [intros k []|reflexivity].
Defined.

Section HtmlOnly.
Context `{Hdom : dom_host}.

Definition no_xlink (k : string) : bool :=
  negb (String.eqb k "xlinkHref" || String.eqb k "xlink:href").

Lemma setProp_ns_html (e : elem) (k : string) (v : jsval) :
  no_xlink k = true -> setProp_ns e k v None = setProp e k v.
Proof.
  unfold no_xlink. intros Hx. apply negb_true_iff in Hx. unfold setProp_ns, setProp. rewrite Hx.
  destruct (String.eqb k "key"); [reflexivity|].
  destruct (String.prefix "on" k); [reflexivity|].
  destruct (String.eqb k "className"); [reflexivity|].
  destruct (String.eqb k "style" && is_object v); [reflexivity|].
  rewrite andb_true_r. destruct (String.eqb k "value"); reflexivity.
Qed.

Lemma setProp_ns_ok_html (ens tg : string) (e : elem) (k : string) (v : jsval) :
  no_xlink k = true -> setProp_ns_ok ens tg e k v None = setProp_ok ens tg e k v.
Proof.
  unfold no_xlink. intros Hx. apply negb_true_iff in Hx. unfold setProp_ns_ok, setProp_ok. rewrite Hx.
  destruct (String.eqb k "key"); [reflexivity|].
  destruct (String.prefix "on" k); [reflexivity|].
  destruct (String.eqb k "className"); [reflexivity|].
  destruct (String.eqb k "style" && is_object v); [reflexivity|].
  rewrite andb_true_r. destruct (String.eqb k "value"); reflexivity.
Qed.

Lemma setProps_ns_html (ens tg : string) (ps : obj) : forall e,
  forallb (fun kv => no_xlink (fst kv)) ps = true ->
  setProps_ns_host ens tg e ps None = setProps_host ens tg e ps.
Proof.
  induction ps as [|[k v] ps IH]; intros e H; [reflexivity|].
  cbn [forallb fst] in H. apply andb_prop in H as [Hk H].
  cbn [setProps_ns_host setProps_host]. unfold setProp_ns_host, setProp_host.
  rewrite setProp_ns_ok_html, setProp_ns_html by exact Hk.
  destruct (setProp_ok ens tg e k v); [|reflexivity]. cbn [obind]. apply IH. exact H.
Qed.

Lemma update_elem_ext (d : dom) (i : nat) (f g : string -> string -> elem -> option elem) :
  (forall ns tg e, f ns tg e = g ns tg e) -> update_elem d i f = update_elem d i g.
Proof.
  intros H. unfold update_elem. destruct (nodes d i) as [[[s|ns tg e] p cs]|]; try reflexivity.
  rewrite H. reflexivity.
Qed.

Lemma appendAll_ns_cons (ns : option string) (el : nat) (c : vnode) (cs : list vnode) (d : dom) :
  RenderNS.appendAll ns el (c :: cs) d =
  obind (RenderNS.createElement c ns d) (fun '(d2, ce) =>
  obind (appendChild d2 el ce) (RenderNS.appendAll ns el cs)).
Proof. reflexivity. Qed.

(** X9 ([part_005] createElement, getNamespace, getChildNamespace, setProps,
    setProp against [render.js] createElement): with no namespace given, the
    namespace-aware createElement makes the same DOM calls as the renderer of
    [render.js], so it fails exactly when that one fails and otherwise
    builds the same DOM, for every vnode tree without [svg] or [math]
    elements and without an [xlinkHref] or [xlink:href] prop. *)
Theorem html_createElement_unchanged (v : vnode) (d : dom) :
  html_only v = true -> RenderNS.createElement v None d = Render.createElement v d.
Proof.
  revert d. pattern v. apply vnode_ind'. clear v.
  intros t ps cs tx IH d H.
  rewrite createElement_ns_unfold, createElement_unfold. cbn [vtype props children text] in *.
  destruct (String.eqb t "TEXT"); [reflexivity|].
  cbn [html_only vtype props children] in H.
  apply andb_prop in H as [H Hcs]. apply andb_prop in H as [H Hps]. apply andb_prop in H as [Hs Hm].
  apply negb_true_iff in Hs. apply negb_true_iff in Hm.
  unfold RenderNS.getNamespace. rewrite Hs, Hm.
  assert (Hch : RenderNS.getChildNamespace t None = None)
    by (unfold RenderNS.getChildNamespace; destruct (String.eqb t "foreignObject"); reflexivity).
  rewrite Hch. cbv zeta. unfold RenderNS.create_node.
  destruct (element_name_ok None t); cbn [negb obind]; [|reflexivity].
  destruct (alloc d _) as [d1 el].
  rewrite (update_elem_ext d1 el _ (fun ns tg e => setProps_host ns tg e ps))
    by (intros ns tg e; apply setProps_ns_html; exact Hps).
  destruct (update_elem d1 el (fun ns tg e => setProps_host ns tg e ps)) as [d2|]; [|reflexivity]. cbn [obind].
  assert (Hall : forall d, RenderNS.appendAll None el cs d = Render.appendAll el cs d).
  { clear d d1 d2. induction cs as [|c cs IHcs]; intros d; [reflexivity|].
    inversion IH as [|? ? IHc IHr]; subst.
    apply andb_prop in Hcs as [Hc Hcs'].
    rewrite appendAll_ns_cons. cbn [Render.appendAll]. rewrite (IHc d Hc).
    destruct (Render.createElement c d) as [[d3 ce]|]; [|reflexivity]. cbn [obind].
    destruct (appendChild d3 el ce) as [d4|]; [|reflexivity]. cbn [obind].
    apply (IHcs IHr Hcs'). }
  rewrite Hall. reflexivity.
Qed.

End HtmlOnly.

(** ** Examples on a concrete host *)

Lemma host_wf : wf host_dom.
Proof. intros j Hj. simpl in *. destruct (Nat.eqb_spec j 0); [lia|reflexivity]. Qed.

#[local] Existing Instance example_host.

Lemma createElement_builds_witness :
  (creatable (h "a b" [] []) = false /\ Render.createElement (h "a b" [] []) host_dom = None) /\
  (creatable (list_view ["a"; "b"]) = true /\
   exists d' i, Render.createElement (list_view ["a"; "b"]) host_dom = Some (d', i) /\ next host_dom <= i /\
    (exists k cs, nodes d' i = Some (DNode k None cs)) /\
    read_dom (vdepth (list_view ["a"; "b"])) d' i = Some (vshape (list_view ["a"; "b"])) /\
    (forall x, x < next host_dom -> nodes d' x = nodes host_dom x)).
Proof.
  split.
  - split; [reflexivity|]. apply (proj1 (createElement_builds _ _ host_wf)). reflexivity.
  - split; [reflexivity|]. apply (proj2 (createElement_builds _ _ host_wf)). reflexivity.
Defined.

Lemma patch_reads_back_witness :
  exists d' el', Render.patch 2 0 (Some 1) (Some (h "p" [] [HText "a"])) (Some (h "p" [] [HText "b"])) para_dom
      = Some (d', Some el') /\
    read_dom 2 d' el' = Some (vshape (h "p" [] [HText "b"])) /\
    (forall kp pp csp, nodes para_dom 0 = Some (DNode kp pp csp) ->
       nodes d' 0 = Some (DNode kp pp (replace_id 1 el' csp))) /\
    (forall x, x < next para_dom -> ~ In x [1; 2] -> x <> 0 -> nodes d' x = nodes para_dom x).
Proof.
  apply patch_reads_back.
  - intros j Hj. simpl in *. destruct j as [|[|[|j]]]; [lia|lia|lia|reflexivity].
  - apply real_elem with (ns := XHTML_NS) (e := new_elem) (cs := [2]) (fp := [2]);
      [reflexivity|reflexivity|reflexivity| |simpl; lia].
    change [2] with ([2] ++ []). apply reals_cons; [apply real_text; reflexivity|constructor|intros x _ []].
  - exists (DElement XHTML_NS "div" new_elem), None, [1]. split; [reflexivity|]. split; [reflexivity|].
    split; [left; reflexivity|]. split; [repeat constructor; intros []|].
    split; [intros y [<-|[]]; simpl; lia|simpl; lia].
  - simpl. lia.
  - reflexivity.
  - cbn. repeat (first [exact I | reflexivity | split | intros ? ? ?]).
Defined.


Lemma patch_text_undefined_witness :
  Render.patch 1 0 (Some 2) (Some (createTextVNode "a")) (Some (VNode "TEXT" [] [] None)) para_dom =
    Some (set_node para_dom 2 (DNode (DText "") (Some 1) []), Some 2) /\
  (forall d0, exists d1 i, Render.createElement (VNode "TEXT" [] [] None) d0 = Some (d1, i) /\
     nodes d1 i = Some (DNode (DText "undefined") None [])).
Proof. apply (patch_text_undefined 0 0 2 _ _ para_dom "a" "a"); reflexivity. Defined.



Lemma html_createElement_unchanged_witness :
  html_only (h "div" [("id", JStr "a"); ("className", JStr "c")] [HText "x"; HNode (h "p" [("value", JStr "v")] [])]) = true /\
  RenderNS.createElement (h "div" [("id", JStr "a"); ("className", JStr "c")] [HText "x"; HNode (h "p" [("value", JStr "v")] [])]) None host_dom =
    Render.createElement (h "div" [("id", JStr "a"); ("className", JStr "c")] [HText "x"; HNode (h "p" [("value", JStr "v")] [])]) host_dom.
Proof. split; [reflexivity|]. apply html_createElement_unchanged. reflexivity. Defined.
